(** * Quine-McCluskey minimisation: a shallow embedding of
    [quine_mccluskey.py] and the properties of its [simplify] method.

    Python strings are lists of characters, Python sets of strings are
    duplicate-free lists whose iteration order is a parameter of the model,
    the coverage table is an insertion-ordered association list, and the
    exceptions the interpreter can raise inside [simplify] are the constructors
    of [exn]. The two [while] loops take a bound on the number of times their
    body may run. *)

From Stdlib Require Import String Ascii List ZArith Bool Arith Lia Permutation.
Import ListNotations.

Open Scope nat_scope.

(** ** Results of fallible code *)

Inductive exn : Type :=
| IndexError   (* string index out of range *)
| KeyError     (* del of a key that is not in the dict *)
| ValueError.  (* max() of an empty iterable *)

Inductive result (A : Type) : Type :=
| Ok (a : A)
| Raise (e : exn)
| OutOfFuel.

Arguments Ok {A} a.
Arguments Raise {A} e.
Arguments OutOfFuel {A}.

Definition bind {A B : Type} (r : result A) (k : A -> result B) : result B :=
  match r with
  | Ok a => k a
  | Raise e => Raise e
  | OutOfFuel => OutOfFuel
  end.

Notation "x <- r ;; k" := (bind r (fun x => k))
  (at level 61, r at next level, right associativity).
Notation "' p <- r ;; k" := (bind r (fun p => k))
  (at level 61, p pattern, r at next level, right associativity).

(** A [for] loop over a list whose body may raise: the state is threaded
    through the iterations and the first exception ends the loop. *)
Fixpoint for_each {A S : Type} (l : list A) (body : A -> S -> result S) (st : S)
  : result S :=
  match l with
  | [] => Ok st
  | x :: rest => st' <- body x st ;; for_each rest body st'
  end.

(** ** Strings *)

Definition str : Type := list ascii.

(** A string literal. *)
Definition lit (s : string) : str := list_ascii_of_string s.

Definition dash : ascii := "-"%char.
Definition zero : ascii := "0"%char.
Definition one : ascii := "1"%char.

Fixpoint str_eqb (a b : str) : bool :=
  match a, b with
  | [], [] => true
  | x :: a', y :: b' => Ascii.eqb x y && str_eqb a' b'
  | _, _ => false
  end.

(** [a < b] on strings: lexicographic on the code points. *)
Fixpoint str_ltb (a b : str) : bool :=
  match a, b with
  | _, [] => false
  | [], _ :: _ => true
  | x :: a', y :: b' =>
      match Ascii.compare x y with
      | Lt => true
      | Eq => str_ltb a' b'
      | Gt => false
      end
  end.

(** [sorted(l)]: a stable sort that compares with [<] only. *)
Fixpoint sorted_insert (x : str) (l : list str) : list str :=
  match l with
  | [] => [x]
  | y :: rest => if str_ltb y x then y :: sorted_insert x rest else x :: l
  end.

Fixpoint sorted (l : list str) : list str :=
  match l with
  | [] => []
  | x :: rest => sorted_insert x (sorted rest)
  end.

(** ** Sets of strings

    A set is kept as a duplicate-free list. What the list order stands for is
    private to the model: every loop over a set reads the set through the
    enumeration [enum] of the run (see the section below). *)

Definition pyset : Type := list str.

Definition set_mem (x : str) (s : pyset) : bool := existsb (str_eqb x) s.

Definition set_add (x : str) (s : pyset) : pyset :=
  if set_mem x s then s else s ++ [x].

(** [set(l)] *)
Definition set_of_list (l : list str) : pyset :=
  fold_left (fun s x => set_add x s) l [].

(** ** The coverage table: a dict from minterm strings to lists of implicants *)

Definition dict : Type := list (str * list str).

(** [d[k] = v]: an existing key keeps its place. *)
Fixpoint dict_set (k : str) (v : list str) (d : dict) : dict :=
  match d with
  | [] => [(k, v)]
  | (k', v') :: rest =>
      if str_eqb k k' then (k', v) :: rest else (k', v') :: dict_set k v rest
  end.

Fixpoint dict_get (k : str) (d : dict) : option (list str) :=
  match d with
  | [] => None
  | (k', v') :: rest => if str_eqb k k' then Some v' else dict_get k rest
  end.

(** [del d[k]] *)
Fixpoint dict_del (k : str) (d : dict) : result dict :=
  match d with
  | [] => Raise KeyError
  | (k', v') :: rest =>
      if str_eqb k k' then Ok rest
      else rest' <- dict_del k rest ;; Ok ((k', v') :: rest')
  end.

(** [list(d.keys())] *)
Definition dict_keys (d : dict) : list str := map fst d.

(** ** [bin], slicing and [zfill] *)

Fixpoint pos_digits (p : positive) (acc : str) : str :=
  match p with
  | xH => one :: acc
  | xO q => pos_digits q (zero :: acc)
  | xI q => pos_digits q (one :: acc)
  end.

(** [bin(z)]: ['0b...'], with a leading ['-'] for a negative number. *)
Definition bin (z : Z) : str :=
  match z with
  | Z0 => lit "0b0"
  | Zpos p => lit "0b" ++ pos_digits p []
  | Zneg p => lit "-0b" ++ pos_digits p []
  end.

(** [s.zfill(width)]: pads with ['0'] on the left up to [width]; the padding
    goes after a leading sign; a string that is long enough is unchanged. *)
Definition zfill (width : nat) (s : str) : str :=
  let pad := repeat zero (width - length s) in
  match s with
  | c :: rest =>
      if Ascii.eqb c "+"%char || Ascii.eqb c dash then c :: pad ++ rest
      else pad ++ s
  | [] => pad
  end.

(** ** The class *)

Record QuineMcCluskey : Type := {
  num_variables : nat;
  minterms : list Z;
  dont_cares : list Z;
  all_terms : list Z;
  simplified_terms : list str
}.

(** [__init__] *)
Definition init (num_variables : nat) (minterms dont_cares : list Z)
  : QuineMcCluskey :=
  {| num_variables := num_variables;
     minterms := minterms;
     dont_cares := dont_cares;
     all_terms := minterms ++ dont_cares;
     simplified_terms := [] |}.

(** [bin(term)[2:].zfill(self.num_variables)] *)
Definition to_binary (num_variables : nat) (term : Z) : str :=
  zfill num_variables (skipn 2 (bin term)).

Definition minterms_to_binary (self : QuineMcCluskey) (terms : list Z)
  : list str :=
  map (to_binary (num_variables self)) terms.

(** The generator of [differs_by_one_bit]: one [1] per index of [term1] where
    the two strings differ; [term2[i]] raises when [term2] is too short. *)
Fixpoint diff_count (term1 term2 : str) : result nat :=
  match term1 with
  | [] => Ok 0
  | c1 :: r1 =>
      match term2 with
      | [] => Raise IndexError
      | c2 :: r2 =>
          n <- diff_count r1 r2 ;;
          Ok (if Ascii.eqb c1 c2 then n else S n)
      end
  end.

Definition differs_by_one_bit (term1 term2 : str) : result bool :=
  n <- diff_count term1 term2 ;; Ok (n =? 1).

Fixpoint combine_binary_terms (term1 term2 : str) : result str :=
  match term1 with
  | [] => Ok []
  | c1 :: r1 =>
      match term2 with
      | [] => Raise IndexError
      | c2 :: r2 =>
          r <- combine_binary_terms r1 r2 ;;
          Ok ((if Ascii.eqb c1 c2 then c1 else dash) :: r)
      end
  end.

(** [all(...)] stops at the first index that fails, so a short implicant raises
    only when every earlier index matched. *)
Fixpoint covers (implicant minterm : str) : result bool :=
  match minterm with
  | [] => Ok true
  | m :: mrest =>
      match implicant with
      | [] => Raise IndexError
      | c :: crest =>
          if Ascii.eqb c dash || Ascii.eqb c m then covers crest mrest
          else Ok false
      end
  end.

(** ** [simplify]

    [enum s] is the order in which a loop meets the elements of the set [s]
    during the run. Python fixes no such order for a set of strings (it follows
    the hashes of the strings, which change from one interpreter process to the
    next), so the run is a function of it. *)

Section Simplify.

Variable enum : pyset -> list str.

(** The body of the two nested loops of step 2. *)
Definition merge_pair (term1 term2 : str) (st : pyset * pyset)
  : result (pyset * pyset) :=
  let '(combined, used) := st in
  if negb (str_eqb term1 term2) then
    d <- differs_by_one_bit term1 term2 ;;
    if d then
      combined_term <- combine_binary_terms term1 term2 ;;
      Ok (set_add combined_term combined, set_add term2 (set_add term1 used))
    else Ok st
  else Ok st.

(** One pass of the [while terms] loop: the new working set and the prime
    implicants found so far. *)
Definition merge_round (terms prime_implicants : pyset)
  : result (pyset * pyset) :=
  '(combined, used) <-
     for_each (enum terms)
       (fun term1 => for_each (enum terms) (fun term2 => merge_pair term1 term2))
       ([], []) ;;
  Ok (combined,
      fold_left
        (fun pis term => if set_mem term used then pis else set_add term pis)
        (enum terms) prime_implicants).

(** [while terms: ...]; [fuel] bounds the number of passes. *)
Fixpoint merge_loop (fuel : nat) (terms prime_implicants : pyset)
  : result pyset :=
  match terms with
  | [] => Ok prime_implicants
  | _ :: _ =>
      match fuel with
      | 0 => OutOfFuel
      | S fuel' =>
          '(combined, prime_implicants') <- merge_round terms prime_implicants ;;
          merge_loop fuel' combined prime_implicants'
      end
  end.

(** [[implicant for implicant in ... if self.covers(implicant, minterm)]] *)
Fixpoint covering (implicants : list str) (minterm : str) : result (list str) :=
  match implicants with
  | [] => Ok []
  | implicant :: rest =>
      c <- covers implicant minterm ;;
      l <- covering rest minterm ;;
      Ok (if c then implicant :: l else l)
  end.

(** Step 3. *)
Definition build_coverage_table (prime_implicants : pyset)
    (minterm_binaries : list str) : result dict :=
  for_each minterm_binaries
    (fun minterm coverage_table =>
       l <- covering (enum prime_implicants) minterm ;;
       Ok (dict_set minterm l coverage_table))
    [].

(** Step 4, first loop: the implicants of the one-element lists. *)
Definition find_essential (coverage_table : dict) : pyset :=
  fold_left
    (fun essential (item : str * list str) =>
       match snd item with
       | [implicant] => set_add implicant essential
       | _ => essential
       end)
    coverage_table [].

(** The inner loop of step 4 and of step 5: delete the minterms that
    [implicant] covers, over a snapshot of the keys. *)
Definition remove_covered (implicant : str) (coverage_table : dict)
  : result dict :=
  for_each (dict_keys coverage_table)
    (fun minterm tbl =>
       c <- covers implicant minterm ;;
       if c then dict_del minterm tbl else Ok tbl)
    coverage_table.

(** [sum(self.covers(imp, m) for m in coverage_table)] *)
Fixpoint count_covered (imp : str) (keys : list str) : result nat :=
  match keys with
  | [] => Ok 0
  | m :: rest =>
      c <- covers imp m ;;
      n <- count_covered imp rest ;;
      Ok ((if c then 1 else 0) + n)
  end.

(** [max(l, key=key)]: the first element whose key is the largest. *)
Fixpoint max_from (key : str -> result nat) (best : str) (kbest : nat)
    (l : list str) : result str :=
  match l with
  | [] => Ok best
  | x :: rest =>
      kx <- key x ;;
      if kbest <? kx then max_from key x kx rest
      else max_from key best kbest rest
  end.

Definition py_max (l : list str) (key : str -> result nat) : result str :=
  match l with
  | [] => Raise ValueError
  | x :: rest => kx <- key x ;; max_from key x kx rest
  end.

(** Step 5: [while coverage_table: ...]; [fuel] bounds the number of passes. *)
Fixpoint greedy_loop (fuel : nat) (prime_implicants : pyset)
    (coverage_table : dict) (essential : pyset) : result pyset :=
  match coverage_table with
  | [] => Ok essential
  | _ :: _ =>
      match fuel with
      | 0 => OutOfFuel
      | S fuel' =>
          best_choice <-
            py_max (enum prime_implicants)
              (fun imp => count_covered imp (dict_keys coverage_table)) ;;
          tbl' <- remove_covered best_choice coverage_table ;;
          greedy_loop fuel' prime_implicants tbl' (set_add best_choice essential)
      end
  end.

(** Steps 1 and 2: the prime implicants. *)
Definition prime_implicants_of (fuel : nat) (self : QuineMcCluskey)
  : result pyset :=
  let binary_terms := minterms_to_binary self (all_terms self) in
  merge_loop fuel (set_of_list binary_terms) [].

(** Step 3 on the minterms of [self]. *)
Definition coverage_table_of (self : QuineMcCluskey) (prime_implicants : pyset)
  : result dict :=
  build_coverage_table prime_implicants
    (minterms_to_binary self (minterms self)).

(** Steps 4 and 5 and the final [sorted]. *)
Definition select_cover (fuel : nat) (prime_implicants : pyset)
    (coverage_table : dict) : result (list str) :=
  let essential := find_essential coverage_table in
  tbl <- for_each (enum essential) remove_covered coverage_table ;;
  chosen <- greedy_loop fuel prime_implicants tbl essential ;;
  Ok (sorted (enum chosen)).

Definition simplify (fuel : nat) (self : QuineMcCluskey)
  : result QuineMcCluskey :=
  prime_implicants <- prime_implicants_of fuel self ;;
  coverage_table <- coverage_table_of self prime_implicants ;;
  terms <- select_cover fuel prime_implicants coverage_table ;;
  Ok {| num_variables := num_variables self;
        minterms := minterms self;
        dont_cares := dont_cares self;
        all_terms := all_terms self;
        simplified_terms := terms |}.

(** What a caller reads after [qm = QuineMcCluskey(n, ms, dcs); qm.simplify()]:
    [qm.simplified_terms]. *)
Definition minimize (fuel : nat) (num_variables : nat)
    (minterms dont_cares : list Z) : result (list str) :=
  self <- simplify fuel (init num_variables minterms dont_cares) ;;
  Ok (simplified_terms self).

End Simplify.

(** Two enumerations, for running the model: the order of insertion and its
    reverse. *)
Definition enum_fwd (s : pyset) : list str := s.
Definition enum_rev (s : pyset) : list str := rev s.

(** Two more, which meet the elements of a set of strings with one wildcard
    each in sorted order, and those of any other set in the order of
    insertion, or in its reverse. *)
Definition one_wildcard_each (s : pyset) : bool :=
  forallb
    (fun t => length (filter (fun c => Ascii.eqb c dash) t) =? 1) s.

Definition enum_sorted_fwd (s : pyset) : list str :=
  if one_wildcard_each s then sorted s else s.

Definition enum_sorted_rev (s : pyset) : list str :=
  if one_wildcard_each s then sorted s else rev s.

(** * The reader, the writer and the driver

    The two I/O functions are modelled on the text they handle: the reader on
    the list of lines that [file.readlines()] returns, the writer on the text
    that its [file.write] calls put in the file, one after the other. The
    characters are the code points below 256. *)

(** ** String methods *)

Definition newline : ascii := "010"%char.
Definition space : ascii := " "%char.
Definition dot : ascii := "."%char.
Definition underscore : ascii := "_"%char.

(** [c.isspace()] on the code points below 256: tab to carriage return, the
    four separators 28 to 31, the space, NEL and the no-break space. *)
Definition is_space (c : ascii) : bool :=
  let n := nat_of_ascii c in
  ((9 <=? n) && (n <=? 13)) || ((28 <=? n) && (n <=? 32)) ||
  (n =? 133) || (n =? 160).

Fixpoint lstrip (s : str) : str :=
  match s with
  | [] => []
  | c :: rest => if is_space c then lstrip rest else s
  end.

Definition rstrip (s : str) : str := rev (lstrip (rev s)).

(** [s.strip()] *)
Definition strip (s : str) : str := rstrip (lstrip s).

(** [s.split()]: the maximal runs of characters that are not whitespace;
    [cur] holds, reversed, the run being read. *)
Fixpoint split_from (s : str) (cur : str) : list str :=
  match s with
  | [] => match cur with [] => [] | _ :: _ => [rev cur] end
  | c :: rest =>
      if is_space c
      then match cur with
           | [] => split_from rest []
           | _ :: _ => rev cur :: split_from rest []
           end
      else split_from rest (c :: cur)
  end.

Definition split (s : str) : list str := split_from s [].

(** [s.startswith(prefix)] *)
Fixpoint startswith (s prefix : str) : bool :=
  match prefix with
  | [] => true
  | p :: prefix' =>
      match s with
      | [] => false
      | c :: s' => Ascii.eqb c p && startswith s' prefix'
      end
  end.

(** [sep.join(l)] *)
Fixpoint join (sep : str) (l : list str) : str :=
  match l with
  | [] => []
  | [x] => x
  | x :: rest => x ++ sep ++ join sep rest
  end.

(** [str(n)] for a number that is not negative. *)
Fixpoint str_of_uint (d : Decimal.uint) : str :=
  match d with
  | Decimal.Nil => []
  | Decimal.D0 d => "0"%char :: str_of_uint d
  | Decimal.D1 d => "1"%char :: str_of_uint d
  | Decimal.D2 d => "2"%char :: str_of_uint d
  | Decimal.D3 d => "3"%char :: str_of_uint d
  | Decimal.D4 d => "4"%char :: str_of_uint d
  | Decimal.D5 d => "5"%char :: str_of_uint d
  | Decimal.D6 d => "6"%char :: str_of_uint d
  | Decimal.D7 d => "7"%char :: str_of_uint d
  | Decimal.D8 d => "8"%char :: str_of_uint d
  | Decimal.D9 d => "9"%char :: str_of_uint d
  end.

Definition str_of_nat (n : nat) : str := str_of_uint (Nat.to_uint n).

(** ** [int(s, 2)] *)

(** The whitespace [int] drops around a number: of the code points below 127
    the six of ASCII (tab to carriage return, and the space), and of the
    others NEL and the no-break space. The separators 28 to 31, which
    [str.strip] drops, are left in place and make the number ill-formed. *)
Definition int_is_space (c : ascii) : bool :=
  let n := nat_of_ascii c in
  ((9 <=? n) && (n <=? 13)) || (n =? 32) || (n =? 133) || (n =? 160).

Fixpoint int_lstrip (s : str) : str :=
  match s with
  | [] => []
  | c :: rest => if int_is_space c then int_lstrip rest else s
  end.

Definition int_strip (s : str) : str := rev (int_lstrip (rev (int_lstrip s))).

Definition is_bit (c : ascii) : bool := Ascii.eqb c zero || Ascii.eqb c one.

(** The digits, with single underscores between them; [prev_us] tells that the
    character before was an underscore. *)
Fixpoint int_digits (s : str) (prev_us : bool) (acc : Z) : result Z :=
  match s with
  | [] => if prev_us then Raise ValueError else Ok acc
  | c :: rest =>
      if is_bit c
      then int_digits rest false (2 * acc + (if Ascii.eqb c one then 1 else 0))%Z
      else if Ascii.eqb c underscore
           then if prev_us then Raise ValueError
                else int_digits rest true acc
           else Raise ValueError
  end.

(** After the sign: an optional ['0b'] or ['0B'], one optional underscore
    after it, and then at least one digit. *)
Definition int_unsigned (s : str) : result Z :=
  let body :=
    match s with
    | c0 :: c1 :: rest =>
        if Ascii.eqb c0 zero && (Ascii.eqb c1 "b"%char || Ascii.eqb c1 "B"%char)
        then match rest with
             | u :: rest' => if Ascii.eqb u underscore then rest' else rest
             | [] => rest
             end
        else s
    | _ => s
    end in
  match body with
  | c :: _ => if is_bit c then int_digits body false 0%Z else Raise ValueError
  | [] => Raise ValueError
  end.

(** [int(s, 2)]: whitespace around the number is dropped, one sign is
    allowed, and everything else must be the number. *)
Definition py_int2 (s : str) : result Z :=
  match int_strip s with
  | c :: rest =>
      if Ascii.eqb c "+"%char then int_unsigned rest
      else if Ascii.eqb c dash
           then z <- int_unsigned rest ;; Ok (- z)%Z
           else int_unsigned (c :: rest)
  | [] => Raise ValueError
  end.

(** ** [read_blif_file] *)

(** The three lists the loop updates: [variables], [minterms],
    [dont_cares]. *)
Definition blif_state : Type := (list str * list Z * list Z)%type.

(** The body of the loop over the lines. *)
Definition read_blif_line (line : str) (st : blif_state) : result blif_state :=
  let line := strip line in
  let '(variables, minterms, dont_cares) := st in
  if startswith line (lit ".inputs") then
    Ok (tl (split line), minterms, dont_cares)
  else if startswith line (lit ".names") then
    Ok st
  else if negb (match line with [] => true | _ :: _ => false end)
          && negb (startswith line (lit ".")) then
    match split line with
    | [inputs; output] =>
        if str_eqb output (lit "1") then
          z <- py_int2 inputs ;; Ok (variables, minterms ++ [z], dont_cares)
        else if str_eqb output (lit "-") then
          z <- py_int2 inputs ;; Ok (variables, minterms, dont_cares ++ [z])
        else Ok st
    | _ => Raise ValueError
    end
  else Ok st.

(** [read_blif_file], on the lines of the file: the number of variables, the
    minterms, the don't-cares and the variable names. *)
Definition read_blif_file (lines : list str)
  : result (nat * list Z * list Z * list str) :=
  '(variables, minterms, dont_cares) <-
     for_each lines read_blif_line ([], [], []) ;;
  Ok (length variables, minterms, dont_cares, variables).

(** ** [write_pla_file] *)

(** The text the calls of [file.write] leave in the file. *)
Definition write_pla_file (num_variables : nat) (variable_names : list str)
    (simplified_terms : list str) : str :=
  (lit ".i " ++ str_of_nat num_variables ++ [newline]) ++
  (lit ".o 1" ++ [newline]) ++
  (lit ".ilb " ++ join [space] variable_names ++ [newline]) ++
  (lit ".ob F" ++ [newline]) ++
  concat (map (fun term => term ++ lit " 1" ++ [newline]) simplified_terms) ++
  (lit ".e" ++ [newline]).

(** ** [quine_mccluskey_simplify] *)

Section Driver.

Variable enum : pyset -> list str.

(** The driver, from the lines of the input file to the text of the output
    file. *)
Definition quine_mccluskey_simplify (fuel : nat) (lines : list str)
  : result str :=
  '(num_variables, minterms, dont_cares, variable_names) <-
     read_blif_file lines ;;
  qm <- simplify enum fuel (init num_variables minterms dont_cares) ;;
  Ok (write_pla_file num_variables variable_names (simplified_terms qm)).

End Driver.

(** * Vocabulary of the statements and of the proofs

    None of the definitions below is part of the program; they name what the
    lemmas say about it. *)

(** ** Valid inputs

    The preconditions the specification states for a run: every index lies in
    [[0, 2^num_variables)] and no index is both a minterm and a don't-care.
    The code does not test them. *)

Definition index_ok (num_variables : nat) (z : Z) : bool :=
  ((0 <=? z) && (z <? 2 ^ Z.of_nat num_variables))%Z.

Definition in_range (num_variables : nat) (zs : list Z) : bool :=
  forallb (index_ok num_variables) zs.

Definition disjoint (ms dcs : list Z) : bool :=
  forallb (fun m => negb (existsb (Z.eqb m) dcs)) ms.

Definition valid_input (num_variables : nat) (ms dcs : list Z) : bool :=
  in_range num_variables ms && in_range num_variables dcs && disjoint ms dcs.

(** ** The string operations without their exceptions

    What [diff_count], [combine_binary_terms] and [covers] return when no
    index is out of range. *)

Fixpoint diffs (a b : str) : nat :=
  match a, b with
  | x :: a', y :: b' => (if Ascii.eqb x y then 0 else 1) + diffs a' b'
  | _, _ => 0
  end.

Fixpoint merged (a b : str) : str :=
  match a, b with
  | x :: a', y :: b' => (if Ascii.eqb x y then x else dash) :: merged a' b'
  | _, _ => []
  end.

Fixpoint matches (implicant minterm : str) : bool :=
  match implicant, minterm with
  | c :: i', m :: m' => (Ascii.eqb c dash || Ascii.eqb c m) && matches i' m'
  | _, _ => true
  end.

(** The test of the nested loops: two different strings that differ at one
    index. *)
Definition mergeable (a b : str) : bool :=
  negb (str_eqb a b) && (diffs a b =? 1).

(** [merge_pair] on two strings of one length. *)
Definition pair_step (term1 : str) (st : pyset * pyset) (term2 : str)
  : pyset * pyset :=
  if mergeable term1 term2
  then (set_add (merged term1 term2) (fst st),
        set_add term2 (set_add term1 (snd st)))
  else st.

(** A computation that ends normally or with an [IndexError]. *)
Definition ok_or_index {A : Type} (r : result A) : Prop :=
  (exists a, r = Ok a) \/ r = Raise IndexError.

(** ** Shapes of strings and of sets of strings *)

Definition is_dash (c : ascii) : bool := Ascii.eqb c dash.

(** The number of wildcards of a term. *)
Definition dashes (t : str) : nat := length (filter is_dash t).

(** A string over ['0'], ['1'] and ['-']. *)
Definition ternary (t : str) : Prop :=
  Forall (fun c => c = zero \/ c = one \/ c = dash) t.

(** A string over ['0'] and ['1']. *)
Definition binary (t : str) : Prop :=
  Forall (fun c => c = zero \/ c = one) t.

(** All the strings of [s] have length [L]. *)
Definition uniform (L : nat) (s : list str) : Prop :=
  forall t, In t s -> length t = L.

(** The strings of [s] have length [L] and [k] dashes each. *)
Definition level (L k : nat) (s : pyset) : Prop :=
  forall t, In t s -> length t = L /\ dashes t = k.

(** Two lists with the same elements. *)
Definition same_elements (a b : list str) : Prop :=
  forall x, In x a <-> In x b.

(** The strings of [l] have one length. *)
Definition same_length_all (l : list str) : bool :=
  match l with
  | [] => true
  | t :: rest => forallb (fun u => length u =? length t) rest
  end.

(** ** Encodings *)

(** The binary digits of a non-negative index, as [bin(z)[2:]] spells them. *)
Definition digits (z : Z) : str := skipn 2 (bin z).

(** The number a binary string spells. *)
Definition bin_value (s : str) : Z :=
  fold_left (fun v c => (2 * v + (if Ascii.eqb c one then 1 else 0))%Z) s 0%Z.

(** The length of the first encoding. *)
Definition encoded_width (n : nat) (zs : list Z) : nat :=
  match zs with
  | [] => 0
  | z :: _ => length (to_binary n z)
  end.

(** The property of the strings of a run on indices in range: over ['0'],
    ['1'], ['-'], of length [L], matching encoded input indices only. *)
Definition implicant_of (L : nat) (bts : list str) (t : str) : Prop :=
  length t = L /\ ternary t /\
  forall m, length m = L -> binary m -> matches t m = true -> In m bts.

(** A prime implicant of the function whose minterms and don't-cares are
    spelled [bts]: an implicant that no other implicant covers. *)
Definition prime_of (L : nat) (bts : list str) (p : str) : Prop :=
  implicant_of L bts p /\
  forall q, implicant_of L bts q -> covers q p = Ok true -> q = p.

(** [t] with its first wildcard replaced by [b]. *)
Fixpoint fill_first (b : ascii) (t : str) : str :=
  match t with
  | [] => []
  | c :: rest => if is_dash c then b :: rest else c :: fill_first b rest
  end.

Definition flip (c : ascii) : ascii := if Ascii.eqb c zero then one else zero.

(** [p] with its bit flipped at the first index where [q] has a wildcard and
    [p] has none. *)
Fixpoint flip_under (q p : str) : str :=
  match q, p with
  | x :: q', y :: p' =>
      if is_dash x && negb (is_dash y) then flip y :: p'
      else y :: flip_under q' p'
  | _, _ => p
  end.

(** ** Text

    What a well-formed BLIF table is made of, for the statements about the
    reader. *)

(** A string without whitespace. *)
Definition spaceless (s : str) : Prop := Forall (fun c => is_space c = false) s.

(** A field of a line: not empty, without whitespace. *)
Definition word (s : str) : Prop := s <> [] /\ spaceless s.

(** No whitespace at the start, at the end. *)
Definition starts_clean (s : str) : Prop :=
  match s with
  | [] => True
  | c :: _ => is_space c = false
  end.

Definition ends_clean (s : str) : Prop := starts_clean (rev s).

(** Fields separated by single spaces. *)
Definition fields_line (w0 : str) (ws : list str) : str :=
  w0 ++ concat (map (fun v => space :: v) ws).

(** A line of a BLIF file: the [.inputs] line, another line that starts with
    a dot, a row of the table, an empty line. *)
Inductive blif_item : Type :=
| Inputs (names : list str)
| Directive (text : str)
| Row (pattern output : str)
| Blank.

(** The line as a file holds it, with its newline. *)
Definition render_item (it : blif_item) : str :=
  match it with
  | Inputs names =>
      lit ".inputs" ++ concat (map (fun v => space :: v) names) ++ [newline]
  | Directive text => text ++ [newline]
  | Row pattern output => pattern ++ [space] ++ output ++ [newline]
  | Blank => [newline]
  end.

(** The names and the output are fields, the pattern is a non-empty string of
    ['0'] and ['1'], and a directive is a dot followed by fields separated by
    single spaces, the first of which does not begin with [inputs]. *)
Definition item_ok (it : blif_item) : Prop :=
  match it with
  | Inputs names => Forall word names
  | Directive text =>
      exists w ws,
        text = (dot :: w) ++ concat (map (fun v => space :: v) ws) /\
        spaceless w /\ Forall word ws /\
        startswith w (lit "inputs") = false
  | Row pattern output => binary pattern /\ pattern <> [] /\ word output
  | Blank => True
  end.

(** What the items say: the names of the last [.inputs] line, the values of
    the patterns of the rows with output ["1"], and of those with output
    ["-"]. *)
Definition item_step (st : blif_state) (it : blif_item) : blif_state :=
  let '(variables, minterms, dont_cares) := st in
  match it with
  | Inputs names => (names, minterms, dont_cares)
  | Row pattern output =>
      if str_eqb output (lit "1")
      then (variables, minterms ++ [bin_value pattern], dont_cares)
      else if str_eqb output (lit "-")
           then (variables, minterms, dont_cares ++ [bin_value pattern])
           else st
  | _ => st
  end.

Definition items_state (items : list blif_item) : blif_state :=
  fold_left item_step items ([], [], []).

(** A string without a newline. *)
Definition one_line (s : str) : Prop :=
  Forall (fun c => Ascii.eqb c newline = false) s.

(** The lines of a text, each ended by a newline. *)
Fixpoint text_lines_from (s : str) (cur : str) : list str :=
  match s with
  | [] => match cur with [] => [] | _ :: _ => [rev cur] end
  | c :: rest =>
      if Ascii.eqb c newline then rev cur :: text_lines_from rest []
      else text_lines_from rest (c :: cur)
  end.

Definition text_lines (s : str) : list str := text_lines_from s [].

(** ** Tables *)

(** The table of step 3 over a duplicate-free list of minterm strings. *)
Definition table_of (imps : list str) (keys : list str) : dict :=
  map (fun m => (m, filter (fun p => matches p m) imps)) keys.

(** The entries that [implicant] leaves in the table. *)
Definition keep (implicant : str) (item : str * list str) : bool :=
  negb (matches implicant (fst item)).

(** The entries that no implicant of [es] covers. *)
Definition keep_all (es : list str) (item : str * list str) : bool :=
  forallb (fun e => keep e item) es.

(** An entry whose list holds one implicant: step 4 takes it for essential. *)
Definition is_single (item : str * list str) : bool :=
  match snd item with
  | [_] => true
  | _ => false
  end.

(** ** The order of [sorted] *)

(** [a <= b] as [sorted] sees it: not [b < a]. *)
Definition str_le (a b : str) : Prop := str_ltb b a = false.

(** A list in which no element is smaller than an earlier one. *)
Inductive ascending : list str -> Prop :=
| ascending_nil : ascending []
| ascending_cons (x : str) (l : list str) :
    (forall y, In y l -> str_le x y) -> ascending l -> ascending (x :: l).

(** * Proofs *)

(** ** The result monad and [for] loops *)

Lemma bind_Ok {A B : Type} (r : result A) (k : A -> result B) (b : B) :
  bind r k = Ok b -> exists a, r = Ok a /\ k a = Ok b.
Proof.
  destruct r as [a| |]; simpl; intros H; try discriminate.
  exists a; split; [reflexivity | exact H].
Qed.

(** A loop whose body never raises on the elements it meets is a fold. *)
Lemma for_each_fold {A S : Type} (body : A -> S -> result S) (pure : S -> A -> S)
    (l : list A) :
  (forall x st, In x l -> body x st = Ok (pure st x)) ->
  forall st, for_each l body st = Ok (fold_left pure l st).
Proof.
  induction l as [|x l IH]; intros Hb st; simpl.
  - reflexivity.
  - rewrite (Hb x st (or_introl eq_refl)). simpl.
    apply IH. intros y st' Hy. apply Hb. right; exact Hy.
Qed.

(** The same with an invariant of the state. *)
Lemma for_each_fold_inv {A S : Type} (I : S -> Prop) (body : A -> S -> result S)
    (pure : S -> A -> S) (l : list A) :
  (forall x st, In x l -> I st -> body x st = Ok (pure st x) /\ I (pure st x)) ->
  forall st, I st -> for_each l body st = Ok (fold_left pure l st) /\
                     I (fold_left pure l st).
Proof.
  induction l as [|x l IH]; intros Hb st Hst; simpl.
  - split; [reflexivity | exact Hst].
  - destruct (Hb x st (or_introl eq_refl) Hst) as [E Hst'].
    rewrite E. simpl.
    apply IH; [|exact Hst'].
    intros y st' Hy. apply Hb. right; exact Hy.
Qed.

(** Membership in a list that a fold only ever adds to. *)
Lemma fold_left_collect {A S : Type} (proj : S -> list str) (step : S -> A -> S)
    (P : A -> str -> Prop) :
  (forall st a x, In x (proj (step st a)) <-> In x (proj st) \/ P a x) ->
  forall l st x,
    In x (proj (fold_left step l st)) <->
    In x (proj st) \/ exists a, In a l /\ P a x.
Proof.
  intros Hstep. induction l as [|a l IH]; intros st x; simpl.
  - split; [intros H; left; exact H | intros [H|[a [[] _]]]; exact H].
  - rewrite IH, Hstep. split.
    + intros [[H|H]|[b [Hb H]]].
      * left; exact H.
      * right; exists a; split; [left; reflexivity | exact H].
      * right; exists b; split; [right; exact Hb | exact H].
    + intros [H|[b [[->|Hb] H]]].
      * left; left; exact H.
      * left; right; exact H.
      * right; exists b; split; assumption.
Qed.

Lemma fold_left_invariant {A S : Type} (I : S -> Prop) (step : S -> A -> S) :
  (forall st a, I st -> I (step st a)) ->
  forall l st, I st -> I (fold_left step l st).
Proof.
  intros Hstep. induction l as [|a l IH]; intros st Hst; simpl.
  - exact Hst.
  - apply IH, Hstep, Hst.
Qed.

(** ** Strings and sets *)

Lemma str_eqb_eq (a b : str) : str_eqb a b = true <-> a = b.
Proof.
  revert b. induction a as [|x a IH]; intros [|y b]; simpl;
    try (split; [discriminate | discriminate]); try tauto.
  rewrite andb_true_iff, Ascii.eqb_eq, IH. split.
  - intros [-> ->]; reflexivity.
  - intros H; injection H; auto.
Qed.

Lemma str_eqb_refl (a : str) : str_eqb a a = true.
Proof. apply str_eqb_eq; reflexivity. Qed.

Lemma str_eqb_neq (a b : str) : str_eqb a b = false <-> a <> b.
Proof.
  rewrite <- str_eqb_eq. destruct (str_eqb a b); split; congruence.
Qed.

Lemma set_mem_In (x : str) (s : pyset) : set_mem x s = true <-> In x s.
Proof.
  unfold set_mem. rewrite existsb_exists. split.
  - intros [y [Hy E]]. apply str_eqb_eq in E. subst; exact Hy.
  - intros H. exists x. split; [exact H | apply str_eqb_refl].
Qed.

Lemma set_mem_not_In (x : str) (s : pyset) : set_mem x s = false <-> ~ In x s.
Proof.
  rewrite <- set_mem_In. destruct (set_mem x s); split; congruence.
Qed.

Lemma set_add_In (x y : str) (s : pyset) :
  In y (set_add x s) <-> In y s \/ y = x.
Proof.
  unfold set_add. destruct (set_mem x s) eqn:E.
  - apply set_mem_In in E. split; [auto | intros [H| ->]; assumption].
  - rewrite in_app_iff. simpl. intuition congruence.
Qed.

Lemma set_add_NoDup (x : str) (s : pyset) : NoDup s -> NoDup (set_add x s).
Proof.
  intros H. unfold set_add. destruct (set_mem x s) eqn:E; [exact H|].
  apply set_mem_not_In in E.
  apply NoDup_rev in H. rewrite <- (rev_involutive (s ++ [x])).
  apply NoDup_rev. rewrite rev_app_distr. simpl.
  constructor; [rewrite <- in_rev; exact E | exact H].
Qed.

Lemma set_of_list_In (l : list str) (x : str) : In x (set_of_list l) <-> In x l.
Proof.
  unfold set_of_list.
  rewrite (fold_left_collect (fun s => s) (fun s y => set_add y s)
             (fun a y => y = a)).
  - simpl. split.
    + intros [[]|[a [Ha ->]]]; exact Ha.
    + intros H; right; exists x; auto.
  - intros st a y. apply set_add_In.
Qed.

Lemma set_of_list_NoDup (l : list str) : NoDup (set_of_list l).
Proof.
  unfold set_of_list.
  apply (fold_left_invariant (fun s => NoDup s)).
  - intros st a. apply set_add_NoDup.
  - constructor.
Qed.

(** ** The string operations on strings of one length

    When the two strings have the same length no index is out of range, and
    the three fallible operations are [diffs], [merged] and [matches]. *)

Lemma diff_count_diffs (a b : str) :
  length a = length b -> diff_count a b = Ok (diffs a b).
Proof.
  revert b. induction a as [|x a IH]; intros [|y b] H; simpl in *;
    try discriminate; try reflexivity.
  rewrite IH by lia. simpl. destruct (Ascii.eqb x y); reflexivity.
Qed.

Lemma differs_by_one_bit_diffs (a b : str) :
  length a = length b -> differs_by_one_bit a b = Ok (diffs a b =? 1).
Proof.
  intros H. unfold differs_by_one_bit. rewrite diff_count_diffs by exact H.
  reflexivity.
Qed.

Lemma combine_binary_terms_merged (a b : str) :
  length a = length b -> combine_binary_terms a b = Ok (merged a b).
Proof.
  revert b. induction a as [|x a IH]; intros [|y b] H; simpl in *;
    try discriminate; try reflexivity.
  rewrite IH by lia. reflexivity.
Qed.

Lemma covers_matches (imp m : str) :
  length imp = length m -> covers imp m = Ok (matches imp m).
Proof.
  revert imp. induction m as [|y m IH]; intros [|c imp] H; simpl in *;
    try discriminate; try reflexivity.
  destruct (Ascii.eqb c dash || Ascii.eqb c y); simpl.
  - apply IH. lia.
  - reflexivity.
Qed.

Lemma merged_length (a b : str) :
  length a = length b -> length (merged a b) = length a.
Proof.
  revert b. induction a as [|x a IH]; intros [|y b] H; simpl in *;
    try discriminate; try reflexivity.
  rewrite IH by lia. reflexivity.
Qed.

Lemma merged_same (a : str) : merged a a = a.
Proof.
  induction a as [|x a IH]; simpl; [reflexivity|].
  rewrite Ascii.eqb_refl, IH. reflexivity.
Qed.

Lemma diffs_sym (a b : str) : diffs a b = diffs b a.
Proof.
  revert b. induction a as [|x a IH]; intros [|y b]; simpl; try reflexivity.
  rewrite (Ascii.eqb_sym x y), IH. reflexivity.
Qed.

Lemma diffs_zero (a b : str) :
  length a = length b -> diffs a b = 0 -> a = b.
Proof.
  revert b. induction a as [|x a IH]; intros [|y b] H D; simpl in *;
    try discriminate; try reflexivity.
  destruct (Ascii.eqb x y) eqn:E; [|discriminate].
  apply Ascii.eqb_eq in E. subst y. f_equal. apply IH; [lia | exact D].
Qed.

Lemma mergeable_sym (a b : str) : mergeable a b = mergeable b a.
Proof.
  unfold mergeable. rewrite (diffs_sym a b). f_equal. f_equal.
  destruct (str_eqb a b) eqn:E.
  - apply str_eqb_eq in E. subst. symmetry. apply str_eqb_refl.
  - symmetry. apply str_eqb_neq. apply str_eqb_neq in E. congruence.
Qed.

Lemma mergeable_diffs (a b : str) : mergeable a b = true -> diffs a b = 1.
Proof.
  unfold mergeable. rewrite andb_true_iff, Nat.eqb_eq. tauto.
Qed.

(** The merge of two strings matches whatever the first one matches. *)
Lemma matches_merged_l (a b : str) :
  length a = length b -> matches (merged a b) a = true.
Proof.
  revert b. induction a as [|x a IH]; intros [|y b] H; simpl in *;
    try discriminate; try reflexivity.
  rewrite IH by lia. destruct (Ascii.eqb x y).
  - rewrite Ascii.eqb_refl, orb_true_r. reflexivity.
  - reflexivity.
Qed.

Lemma matches_refl (a : str) : matches a a = true.
Proof.
  induction a as [|x a IH]; simpl; [reflexivity|].
  rewrite Ascii.eqb_refl, orb_true_r, IH. reflexivity.
Qed.

Lemma matches_trans (c t m : str) :
  length c = length t -> length t = length m ->
  matches c t = true -> matches t m = true -> matches c m = true.
Proof.
  revert t m. induction c as [|x c IH]; intros [|y t] [|z m] H1 H2;
    simpl in *; try discriminate; try reflexivity.
  rewrite !andb_true_iff. intros [Hx Hc] [Hy Ht]. split.
  - apply orb_true_iff in Hx. apply orb_true_iff.
    destruct Hx as [Hx|Hx]; [left; exact Hx|].
    apply Ascii.eqb_eq in Hx. subst y. apply orb_true_iff in Hy. exact Hy.
  - apply (IH t m); try lia; assumption.
Qed.

(** A merge of two strings that differ at one index only matches binary
    strings that one of the two matches. *)
Lemma matches_merged_split (a b m : str) :
  length a = length b -> length a = length m ->
  ternary a -> ternary b -> binary m ->
  diffs a b = 1 -> matches (merged a b) m = true ->
  matches a m = true \/ matches b m = true.
Proof.
  revert b m. induction a as [|x a IH]; intros [|y b] [|z m] H1 H2 Ta Tb Bm;
    simpl in *; try discriminate.
  inversion Ta as [|? ? Tx Ta']; inversion Tb as [|? ? Ty Tb'];
    inversion Bm as [|? ? Bz Bm']; subst.
  destruct (Ascii.eqb x y) eqn:E.
  - apply Ascii.eqb_eq in E. subst y. simpl. intros D.
    rewrite andb_true_iff. intros [Hh Hr].
    destruct (IH b m) as [Hm|Hm]; try lia; try assumption.
    + left. rewrite Hh, Hm. reflexivity.
    + right. rewrite Hh, Hm. reflexivity.
  - simpl. intros D. assert (D0 : diffs a b = 0) by lia.
    apply diffs_zero in D0; [|lia]. subst b.
    rewrite merged_same. intros Hr. rewrite Hr.
    apply Ascii.eqb_neq in E.
    unfold zero, one, dash in *.
    destruct Tx as [->|[->| ->]]; destruct Ty as [->|[->| ->]];
      destruct Bz as [->| ->]; simpl; try (left; reflexivity);
      try (right; reflexivity); congruence.
Qed.

Lemma merged_ternary (a b : str) : ternary a -> ternary (merged a b).
Proof.
  revert b. induction a as [|x a IH]; intros [|y b] Ta; simpl;
    try constructor.
  - inversion Ta; subst.
    destruct (Ascii.eqb x y); [assumption | right; right; reflexivity].
  - apply IH. inversion Ta; assumption.
Qed.

(** Two strings with as many dashes each that differ at one index merge into
    a string with one dash more. *)
Lemma merged_dashes (a b : str) :
  length a = length b -> diffs a b = 1 -> dashes a = dashes b ->
  dashes (merged a b) = S (dashes a).
Proof.
  unfold dashes, is_dash.
  revert b. induction a as [|x a IH]; intros [|y b] H; simpl in *;
    try discriminate.
  destruct (Ascii.eqb x y) eqn:E.
  - apply Ascii.eqb_eq in E. subst y. simpl. intros D Hd.
    destruct (Ascii.eqb x dash); simpl in *.
    + f_equal. apply IH; lia.
    + apply IH; lia.
  - simpl. intros D Hd. assert (D0 : diffs a b = 0) by lia.
    apply diffs_zero in D0; [|lia]. subst b.
    rewrite merged_same. simpl.
    apply Ascii.eqb_neq in E.
    destruct (Ascii.eqb x dash) eqn:Ex; destruct (Ascii.eqb y dash) eqn:Ey;
      simpl in *; try lia.
    apply Ascii.eqb_eq in Ex, Ey. congruence.
Qed.

Lemma dashes_le_length (t : str) : dashes t <= length t.
Proof. unfold dashes. apply filter_length_le. Qed.

(** A string made of dashes only is determined by its length. *)
Lemma all_dashes_eq (a b : str) :
  length a = length b -> dashes a = length a -> dashes b = length b -> a = b.
Proof.
  unfold dashes, is_dash.
  revert b. induction a as [|x a IH]; intros [|y b] H Ha Hb; simpl in *;
    try discriminate; try reflexivity.
  pose proof (filter_length_le (fun c => Ascii.eqb c dash) a).
  pose proof (filter_length_le (fun c => Ascii.eqb c dash) b).
  destruct (Ascii.eqb x dash) eqn:Ex; simpl in Ha; [|lia].
  destruct (Ascii.eqb y dash) eqn:Ey; simpl in Hb; [|lia].
  apply Ascii.eqb_eq in Ex, Ey. subst. f_equal. apply IH; lia.
Qed.

(** ** One pass of the merging loop *)

Lemma merge_pair_step (t1 t2 : str) (st : pyset * pyset) :
  length t1 = length t2 -> merge_pair t1 t2 st = Ok (pair_step t1 st t2).
Proof.
  intros H. unfold merge_pair, pair_step, mergeable. destruct st as [c u].
  destruct (str_eqb t1 t2); simpl; [reflexivity|].
  rewrite differs_by_one_bit_diffs by exact H. simpl.
  destruct (diffs t1 t2 =? 1); [|reflexivity].
  rewrite combine_binary_terms_merged by exact H. reflexivity.
Qed.

Lemma nested_collect (proj : pyset * pyset -> list str)
    (P : str -> str -> str -> Prop) :
  (forall t1 st t2 x,
      In x (proj (pair_step t1 st t2)) <-> In x (proj st) \/ P t1 t2 x) ->
  forall l1 l2 st x,
    In x (proj (fold_left (fun st t1 => fold_left (pair_step t1) l2 st) l1 st))
    <-> In x (proj st) \/ exists t1 t2, In t1 l1 /\ In t2 l2 /\ P t1 t2 x.
Proof.
  intros Hstep l1 l2 st x.
  rewrite (fold_left_collect proj _
             (fun t1 x => exists t2, In t2 l2 /\ P t1 t2 x)).
  - split; intros [H|H]; try (left; exact H); right.
    + destruct H as [t1 [H1 [t2 [H2 H]]]]. exists t1, t2. auto.
    + destruct H as [t1 [t2 [H1 [H2 H]]]]. exists t1. split; [exact H1|].
      exists t2. auto.
  - intros st' t1 y.
    apply (fold_left_collect proj (pair_step t1) (fun t2 x => P t1 t2 x)).
    intros st'' t2 z. apply Hstep.
Qed.

Lemma pair_step_fst (t1 : str) (st : pyset * pyset) (t2 x : str) :
  In x (fst (pair_step t1 st t2)) <->
  In x (fst st) \/ (mergeable t1 t2 = true /\ x = merged t1 t2).
Proof.
  unfold pair_step. destruct (mergeable t1 t2); simpl.
  - rewrite set_add_In. intuition.
  - intuition discriminate.
Qed.

Lemma pair_step_snd (t1 : str) (st : pyset * pyset) (t2 x : str) :
  In x (snd (pair_step t1 st t2)) <->
  In x (snd st) \/ (mergeable t1 t2 = true /\ (x = t1 \/ x = t2)).
Proof.
  unfold pair_step. destruct (mergeable t1 t2); simpl.
  - rewrite !set_add_In. intuition.
  - intuition discriminate.
Qed.

Lemma pair_step_NoDup (t1 : str) (st : pyset * pyset) (t2 : str) :
  NoDup (fst st) /\ NoDup (snd st) ->
  NoDup (fst (pair_step t1 st t2)) /\ NoDup (snd (pair_step t1 st t2)).
Proof.
  intros [H1 H2]. unfold pair_step. destruct (mergeable t1 t2); simpl.
  - split; repeat apply set_add_NoDup; assumption.
  - split; assumption.
Qed.

Section Rounds.

Variable enum : pyset -> list str.
Hypothesis enum_perm : forall s, Permutation (enum s) s.

Lemma enum_In (s : pyset) (x : str) : In x (enum s) <-> In x s.
Proof.
  split; apply Permutation_in; [apply enum_perm |].
  apply Permutation_sym, enum_perm.
Qed.

Lemma enum_NoDup (s : pyset) : NoDup s -> NoDup (enum s).
Proof.
  apply Permutation_NoDup, Permutation_sym, enum_perm.
Qed.

(** What one pass computes when the working set holds strings of one length:
    the merges of the mergeable pairs, and the strings with no partner. *)
Lemma merge_round_spec (L : nat) (terms pis : pyset) :
  uniform L terms ->
  exists combined pis',
    merge_round enum terms pis = Ok (combined, pis') /\
    (forall c, In c combined <->
               exists t1 t2, In t1 terms /\ In t2 terms /\
                             mergeable t1 t2 = true /\ c = merged t1 t2) /\
    (forall p, In p pis' <->
               In p pis \/
               (In p terms /\ forall t2, In t2 terms -> mergeable p t2 = false)) /\
    NoDup combined /\ (NoDup pis -> NoDup pis').
Proof.
  intros U. unfold merge_round.
  set (l := enum terms).
  assert (Ul : forall t, In t l -> length t = L).
  { intros t Ht. apply U. apply enum_In. exact Ht. }
  rewrite (for_each_fold _ (fun st t1 => fold_left (pair_step t1) l st)).
  2:{ intros t1 st H1. apply for_each_fold. intros t2 st' H2.
      apply merge_pair_step. rewrite (Ul t1), (Ul t2); auto. }
  set (cu := fold_left (fun st t1 => fold_left (pair_step t1) l st) l
              (([], []) : pyset * pyset)).
  assert (Hc : forall c, In c (fst cu) <->
             exists t1 t2, In t1 terms /\ In t2 terms /\
                           mergeable t1 t2 = true /\ c = merged t1 t2).
  { intros c. unfold cu. rewrite (nested_collect fst _ pair_step_fst). simpl.
    split.
    - intros [[]|[t1 [t2 [H1 [H2 H]]]]]. exists t1, t2.
      apply (proj1 (enum_In _ _)) in H1. apply (proj1 (enum_In _ _)) in H2.
      auto.
    - intros [t1 [t2 [H1 [H2 H]]]]. right. exists t1, t2.
      apply (proj2 (enum_In _ _)) in H1. apply (proj2 (enum_In _ _)) in H2.
      auto. }
  assert (Hu : forall t, In t (snd cu) <->
             exists t1 t2, In t1 terms /\ In t2 terms /\
                           mergeable t1 t2 = true /\ (t = t1 \/ t = t2)).
  { intros c. unfold cu. rewrite (nested_collect snd _ pair_step_snd). simpl.
    split.
    - intros [[]|[t1 [t2 [H1 [H2 H]]]]]. exists t1, t2.
      apply (proj1 (enum_In _ _)) in H1. apply (proj1 (enum_In _ _)) in H2.
      auto.
    - intros [t1 [t2 [H1 [H2 H]]]]. right. exists t1, t2.
      apply (proj2 (enum_In _ _)) in H1. apply (proj2 (enum_In _ _)) in H2.
      auto. }
  assert (Hnd : NoDup (fst cu) /\ NoDup (snd cu)).
  { unfold cu.
    apply (fold_left_invariant
             (fun st : pyset * pyset => NoDup (fst st) /\ NoDup (snd st))).
    - intros st t1 Hst.
      apply (fold_left_invariant
               (fun st : pyset * pyset => NoDup (fst st) /\ NoDup (snd st)));
        [|exact Hst].
      intros st' t2. apply pair_step_NoDup.
    - simpl. split; constructor. }
  clearbody cu. destruct cu as [combined used]. simpl in *.
  eexists _, _. split; [reflexivity|]. split; [exact Hc|].
  split; [|split; [exact (proj1 Hnd)|]].
  - intros p.
    rewrite (fold_left_collect (fun s : pyset => s) _
               (fun term x => set_mem term used = false /\ x = term)).
    2:{ intros st a x. destruct (set_mem a used).
        - intuition discriminate.
        - rewrite set_add_In. intuition. }
    split.
    + intros [H|[a [Ha [Hm ->]]]]; [left; exact H|]. right.
      apply (proj1 (enum_In _ _)) in Ha. split; [exact Ha|].
      intros t2 H2. destruct (mergeable a t2) eqn:E; [|reflexivity].
      exfalso. apply set_mem_not_In in Hm. apply Hm. apply Hu.
      exists a, t2. auto.
    + intros [H|[Hp Hn]]; [left; exact H|]. right. exists p.
      split; [apply (proj2 (enum_In _ _)); exact Hp|]. split; [|reflexivity].
      apply set_mem_not_In. intros Hin. apply Hu in Hin.
      destruct Hin as [t1 [t2 [H1 [H2 [Hm [->| ->]]]]]].
      * rewrite (Hn t2 H2) in Hm. discriminate.
      * rewrite mergeable_sym, (Hn t1 H1) in Hm. discriminate.
  - intros Hp.
    apply (fold_left_invariant (fun s : pyset => NoDup s)); [|exact Hp].
    intros st a Hst. destruct (set_mem a used); [exact Hst|].
    apply set_add_NoDup. exact Hst.
Qed.

(** ** The merging loop *)

Lemma level_uniform (L k : nat) (s : pyset) : level L k s -> uniform L s.
Proof. intros H t Ht. apply (H t Ht). Qed.

Lemma has_partner (t : str) (terms : pyset) :
  (exists t2, In t2 terms /\ mergeable t t2 = true) \/
  (forall t2, In t2 terms -> mergeable t t2 = false).
Proof.
  destruct (existsb (mergeable t) terms) eqn:E.
  - left. apply existsb_exists in E. exact E.
  - right. intros t2 H2. destruct (mergeable t t2) eqn:E2; [|reflexivity].
    assert (existsb (mergeable t) terms = true)
      by (apply existsb_exists; exists t2; auto).
    congruence.
Qed.

Lemma at_most_one (l : list str) (a b : str) :
  length l <= 1 -> In a l -> In b l -> a = b.
Proof.
  destruct l as [|x [|y l]]; simpl; intros H Ha Hb.
  - destruct Ha.
  - destruct Ha as [Ha|[]]. destruct Hb as [Hb|[]]. congruence.
  - lia.
Qed.

Lemma mergeable_irrefl (a : str) : mergeable a a = false.
Proof. unfold mergeable. rewrite str_eqb_refl. reflexivity. Qed.

(** The loop ends within [L + 1 - k] passes when it starts from strings of
    length [L] with [k] dashes each, and within one pass when it starts from
    a single string; it keeps every property [Q] of the strings that merging
    keeps, and what it returns matches every string it met. *)
Lemma merge_loop_spec (L : nat) (Q : str -> Prop) :
  (forall t1 t2, Q t1 -> Q t2 -> length t1 = length t2 ->
                 mergeable t1 t2 = true -> Q (merged t1 t2)) ->
  forall fuel k terms pis,
    level L k terms ->
    L + 1 <= fuel + k \/ (length terms <= 1 /\ (terms <> [] -> 1 <= fuel)) ->
    uniform L pis ->
    (forall t, In t terms -> Q t) -> (forall p, In p pis -> Q p) ->
    NoDup pis ->
    exists pis',
      merge_loop enum fuel terms pis = Ok pis' /\
      uniform L pis' /\ (forall p, In p pis' -> Q p) /\ NoDup pis' /\
      (forall t, In t terms \/ In t pis ->
                 exists p, In p pis' /\ matches p t = true).
Proof.
  intros HQ. induction fuel as [|fuel IH]; intros k terms pis Hl Hf Up Qt Qp Np.
  - destruct terms as [|t terms].
    + exists pis. simpl. repeat split; try assumption.
      intros t [[]|H]. exists t. split; [exact H | apply matches_refl].
    + exfalso. destruct (Hl t (or_introl eq_refl)) as [H1 H2].
      pose proof (dashes_le_length t).
      destruct Hf as [Hf|[_ Hf]]; [lia|].
      specialize (Hf ltac:(discriminate)). lia.
  - destruct terms as [|t0 terms0] eqn:Et.
    + exists pis. simpl. repeat split; try assumption.
      intros t [[]|H]. exists t. split; [exact H | apply matches_refl].
    + assert (Hne : terms <> []) by (rewrite Et; discriminate).
      rewrite <- Et in *. clear Et t0 terms0.
      destruct (merge_round_spec L terms pis (level_uniform _ _ _ Hl))
        as [combined [pis1 [E [Hc [Hp [Nc Np1]]]]]].
      assert (Hl1 : level L (S k) combined).
      { intros c Hin. apply Hc in Hin.
        destruct Hin as [t1 [t2 [H1 [H2 [Hm ->]]]]].
        destruct (Hl t1 H1) as [L1 D1]. destruct (Hl t2 H2) as [L2 D2].
        split.
        - rewrite merged_length; congruence.
        - rewrite merged_dashes; try congruence.
          apply mergeable_diffs. exact Hm. }
      assert (Up1 : uniform L pis1).
      { intros p Hin. apply Hp in Hin. destruct Hin as [H|[H _]].
        - apply Up; exact H.
        - apply (Hl p H). }
      assert (Qc : forall c, In c combined -> Q c).
      { intros c Hin. apply Hc in Hin.
        destruct Hin as [t1 [t2 [H1 [H2 [Hm ->]]]]].
        apply HQ; auto.
        rewrite (proj1 (Hl t1 H1)), (proj1 (Hl t2 H2)). reflexivity. }
      assert (Qp1 : forall p, In p pis1 -> Q p).
      { intros p Hin. apply Hp in Hin. destruct Hin as [H|[H _]]; auto. }
      assert (Hf1 : L + 1 <= fuel + S k \/
                    (length combined <= 1 /\ (combined <> [] -> 1 <= fuel))).
      { destruct Hf as [Hf|[Hf _]]; [left; lia | right].
        assert (Hnil : combined = []).
        { destruct combined as [|c combined']; [reflexivity|]. exfalso.
          destruct (proj1 (Hc c) (or_introl eq_refl))
            as [t1 [t2 [H1 [H2 [Hm _]]]]].
          rewrite (at_most_one terms t1 t2 Hf H1 H2), mergeable_irrefl in Hm.
          discriminate. }
        rewrite Hnil. simpl. split; [lia | congruence]. }
      destruct (IH (S k) combined pis1 Hl1 Hf1 Up1 Qc Qp1 (Np1 Np))
        as [pis' [E' [Up' [Qp' [Np' Hcov]]]]].
      exists pis'. split.
      { destruct terms; [congruence|].
        cbn [merge_loop]. rewrite E. simpl. exact E'. }
      repeat split; try assumption.
      intros t [Ht|Ht].
      * destruct (has_partner t terms) as [[t2 [H2 Hm]]|Hn].
        -- destruct (Hcov (merged t t2)) as [p [Hin Hmt]].
           { left. apply Hc. exists t, t2. auto. }
           exists p. split; [exact Hin|].
           assert (Lt : length t = L) by apply (Hl t Ht).
           assert (Lt2 : length t2 = L) by apply (Hl t2 H2).
           apply (matches_trans p (merged t t2) t).
           ++ rewrite (Up' p Hin), merged_length; congruence.
           ++ rewrite merged_length; congruence.
           ++ exact Hmt.
           ++ apply matches_merged_l. congruence.
        -- apply Hcov. right. apply Hp. right. auto.
      * apply Hcov. right. apply Hp. left. exact Ht.
Qed.

End Rounds.

(** ** The encoding of an index *)

Lemma pos_digits_app (p : positive) (acc : str) :
  pos_digits p acc = pos_digits p [] ++ acc.
Proof.
  revert acc. induction p as [q IH|q IH|]; intros acc; simpl.
  - rewrite (IH (one :: acc)), (IH [one]), <- app_assoc. reflexivity.
  - rewrite (IH (zero :: acc)), (IH [zero]), <- app_assoc. reflexivity.
  - reflexivity.
Qed.

Lemma pos_digits_head (p : positive) (acc : str) :
  exists r, pos_digits p acc = one :: r.
Proof.
  revert acc. induction p as [q IH|q IH|]; intros acc; simpl.
  - apply IH.
  - apply IH.
  - exists acc. reflexivity.
Qed.

Lemma pos_digits_binary (p : positive) (acc : str) :
  binary acc -> binary (pos_digits p acc).
Proof.
  revert acc. induction p as [q IH|q IH|]; intros acc H; simpl.
  - apply IH. constructor; [right; reflexivity | exact H].
  - apply IH. constructor; [left; reflexivity | exact H].
  - constructor; [right; reflexivity | exact H].
Qed.

Lemma pos_digits_length (p : positive) (acc : str) :
  length (pos_digits p acc) = Pos.size_nat p + length acc.
Proof.
  revert acc. induction p as [q IH|q IH|]; intros acc; simpl.
  - rewrite IH. simpl. lia.
  - rewrite IH. simpl. lia.
  - reflexivity.
Qed.

Lemma size_nat_bound (p : positive) (n : nat) :
  (Zpos p < 2 ^ Z.of_nat n)%Z -> Pos.size_nat p <= n.
Proof.
  revert n. induction p as [q IH|q IH|]; intros [|n] H; simpl.
  - simpl in H. lia.
  - rewrite Nat2Z.inj_succ, Z.pow_succ_r in H by lia.
    apply le_n_S, IH. lia.
  - simpl in H. lia.
  - rewrite Nat2Z.inj_succ, Z.pow_succ_r in H by lia.
    apply le_n_S, IH. lia.
  - simpl in H. lia.
  - lia.
Qed.

Lemma zfill_digits (n : nat) (z : Z) :
  (0 <= z)%Z ->
  to_binary n z = repeat zero (n - length (digits z)) ++ digits z.
Proof.
  intros Hz. unfold to_binary. fold (digits z).
  destruct z as [|p|p]; [reflexivity| |lia].
  unfold digits. simpl.
  destruct (pos_digits_head p []) as [r ->]. reflexivity.
Qed.

Lemma repeat_zero_binary (k : nat) : binary (repeat zero k).
Proof.
  induction k; simpl; constructor; [left; reflexivity | assumption].
Qed.

Lemma digits_binary (z : Z) : (0 <= z)%Z -> binary (digits z).
Proof.
  intros Hz. destruct z as [|p|p]; [| |lia].
  - constructor; [left; reflexivity | constructor].
  - unfold digits. simpl. apply pos_digits_binary. constructor.
Qed.

Lemma to_binary_binary (n : nat) (z : Z) :
  (0 <= z)%Z -> binary (to_binary n z).
Proof.
  intros Hz. rewrite zfill_digits by exact Hz.
  apply Forall_app. split; [apply repeat_zero_binary | apply digits_binary].
  exact Hz.
Qed.

(** An index in range is spelled on [num_variables] characters, and on one
    character when there is no variable. *)
Lemma to_binary_length (n : nat) (z : Z) :
  (0 <= z < 2 ^ Z.of_nat n)%Z -> length (to_binary n z) = Nat.max n 1.
Proof.
  intros [Hz Hlt]. rewrite zfill_digits by exact Hz.
  rewrite length_app, repeat_length.
  destruct z as [|p|p]; [| |lia].
  - simpl. lia.
  - unfold digits. simpl. rewrite pos_digits_length. simpl.
    pose proof (size_nat_bound p n Hlt).
    assert (1 <= Pos.size_nat p) by (destruct p; simpl; lia).
    lia.
Qed.

Lemma bin_value_snoc (s : str) (c : ascii) :
  bin_value (s ++ [c]) =
  (2 * bin_value s + (if Ascii.eqb c one then 1 else 0))%Z.
Proof. unfold bin_value. rewrite fold_left_app. reflexivity. Qed.

Lemma bin_value_digits (p : positive) : bin_value (pos_digits p []) = Zpos p.
Proof.
  induction p as [q IH|q IH|].
  - cbn [pos_digits]. rewrite pos_digits_app, bin_value_snoc, IH.
    reflexivity.
  - cbn [pos_digits]. rewrite pos_digits_app, bin_value_snoc, IH.
    reflexivity.
  - reflexivity.
Qed.

Lemma bin_value_to_binary (n : nat) (z : Z) :
  (0 <= z)%Z -> bin_value (to_binary n z) = z.
Proof.
  intros Hz. rewrite zfill_digits by exact Hz.
  unfold bin_value. rewrite fold_left_app.
  assert (E : forall k, fold_left
            (fun v c => (2 * v + (if Ascii.eqb c one then 1 else 0))%Z)
            (repeat zero k) 0%Z = 0%Z).
  { induction k; simpl; [reflexivity | exact IHk]. }
  rewrite E. destruct z as [|p|p]; [reflexivity| |lia].
  unfold digits. simpl. apply bin_value_digits.
Qed.

Lemma to_binary_inj (n : nat) (z1 z2 : Z) :
  (0 <= z1)%Z -> (0 <= z2)%Z -> to_binary n z1 = to_binary n z2 -> z1 = z2.
Proof.
  intros H1 H2 E.
  rewrite <- (bin_value_to_binary n z1 H1), <- (bin_value_to_binary n z2 H2), E.
  reflexivity.
Qed.

Lemma binary_ternary (t : str) : binary t -> ternary t.
Proof.
  apply Forall_impl. intros c [H|H]; [left | right; left]; exact H.
Qed.

Lemma binary_dashes (t : str) : binary t -> dashes t = 0.
Proof.
  unfold dashes, is_dash. induction 1 as [|c t Hc Ht IH]; simpl; [reflexivity|].
  destruct Hc as [-> | ->]; simpl; exact IH.
Qed.

Lemma dashes_app (a b : str) : dashes (a ++ b) = dashes a + dashes b.
Proof. unfold dashes. rewrite filter_app, length_app. reflexivity. Qed.

(** No encoding has a dash, also that of an index out of range. *)
Lemma to_binary_dashes (n : nat) (z : Z) : dashes (to_binary n z) = 0.
Proof.
  destruct z as [|p|p].
  - apply binary_dashes, to_binary_binary. lia.
  - apply binary_dashes, to_binary_binary. lia.
  - unfold to_binary. simpl. rewrite dashes_app.
    rewrite (binary_dashes _ (repeat_zero_binary _)).
    change ("b"%char :: pos_digits p []) with (["b"%char] ++ pos_digits p []).
    rewrite dashes_app.
    rewrite (binary_dashes (pos_digits p [])); [reflexivity|].
    apply pos_digits_binary. constructor.
Qed.

(** ** The coverage table *)

Lemma covering_filter (imps : list str) (m : str) :
  (forall p, In p imps -> length p = length m) ->
  covering imps m = Ok (filter (fun p => matches p m) imps).
Proof.
  induction imps as [|p imps IH]; intros H; simpl; [reflexivity|].
  rewrite covers_matches by (apply H; left; reflexivity). simpl.
  rewrite IH by (intros q Hq; apply H; right; exact Hq). reflexivity.
Qed.

Lemma dict_set_table_of (imps : list str) (m : str) (keys : pyset) :
  dict_set m (filter (fun p => matches p m) imps) (table_of imps keys) =
  table_of imps (set_add m keys).
Proof.
  unfold set_add, table_of. induction keys as [|k keys IH]; simpl.
  - reflexivity.
  - destruct (str_eqb m k) eqn:E; simpl.
    + apply str_eqb_eq in E. subst k. reflexivity.
    + fold (set_mem m keys). rewrite IH.
      destruct (set_mem m keys); reflexivity.
Qed.

Lemma dict_keys_table_of (imps keys : list str) :
  dict_keys (table_of imps keys) = keys.
Proof.
  unfold dict_keys, table_of. rewrite map_map. simpl. apply map_id.
Qed.

Lemma dict_get_table_of (imps keys : list str) (m : str) :
  In m keys ->
  dict_get m (table_of imps keys) = Some (filter (fun p => matches p m) imps).
Proof.
  unfold table_of. induction keys as [|k keys IH]; intros H; simpl.
  - destruct H.
  - destruct (str_eqb m k) eqn:E.
    + apply str_eqb_eq in E. subst k. reflexivity.
    + apply IH. destruct H as [H|H]; [|exact H].
      apply str_eqb_neq in E. congruence.
Qed.

Lemma dict_get_In (d : dict) (m : str) (v : list str) :
  dict_get m d = Some v -> In (m, v) d.
Proof.
  induction d as [|[k w] d IH]; simpl; [discriminate|].
  destruct (str_eqb m k) eqn:E.
  - apply str_eqb_eq in E. subst k. intros H; injection H as ->. left.
    reflexivity.
  - intros H. right. apply IH. exact H.
Qed.

(** ** Deleting the covered minterms *)

Lemma dict_del_app (k : str) (v : list str) (done rest : dict) :
  ~ In k (dict_keys done) ->
  dict_del k (done ++ (k, v) :: rest) = Ok (done ++ rest).
Proof.
  induction done as [|[k' v'] done IH]; intros H; simpl.
  - rewrite str_eqb_refl. reflexivity.
  - simpl in H. destruct (str_eqb k k') eqn:E.
    + apply str_eqb_eq in E. subst k'. tauto.
    + rewrite IH by tauto. reflexivity.
Qed.

Lemma remove_covered_from (implicant : str) (rest done : dict) :
  NoDup (dict_keys (done ++ rest)) ->
  (forall k, In k (dict_keys rest) -> length implicant = length k) ->
  for_each (dict_keys rest)
    (fun minterm tbl =>
       c <- covers implicant minterm ;;
       if c then dict_del minterm tbl else Ok tbl)
    (done ++ rest)
  = Ok (done ++ filter (keep implicant) rest).
Proof.
  revert done. induction rest as [|[k v] rest IH]; intros done Hnd Hl; simpl.
  - reflexivity.
  - rewrite covers_matches by (apply Hl; left; reflexivity). simpl.
    unfold keep at 1. simpl. destruct (matches implicant k); simpl.
    + rewrite dict_del_app.
      2:{ unfold dict_keys in Hnd. rewrite map_app in Hnd. simpl in Hnd.
          apply NoDup_remove_2 in Hnd. intros Hin. apply Hnd.
          apply in_or_app. left. exact Hin. }
      simpl. apply IH.
      * unfold dict_keys in *. rewrite map_app in *. simpl in Hnd.
        apply NoDup_remove_1 in Hnd. exact Hnd.
      * intros k' Hk'. apply Hl. right. exact Hk'.
    + specialize (IH (done ++ [(k, v)])).
      rewrite <- !app_assoc in IH. simpl in IH. apply IH.
      * exact Hnd.
      * intros k' Hk'. apply Hl. right. exact Hk'.
Qed.

Lemma remove_covered_filter (implicant : str) (tbl : dict) :
  NoDup (dict_keys tbl) ->
  (forall k, In k (dict_keys tbl) -> length implicant = length k) ->
  remove_covered implicant tbl = Ok (filter (keep implicant) tbl).
Proof.
  intros Hnd Hl. apply (remove_covered_from implicant tbl []); assumption.
Qed.

Lemma dict_keys_filter_In (f : str * list str -> bool) (tbl : dict) (k : str) :
  In k (dict_keys (filter f tbl)) -> In k (dict_keys tbl).
Proof.
  unfold dict_keys. rewrite !in_map_iff. intros [kv [E H]].
  apply filter_In in H. exists kv. tauto.
Qed.

Lemma dict_keys_filter_NoDup (f : str * list str -> bool) (tbl : dict) :
  NoDup (dict_keys tbl) -> NoDup (dict_keys (filter f tbl)).
Proof.
  unfold dict_keys. induction tbl as [|kv tbl IH]; simpl; intros H.
  - constructor.
  - inversion H as [|? ? Hn Hr]; subst. destruct (f kv); simpl.
    + constructor; [|apply IH; exact Hr].
      intros Hin. apply Hn. apply (dict_keys_filter_In f). exact Hin.
    + apply IH. exact Hr.
Qed.

Lemma remove_all_filter (L : nat) (es : list str) :
  uniform L es ->
  forall tbl,
    NoDup (dict_keys tbl) -> uniform L (dict_keys tbl) ->
    for_each es remove_covered tbl = Ok (filter (keep_all es) tbl).
Proof.
  intros Ue. induction es as [|e es IH]; intros tbl Hnd Ut; simpl.
  - unfold keep_all. simpl. rewrite filter_true. reflexivity.
  - rewrite remove_covered_filter; [|exact Hnd|].
    2:{ intros k Hk. rewrite (Ut k Hk). apply Ue. left. reflexivity. }
    simpl. rewrite IH.
    + f_equal. clear. induction tbl as [|kv tbl IHt]; simpl; [reflexivity|].
      unfold keep_all at 2. simpl. fold (keep_all es kv).
      destruct (keep e kv); simpl.
      * destruct (keep_all es kv); rewrite IHt; reflexivity.
      * exact IHt.
    + intros p Hp. apply Ue. right. exact Hp.
    + apply dict_keys_filter_NoDup. exact Hnd.
    + intros k Hk. apply Ut. apply (dict_keys_filter_In _ _ _ Hk).
Qed.

(** ** [max] and the greedy choice *)

Lemma count_covered_filter (imp : str) (keys : list str) :
  (forall k, In k keys -> length imp = length k) ->
  count_covered imp keys = Ok (length (filter (matches imp) keys)).
Proof.
  induction keys as [|k keys IH]; intros H; simpl; [reflexivity|].
  rewrite covers_matches by (apply H; left; reflexivity). simpl.
  rewrite IH by (intros k' Hk'; apply H; right; exact Hk'). simpl.
  destruct (matches imp k); reflexivity.
Qed.

Lemma max_from_spec (key : str -> result nat) (k : str -> nat) (l : list str) :
  (forall x, In x l -> key x = Ok (k x)) ->
  forall best,
    exists b, max_from key best (k best) l = Ok b /\
              (b = best \/ In b l) /\ k best <= k b /\
              (forall x, In x l -> k x <= k b).
Proof.
  induction l as [|y l IH]; intros Hk best; simpl.
  - exists best. repeat split; auto. intros x [].
  - rewrite (Hk y (or_introl eq_refl)). simpl.
    assert (Hk' : forall x, In x l -> key x = Ok (k x))
      by (intros x Hx; apply Hk; right; exact Hx).
    destruct (k best <? k y) eqn:E.
    + apply Nat.ltb_lt in E. destruct (IH Hk' y) as [b [E1 [E2 [E3 E4]]]].
      exists b. split; [exact E1|]. split; [|split].
      * right. destruct E2 as [->|H]; [left; reflexivity | right; exact H].
      * lia.
      * intros x [<-|Hx]; [exact E3 | apply E4; exact Hx].
    + apply Nat.ltb_ge in E. destruct (IH Hk' best) as [b [E1 [E2 [E3 E4]]]].
      exists b. split; [exact E1|]. split; [|split].
      * destruct E2 as [->|H]; [left; reflexivity | right; right; exact H].
      * exact E3.
      * intros x [<-|Hx]; [lia | apply E4; exact Hx].
Qed.

Lemma py_max_spec (key : str -> result nat) (k : str -> nat) (l : list str) :
  l <> [] -> (forall x, In x l -> key x = Ok (k x)) ->
  exists b, py_max l key = Ok b /\ In b l /\ (forall x, In x l -> k x <= k b).
Proof.
  destruct l as [|y l]; intros Hne Hk; [congruence|]. simpl.
  rewrite (Hk y (or_introl eq_refl)). simpl.
  destruct (max_from_spec key k l) with (best := y) as [b [E1 [E2 [E3 E4]]]].
  { intros x Hx. apply Hk. right. exact Hx. }
  exists b. split; [exact E1|]. split.
  - destruct E2 as [->|H]; [left; reflexivity | right; exact H].
  - intros x [<-|Hx]; [exact E3 | apply E4; exact Hx].
Qed.

(** ** [sorted] *)

Lemma sorted_insert_perm (x : str) (l : list str) :
  Permutation (sorted_insert x l) (x :: l).
Proof.
  induction l as [|y l IH]; simpl; [apply Permutation_refl|].
  destruct (str_ltb y x).
  - apply perm_trans with (y :: x :: l); [|apply perm_swap].
    apply perm_skip. exact IH.
  - apply Permutation_refl.
Qed.

Lemma sorted_perm (l : list str) : Permutation (sorted l) l.
Proof.
  induction l as [|x l IH]; simpl; [apply perm_nil|].
  apply perm_trans with (x :: sorted l); [apply sorted_insert_perm|].
  apply perm_skip. exact IH.
Qed.

Lemma sorted_In (l : list str) (x : str) : In x (sorted l) <-> In x l.
Proof.
  split; apply Permutation_in; [apply sorted_perm |].
  apply Permutation_sym, sorted_perm.
Qed.

(** ** Selecting the cover *)

Lemma set_of_list_length (l : list str) : length (set_of_list l) <= length l.
Proof.
  unfold set_of_list.
  assert (H : forall s, length (fold_left (fun s x => set_add x s) l s)
                        <= length s + length l).
  { induction l as [|x l IH]; intros s; simpl; [lia|].
    specialize (IH (set_add x s)). unfold set_add in *.
    destruct (set_mem x s); [lia|]. rewrite length_app in IH. simpl in IH.
    lia. }
  apply (H []).
Qed.

Lemma find_essential_In (tbl : dict) (e : str) :
  In e (find_essential tbl) <-> exists m, In (m, [e]) tbl.
Proof.
  unfold find_essential.
  rewrite (fold_left_collect (fun s : pyset => s) _
             (fun (item : str * list str) x => snd item = [x])).
  - simpl. split.
    + intros [[]|[[m v] [Hin Hv]]]. simpl in Hv. subst v. exists m. exact Hin.
    + intros [m Hin]. right. exists (m, [e]). split; [exact Hin | reflexivity].
  - intros st [m v] x. simpl. destruct v as [|i [|j v]].
    + intuition discriminate.
    + rewrite set_add_In. split.
      * intros [H| ->]; [left; exact H | right; reflexivity].
      * intros [H|H]; [left; exact H | right; congruence].
    + intuition discriminate.
Qed.

Lemma find_essential_NoDup (tbl : dict) : NoDup (find_essential tbl).
Proof.
  unfold find_essential.
  apply (fold_left_invariant (fun s : pyset => NoDup s)); [|constructor].
  intros st [m v] Hst. simpl. destruct v as [|i [|j v]]; try exact Hst.
  apply set_add_NoDup. exact Hst.
Qed.

Lemma dict_keys_split (f : str * list str -> bool) (tbl : dict) (m : str) :
  In m (dict_keys tbl) ->
  In m (dict_keys (filter f tbl)) \/
  exists v, In (m, v) tbl /\ f (m, v) = false.
Proof.
  unfold dict_keys. rewrite in_map_iff. intros [[k v] [E H]]. simpl in E.
  subst k. destruct (f (m, v)) eqn:Ef.
  - left. apply in_map_iff. exists (m, v). split; [reflexivity|].
    apply filter_In. auto.
  - right. exists v. auto.
Qed.

Lemma count_keys (imp : str) (tbl : dict) :
  length (filter (matches imp) (dict_keys tbl)) +
  length (filter (keep imp) tbl) = length tbl.
Proof.
  unfold dict_keys, keep.
  induction tbl as [|[k v] tbl IH]; simpl; [reflexivity|].
  destruct (matches imp k); simpl; lia.
Qed.

Section Cover.

Variable enum : pyset -> list str.
Hypothesis enum_perm : forall s, Permutation (enum s) s.

Lemma build_coverage_table_spec (L : nat) (pis : pyset) (mbs : list str) :
  uniform L pis -> uniform L mbs ->
  build_coverage_table enum pis mbs
  = Ok (table_of (enum pis) (set_of_list mbs)).
Proof.
  intros Up Um. unfold build_coverage_table.
  rewrite (for_each_fold _
             (fun tbl m =>
                dict_set m (filter (fun p => matches p m) (enum pis)) tbl)).
  - f_equal. unfold set_of_list.
    change (@nil (str * list str)) with (table_of (enum pis) []).
    generalize (@nil str) as s.
    induction mbs as [|m mbs IH]; intros s; simpl; [reflexivity|].
    rewrite dict_set_table_of. apply IH.
    intros t Ht. apply Um. right. exact Ht.
  - intros m tbl Hm. rewrite covering_filter; [reflexivity|].
    intros p Hp. apply (proj1 (enum_In enum enum_perm _ _)) in Hp.
    rewrite (Up p Hp), (Um m Hm). reflexivity.
Qed.

(** The greedy loop ends within as many passes as the table has entries when
    every entry has an implicant that covers it; what it returns extends
    [essential] with prime implicants and covers every entry. *)
Lemma greedy_loop_spec (L : nat) (pis : pyset) :
  uniform L pis ->
  forall fuel tbl ess,
    length tbl <= fuel ->
    NoDup (dict_keys tbl) -> uniform L (dict_keys tbl) ->
    (forall m, In m (dict_keys tbl) ->
               exists p, In p pis /\ matches p m = true) ->
    NoDup ess ->
    exists ess',
      greedy_loop enum fuel pis tbl ess = Ok ess' /\ NoDup ess' /\
      (forall e, In e ess -> In e ess') /\
      (forall e, In e ess' -> In e ess \/ In e pis) /\
      (forall m, In m (dict_keys tbl) ->
                 exists e, In e ess' /\ matches e m = true).
Proof.
  intros Up. induction fuel as [|fuel IH]; intros tbl ess Hf Hnd Ut Hcov Hne.
  - destruct tbl; [|simpl in Hf; lia].
    exists ess. simpl. repeat split; auto. intros m [].
  - destruct tbl as [|kv0 tbl0] eqn:Et.
    + exists ess. simpl. repeat split; auto. intros m [].
    + rewrite <- Et in *.
      assert (Hk0 : In (fst kv0) (dict_keys tbl))
        by (rewrite Et; left; reflexivity).
      destruct (Hcov _ Hk0) as [p0 [Hp0 Hm0]].
      destruct (py_max_spec
                  (fun imp => count_covered imp (dict_keys tbl))
                  (fun imp => length (filter (matches imp) (dict_keys tbl)))
                  (enum pis))
        as [best [Eb [Hb Hmax]]].
      { intros Hnil. apply (proj2 (enum_In enum enum_perm _ _)) in Hp0.
        rewrite Hnil in Hp0. destruct Hp0. }
      { intros x Hx. apply count_covered_filter. intros k Hk.
        apply (proj1 (enum_In enum enum_perm _ _)) in Hx.
        rewrite (Up x Hx), (Ut k Hk). reflexivity. }
      apply (proj1 (enum_In enum enum_perm _ _)) in Hb.
      assert (Hpos : 1 <= length (filter (matches best) (dict_keys tbl))).
      { apply Nat.le_trans
          with (length (filter (matches p0) (dict_keys tbl))).
        - assert (Hin : In (fst kv0) (filter (matches p0) (dict_keys tbl)))
            by (apply filter_In; auto).
          destruct (filter (matches p0) (dict_keys tbl)); [destruct Hin|].
          simpl. lia.
        - apply Hmax. apply (proj2 (enum_In enum enum_perm _ _)). exact Hp0. }
      pose proof (count_keys best tbl) as Hcount.
      destruct (IH (filter (keep best) tbl) (set_add best ess))
        as [ess' [E' [Hnd' [Hsub [Hfrom Hcov']]]]].
      * rewrite Et in Hf. rewrite Et in Hcount at 3. simpl in Hf, Hcount. lia.
      * apply dict_keys_filter_NoDup. exact Hnd.
      * intros k Hk. apply Ut. apply (dict_keys_filter_In _ _ _ Hk).
      * intros m Hm. apply Hcov. apply (dict_keys_filter_In _ _ _ Hm).
      * apply set_add_NoDup. exact Hne.
      * exists ess'. split.
        { rewrite Et. cbn [greedy_loop]. rewrite <- Et. rewrite Eb. simpl.
          rewrite remove_covered_filter; [simpl; exact E' | exact Hnd |].
          intros k Hk. rewrite (Up best Hb), (Ut k Hk). reflexivity. }
        split; [exact Hnd'|]. split; [|split].
        -- intros e He. apply Hsub. apply set_add_In. left. exact He.
        -- intros e He. destruct (Hfrom e He) as [H|H]; [|right; exact H].
           apply set_add_In in H. destruct H as [H| ->]; [left; exact H|].
           right. exact Hb.
        -- intros m Hm.
           destruct (dict_keys_split (keep best) tbl m Hm) as [H|[v [Hin Hk]]].
           ++ apply Hcov'. exact H.
           ++ exists best. split.
              ** apply Hsub. apply set_add_In. right. reflexivity.
              ** unfold keep in Hk. simpl in Hk.
                 destruct (matches best m); [reflexivity | discriminate].
Qed.

End Cover.

(** ** Indices in range *)

Lemma in_range_spec (n : nat) (zs : list Z) (z : Z) :
  in_range n zs = true -> In z zs -> (0 <= z < 2 ^ Z.of_nat n)%Z.
Proof.
  unfold in_range, index_ok. rewrite forallb_forall. intros H Hz.
  specialize (H z Hz). apply andb_true_iff in H. destruct H as [H1 H2].
  apply Z.leb_le in H1. apply Z.ltb_lt in H2. lia.
Qed.

Lemma in_range_app (n : nat) (ms dcs : list Z) :
  in_range n (ms ++ dcs) = in_range n ms && in_range n dcs.
Proof. unfold in_range. apply forallb_app. Qed.

Lemma valid_input_in_range (n : nat) (ms dcs : list Z) :
  valid_input n ms dcs = true -> in_range n (ms ++ dcs) = true.
Proof.
  unfold valid_input. rewrite in_range_app, andb_true_iff. tauto.
Qed.

Lemma matches_binary_eq (t m : str) :
  binary t -> length t = length m -> matches t m = true -> t = m.
Proof.
  intros Bt. revert m. induction Bt as [|c t Hc Bt IH]; intros [|y m] Hl;
    simpl in *; try discriminate; try reflexivity.
  rewrite andb_true_iff. intros [Hh Hr].
  assert (Hd : Ascii.eqb c dash = false)
    by (destruct Hc as [-> | ->]; reflexivity).
  rewrite Hd in Hh. simpl in Hh. apply Ascii.eqb_eq in Hh. subst y.
  f_equal. apply IH; [lia | exact Hr].
Qed.

Lemma keep_all_false (es : list str) (item : str * list str) :
  keep_all es item = false ->
  exists e, In e es /\ matches e (fst item) = true.
Proof.
  unfold keep_all. induction es as [|e es IH]; simpl; [discriminate|].
  unfold keep at 1. destruct (matches e (fst item)) eqn:E; simpl.
  - intros _. exists e. auto.
  - intros H. destruct (IH H) as [e' [He' Hm]]. exists e'. auto.
Qed.

Lemma all_equal_short (l : list str) (a : str) :
  NoDup l -> (forall x, In x l -> x = a) -> length l <= 1.
Proof.
  intros Hnd Ha. destruct l as [|x [|y l]]; simpl; try lia.
  exfalso. inversion Hnd as [|? ? Hn _]; subst. apply Hn.
  rewrite (Ha x), <- (Ha y); simpl; auto.
Qed.

Section Run.

Variable enum : pyset -> list str.
Hypothesis enum_perm : forall s, Permutation (enum s) s.

(** Steps 4 and 5 on a table with duplicate-free keys whose lists hold
    implicants that cover the key, none of them empty. *)
Lemma select_cover_spec (L fuel : nat) (pis : pyset) (tbl : dict) :
  uniform L pis ->
  NoDup (dict_keys tbl) -> uniform L (dict_keys tbl) ->
  (forall m, In m (dict_keys tbl) -> exists p, In p pis /\ matches p m = true) ->
  (forall m v e, In (m, v) tbl -> In e v -> In e pis) ->
  length tbl <= fuel ->
  exists chosen,
    select_cover enum fuel pis tbl = Ok (sorted (enum chosen)) /\
    NoDup chosen /\
    (forall e, In e chosen -> In e pis) /\
    (forall e, In e (find_essential tbl) -> In e chosen) /\
    (forall m, In m (dict_keys tbl) ->
               exists e, In e chosen /\ matches e m = true).
Proof.
  intros Up Hnd Ut Hcov Hval Hf. unfold select_cover.
  set (ess := find_essential tbl).
  assert (Hess : forall e, In e ess -> In e pis).
  { intros e He. apply find_essential_In in He. destruct He as [m Hin].
    apply (Hval m [e] e Hin). left. reflexivity. }
  assert (Ue : uniform L (enum ess)).
  { intros e He. apply (proj1 (enum_In enum enum_perm _ _)) in He.
    apply Up, Hess, He. }
  rewrite (remove_all_filter L (enum ess) Ue tbl Hnd Ut). simpl.
  destruct (greedy_loop_spec enum enum_perm L pis Up fuel
              (filter (keep_all (enum ess)) tbl) ess)
    as [chosen [E [Hndc [Hsub [Hfrom Hcov']]]]].
  - pose proof (filter_length_le (keep_all (enum ess)) tbl). lia.
  - apply dict_keys_filter_NoDup. exact Hnd.
  - intros k Hk. apply Ut. apply (dict_keys_filter_In _ _ _ Hk).
  - intros m Hm. apply Hcov. apply (dict_keys_filter_In _ _ _ Hm).
  - apply find_essential_NoDup.
  - exists chosen. rewrite E. simpl. split; [reflexivity|].
    split; [exact Hndc|]. split; [|split].
    + intros e He. destruct (Hfrom e He) as [H|H]; [apply Hess|]; exact H.
    + exact Hsub.
    + intros m Hm.
      destruct (dict_keys_split (keep_all (enum ess)) tbl m Hm)
        as [H|[v [Hin Hk]]].
      * apply Hcov'. exact H.
      * apply keep_all_false in Hk. destruct Hk as [e [He Hme]].
        exists e. split; [|exact Hme].
        apply Hsub. apply (proj1 (enum_In enum enum_perm _ _)). exact He.
Qed.

(** Steps 1 and 2 on indices whose encodings have one length [L]: the
    loop ends within [L + 1] passes (one pass when the working set is a single
    string); the prime implicants have length [L] and every property [Q] of
    the encodings that merging keeps, and every encoded input index is
    matched by one of them. *)
Lemma prime_implicants_gen (L : nat) (Q : str -> Prop) (n fuel : nat)
    (ms dcs : list Z) :
  (forall t1 t2, Q t1 -> Q t2 -> length t1 = length t2 ->
                 mergeable t1 t2 = true -> Q (merged t1 t2)) ->
  (forall z, In z (ms ++ dcs) ->
             length (to_binary n z) = L /\ Q (to_binary n z)) ->
  L + 1 <= fuel \/
  (length (set_of_list (map (to_binary n) (ms ++ dcs))) <= 1 /\ 1 <= fuel) ->
  exists pis,
    prime_implicants_of enum fuel (init n ms dcs) = Ok pis /\
    NoDup pis /\ uniform L pis /\ (forall p, In p pis -> Q p) /\
    (forall t, In t (map (to_binary n) (ms ++ dcs)) ->
               exists p, In p pis /\ matches p t = true).
Proof.
  intros HQ Hb Hf. unfold prime_implicants_of, minterms_to_binary. simpl.
  set (bts := map (to_binary n) (ms ++ dcs)) in *.
  assert (Hb' : forall t, In t bts ->
                  length t = L /\ Q t /\ dashes t = 0).
  { intros t Ht. apply in_map_iff in Ht. destruct Ht as [z [<- Hz]].
    destruct (Hb z Hz) as [H1 H2]. repeat split; try assumption.
    apply to_binary_dashes. }
  destruct (merge_loop_spec enum enum_perm L Q HQ fuel 0 (set_of_list bts) [])
    as [pis [E [Up [Qp [Np Hcov]]]]].
  - intros t Ht. apply (proj1 (set_of_list_In _ _)) in Ht.
    destruct (Hb' t Ht) as [H1 [_ H2]]. auto.
  - destruct Hf as [Hf|[Hf1 Hf2]]; [left; lia | right]. auto.
  - intros t [].
  - intros t Ht. apply (proj1 (set_of_list_In _ _)) in Ht. apply (Hb' t Ht).
  - intros p [].
  - constructor.
  - exists pis. repeat split; try assumption.
    intros t Ht. apply Hcov. left. apply (proj2 (set_of_list_In _ _)).
    exact Ht.
Qed.

Lemma implicant_of_merged (L : nat) (bts : list str) (t1 t2 : str) :
  implicant_of L bts t1 -> implicant_of L bts t2 ->
  length t1 = length t2 -> mergeable t1 t2 = true ->
  implicant_of L bts (merged t1 t2).
Proof.
  intros [L1 [T1 X1]] [L2 [T2 X2]] Hl Hm. split; [|split].
  - rewrite merged_length; assumption.
  - apply merged_ternary. exact T1.
  - intros m Lm Bm Hmm.
    destruct (matches_merged_split t1 t2 m) as [H|H]; try congruence.
    + apply mergeable_diffs. exact Hm.
    + apply X1; assumption.
    + apply X2; assumption.
Qed.

Lemma in_range_encoding (n : nat) (zs : list Z) (z : Z) :
  in_range n zs = true -> In z zs ->
  length (to_binary n z) = Nat.max n 1 /\
  implicant_of (Nat.max n 1) (map (to_binary n) zs) (to_binary n z).
Proof.
  intros Hr Hz. pose proof (in_range_spec n zs z Hr Hz) as Hz'.
  assert (Hl : length (to_binary n z) = Nat.max n 1)
    by (apply to_binary_length; exact Hz').
  assert (Hb : binary (to_binary n z)) by (apply to_binary_binary; lia).
  split; [exact Hl|]. split; [exact Hl|].
  split; [apply binary_ternary; exact Hb|].
  intros m Lm Bm Hmm.
  rewrite <- (matches_binary_eq (to_binary n z) m Hb);
    [apply in_map; exact Hz | congruence | exact Hmm].
Qed.

Lemma in_range_fuel (n fuel : nat) (zs : list Z) :
  in_range n zs = true -> n + 1 <= fuel ->
  Nat.max n 1 + 1 <= fuel \/
  (length (set_of_list (map (to_binary n) zs)) <= 1 /\ 1 <= fuel).
Proof.
  intros Hr Hf. destruct n as [|n']; [right | left; lia].
  split; [|lia].
  apply (all_equal_short _ (to_binary 0 0)); [apply set_of_list_NoDup|].
  intros x Hx. apply (proj1 (set_of_list_In _ _)) in Hx.
  apply in_map_iff in Hx. destruct Hx as [z [<- Hz]].
  pose proof (in_range_spec 0 _ z Hr Hz) as Hz'. simpl in Hz'.
  replace z with 0%Z by lia. reflexivity.
Qed.

(** Steps 1 and 2 on indices in range: the loop ends within
    [num_variables + 1] passes; its prime implicants are strings over
    ['0'], ['1'], ['-'] of one length that match encoded input indices only,
    and every encoded input index is matched by one of them. *)
Lemma prime_implicants_spec (n fuel : nat) (ms dcs : list Z) :
  in_range n (ms ++ dcs) = true -> n + 1 <= fuel ->
  exists pis,
    prime_implicants_of enum fuel (init n ms dcs) = Ok pis /\
    NoDup pis /\ uniform (Nat.max n 1) pis /\
    (forall p, In p pis ->
       implicant_of (Nat.max n 1) (map (to_binary n) (ms ++ dcs)) p) /\
    (forall t, In t (map (to_binary n) (ms ++ dcs)) ->
               exists p, In p pis /\ matches p t = true).
Proof.
  intros Hr Hf.
  apply prime_implicants_gen.
  - apply implicant_of_merged.
  - intros z Hz. apply in_range_encoding; assumption.
  - apply in_range_fuel; assumption.
Qed.

(** A whole run on indices whose encodings have one length. *)
Lemma run_gen (L : nat) (Q : str -> Prop) (n fuel : nat) (ms dcs : list Z) :
  (forall t1 t2, Q t1 -> Q t2 -> length t1 = length t2 ->
                 mergeable t1 t2 = true -> Q (merged t1 t2)) ->
  (forall z, In z (ms ++ dcs) ->
             length (to_binary n z) = L /\ Q (to_binary n z)) ->
  L + 1 <= fuel \/
  (length (set_of_list (map (to_binary n) (ms ++ dcs))) <= 1 /\ 1 <= fuel) ->
  length ms <= fuel ->
  exists pis chosen,
    prime_implicants_of enum fuel (init n ms dcs) = Ok pis /\
    coverage_table_of enum (init n ms dcs) pis
      = Ok (table_of (enum pis) (set_of_list (map (to_binary n) ms))) /\
    minimize enum fuel n ms dcs = Ok (sorted (enum chosen)) /\
    (NoDup pis /\ uniform L pis /\ (forall p, In p pis -> Q p)) /\
    NoDup chosen /\
    (forall e, In e chosen -> In e pis) /\
    (forall e,
        In e (find_essential
                (table_of (enum pis) (set_of_list (map (to_binary n) ms)))) ->
        In e chosen) /\
    (forall z, In z ms ->
               exists e, In e chosen /\ matches e (to_binary n z) = true).
Proof.
  intros HQ Hb Hf Hfm.
  destruct (prime_implicants_gen L Q n fuel ms dcs HQ Hb Hf)
    as [pis [E [Np [Up [Hp Hcov]]]]].
  set (mbs := map (to_binary n) ms).
  assert (Um : uniform L mbs).
  { intros t Ht. apply in_map_iff in Ht. destruct Ht as [z [<- Hz]].
    apply Hb. apply in_or_app. left. exact Hz. }
  assert (Et : coverage_table_of enum (init n ms dcs) pis
               = Ok (table_of (enum pis) (set_of_list mbs))).
  { unfold coverage_table_of, minterms_to_binary. simpl.
    apply (build_coverage_table_spec enum enum_perm L); assumption. }
  destruct (select_cover_spec L fuel pis
              (table_of (enum pis) (set_of_list mbs)))
    as [chosen [Es [Nc [Hsub [Hess Hall]]]]].
  - exact Up.
  - rewrite dict_keys_table_of. apply set_of_list_NoDup.
  - rewrite dict_keys_table_of. intros t Ht.
    apply (proj1 (set_of_list_In _ _)) in Ht. apply Um. exact Ht.
  - rewrite dict_keys_table_of. intros m Hm.
    apply (proj1 (set_of_list_In _ _)) in Hm. apply Hcov.
    unfold mbs in Hm. apply in_map_iff in Hm. destruct Hm as [z [<- Hz]].
    apply in_map. apply in_or_app. left. exact Hz.
  - intros m v e Hin He. unfold table_of in Hin. apply in_map_iff in Hin.
    destruct Hin as [m' [Heq _]]. injection Heq as _ <-.
    apply filter_In in He. apply (proj1 (enum_In enum enum_perm _ _)).
    apply He.
  - unfold table_of. rewrite length_map.
    pose proof (set_of_list_length mbs). unfold mbs in *.
    rewrite length_map in *. lia.
  - exists pis, chosen. split; [exact E|]. split; [exact Et|]. split.
    { unfold minimize, simplify. rewrite E. simpl. rewrite Et. simpl.
      rewrite Es. reflexivity. }
    split; [auto|]. split; [exact Nc|]. split; [exact Hsub|].
    split; [exact Hess|].
    intros z Hz. apply Hall. rewrite dict_keys_table_of.
    apply (proj2 (set_of_list_In _ _)). apply in_map. exact Hz.
Qed.

(** A whole run on indices in range. *)
Lemma run_spec (n fuel : nat) (ms dcs : list Z) :
  in_range n (ms ++ dcs) = true -> n + 1 + length ms <= fuel ->
  exists pis chosen,
    prime_implicants_of enum fuel (init n ms dcs) = Ok pis /\
    coverage_table_of enum (init n ms dcs) pis
      = Ok (table_of (enum pis) (set_of_list (map (to_binary n) ms))) /\
    minimize enum fuel n ms dcs = Ok (sorted (enum chosen)) /\
    (NoDup pis /\ uniform (Nat.max n 1) pis /\
     (forall p, In p pis ->
        implicant_of (Nat.max n 1) (map (to_binary n) (ms ++ dcs)) p)) /\
    NoDup chosen /\
    (forall e, In e chosen -> In e pis) /\
    (forall e,
        In e (find_essential
                (table_of (enum pis) (set_of_list (map (to_binary n) ms)))) ->
        In e chosen) /\
    (forall z, In z ms ->
               exists e, In e chosen /\ matches e (to_binary n z) = true).
Proof.
  intros Hr Hf. apply run_gen.
  - apply implicant_of_merged.
  - intros z Hz. apply in_range_encoding; assumption.
  - apply in_range_fuel; [exact Hr | lia].
  - lia.
Qed.

End Run.

(** ** The two enumerations are enumerations *)

Lemma enum_fwd_perm (s : pyset) : Permutation (enum_fwd s) s.
Proof. apply Permutation_refl. Qed.

Lemma enum_rev_perm (s : pyset) : Permutation (enum_rev s) s.
Proof. apply Permutation_sym, Permutation_rev. Qed.

Lemma enum_sorted_fwd_perm (s : pyset) : Permutation (enum_sorted_fwd s) s.
Proof.
  unfold enum_sorted_fwd. destruct (one_wildcard_each s).
  - apply sorted_perm.
  - apply Permutation_refl.
Qed.

Lemma enum_sorted_rev_perm (s : pyset) : Permutation (enum_sorted_rev s) s.
Proof.
  unfold enum_sorted_rev. destruct (one_wildcard_each s).
  - apply sorted_perm.
  - apply Permutation_sym, Permutation_rev.
Qed.

(** ** The order of [sorted] *)

Lemma N_of_ascii_inj (x y : ascii) : N_of_ascii x = N_of_ascii y -> x = y.
Proof.
  intros H. rewrite <- (ascii_N_embedding x), <- (ascii_N_embedding y), H.
  reflexivity.
Qed.

Lemma str_ltb_asym (a b : str) : str_ltb a b = true -> str_ltb b a = false.
Proof.
  revert b. induction a as [|x a IH]; intros [|y b]; simpl;
    try discriminate; try reflexivity.
  unfold Ascii.compare.
  destruct (N.compare_spec (N_of_ascii x) (N_of_ascii y)) as [E|E|E];
    destruct (N.compare_spec (N_of_ascii y) (N_of_ascii x)) as [E'|E'|E'];
    try lia; try discriminate; try reflexivity.
  apply IH.
Qed.

Lemma str_le_antisym (a b : str) : str_le a b -> str_le b a -> a = b.
Proof.
  unfold str_le. revert b. induction a as [|x a IH]; intros [|y b]; simpl;
    try discriminate; try reflexivity.
  unfold Ascii.compare.
  destruct (N.compare_spec (N_of_ascii x) (N_of_ascii y)) as [E|E|E];
    destruct (N.compare_spec (N_of_ascii y) (N_of_ascii x)) as [E'|E'|E'];
    try lia; try discriminate.
  intros H1 H2. apply N_of_ascii_inj in E. subst y. f_equal.
  apply IH; assumption.
Qed.

Lemma str_le_trans (a b c : str) : str_le a b -> str_le b c -> str_le a c.
Proof.
  unfold str_le. revert b c.
  induction a as [|x a IH]; intros [|y b] [|z c]; simpl;
    try discriminate; try reflexivity.
  unfold Ascii.compare.
  destruct (N.compare_spec (N_of_ascii y) (N_of_ascii x)) as [E|E|E];
    destruct (N.compare_spec (N_of_ascii z) (N_of_ascii y)) as [E'|E'|E'];
    destruct (N.compare_spec (N_of_ascii z) (N_of_ascii x)) as [E''|E''|E''];
    try lia; try discriminate; try reflexivity.
  apply IH.
Qed.

Lemma sorted_insert_In (x y : str) (l : list str) :
  In y (sorted_insert x l) -> y = x \/ In y l.
Proof.
  intros H. apply (Permutation_in _ (sorted_insert_perm x l)) in H.
  destruct H as [H|H]; [left; symmetry; exact H | right; exact H].
Qed.

Lemma sorted_insert_ascending (x : str) (l : list str) :
  ascending l -> ascending (sorted_insert x l).
Proof.
  induction 1 as [|y l Hy Hl IH]; simpl.
  - constructor; [intros y [] | constructor].
  - destruct (str_ltb y x) eqn:E.
    + constructor; [|exact IH].
      intros z Hz. apply sorted_insert_In in Hz. destruct Hz as [->|Hz].
      * unfold str_le. apply str_ltb_asym. exact E.
      * apply Hy. exact Hz.
    + constructor; [|constructor; assumption].
      intros z [<-|Hz]; [exact E|].
      apply (str_le_trans x y z); [exact E | apply Hy; exact Hz].
Qed.

Lemma sorted_ascending (l : list str) : ascending (sorted l).
Proof.
  induction l as [|x l IH]; simpl; [constructor|].
  apply sorted_insert_ascending. exact IH.
Qed.

Lemma ascending_unique (l1 l2 : list str) :
  ascending l1 -> ascending l2 -> Permutation l1 l2 -> l1 = l2.
Proof.
  intros H1. revert l2. induction H1 as [|x l1 Hx Hl1 IH]; intros l2 H2 P.
  - apply Permutation_nil in P. symmetry. exact P.
  - destruct H2 as [|y l2 Hy Hl2].
    + apply Permutation_sym, Permutation_nil in P. discriminate.
    + assert (E : x = y).
      { assert (Hxin : In x (y :: l2))
          by (apply (Permutation_in _ P); left; reflexivity).
        assert (Hyin : In y (x :: l1))
          by (apply (Permutation_in _ (Permutation_sym P)); left; reflexivity).
        destruct Hxin as [Hxy|Hxin]; [symmetry; exact Hxy|].
        destruct Hyin as [Hyx|Hyin]; [exact Hyx|].
        apply str_le_antisym; [apply Hx | apply Hy]; assumption. }
      subst y. f_equal. apply IH; [exact Hl2|].
      apply (Permutation_cons_inv P).
Qed.

(** [sorted] returns one list for all the orders of its argument. *)
Lemma sorted_canonical (l1 l2 : list str) :
  Permutation l1 l2 -> sorted l1 = sorted l2.
Proof.
  intros P. apply ascending_unique; try apply sorted_ascending.
  apply perm_trans with l1; [apply sorted_perm|].
  apply perm_trans with l2; [exact P | apply Permutation_sym, sorted_perm].
Qed.

(** ** More passes than needed change nothing *)

Lemma merge_loop_mono (enum : pyset -> list str) (f f' : nat)
    (terms pis r : pyset) :
  f <= f' -> merge_loop enum f terms pis = Ok r ->
  merge_loop enum f' terms pis = Ok r.
Proof.
  revert f' terms pis. induction f as [|f IH]; intros f' terms pis Hle H.
  - destruct terms; [|discriminate]. destruct f'; exact H.
  - destruct f' as [|f']; [lia|]. destruct terms as [|t terms]; [exact H|].
    cbn [merge_loop] in *.
    destruct (merge_round enum (t :: terms) pis) as [[c p]| |];
      try discriminate.
    simpl in *. apply IH; [lia | exact H].
Qed.

Lemma greedy_loop_mono (enum : pyset -> list str) (f f' : nat)
    (pis : pyset) (tbl : dict) (ess r : pyset) :
  f <= f' -> greedy_loop enum f pis tbl ess = Ok r ->
  greedy_loop enum f' pis tbl ess = Ok r.
Proof.
  revert f' tbl ess. induction f as [|f IH]; intros f' tbl ess Hle H.
  - destruct tbl; [|discriminate]. destruct f'; exact H.
  - destruct f' as [|f']; [lia|]. destruct tbl as [|kv tbl]; [exact H|].
    cbn [greedy_loop] in *.
    destruct (py_max (enum pis)
                (fun imp => count_covered imp (dict_keys (kv :: tbl))))
      as [best| |]; try discriminate.
    simpl in *.
    destruct (remove_covered best (kv :: tbl)) as [tbl'| |];
      try discriminate.
    simpl in *. apply IH; [lia | exact H].
Qed.

Lemma minimize_mono (enum : pyset -> list str) (f f' n : nat)
    (ms dcs : list Z) (out : list str) :
  f <= f' -> minimize enum f n ms dcs = Ok out ->
  minimize enum f' n ms dcs = Ok out.
Proof.
  intros Hle. unfold minimize, simplify, prime_implicants_of, select_cover.
  intros H.
  apply bind_Ok in H. destruct H as [self [H Hout]].
  apply bind_Ok in H. destruct H as [pis [Hp H]].
  apply bind_Ok in H. destruct H as [tbl [Ht H]].
  apply bind_Ok in H. destruct H as [terms [Hs H]].
  apply bind_Ok in Hs. destruct Hs as [tbl1 [Hr Hs]].
  apply bind_Ok in Hs. destruct Hs as [chosen [Hg Hs]].
  rewrite (merge_loop_mono enum f f' _ _ pis Hle Hp). simpl.
  rewrite Ht. simpl. rewrite Hr. simpl.
  rewrite (greedy_loop_mono enum f f' _ _ _ chosen Hle Hg). simpl.
  injection Hs as <-. injection H as <-. exact Hout.
Qed.

(** ** Runs under two enumerations *)

Lemma same_elements_single (l : list str) (a : str) :
  NoDup l -> same_elements l [a] -> l = [a].
Proof.
  intros Hnd H. destruct l as [|x [|y l]].
  - destruct (proj2 (H a) (or_introl eq_refl)).
  - destruct (proj1 (H x) (or_introl eq_refl)) as [<-|[]]. reflexivity.
  - exfalso. inversion Hnd as [|? ? Hn _]; subst. apply Hn.
    destruct (proj1 (H x) (or_introl eq_refl)) as [<-|[]].
    destruct (proj1 (H y) (or_intror (or_introl eq_refl))) as [<-|[]].
    left. reflexivity.
Qed.

Section TwoOrders.

Variables enum1 enum2 : pyset -> list str.
Hypothesis enum1_perm : forall s, Permutation (enum1 s) s.
Hypothesis enum2_perm : forall s, Permutation (enum2 s) s.

(** The prime implicants are the same set whatever the order in which the
    loops meet the working set. *)
Lemma merge_loop_order (L : nat) :
  forall fuel terms1 terms2 pis1 pis2 r1,
    uniform L terms1 ->
    same_elements terms1 terms2 -> same_elements pis1 pis2 ->
    merge_loop enum1 fuel terms1 pis1 = Ok r1 ->
    exists r2, merge_loop enum2 fuel terms2 pis2 = Ok r2 /\
               same_elements r1 r2.
Proof.
  induction fuel as [|fuel IH]; intros terms1 terms2 pis1 pis2 r1 U St Sp H.
  - destruct terms1 as [|t terms1]; [|discriminate].
    simpl in H. injection H as <-.
    destruct terms2 as [|t2 terms2].
    + exists pis2. split; [reflexivity | exact Sp].
    + destruct (proj2 (St t2) (or_introl eq_refl)).
  - destruct terms1 as [|t terms1].
    + simpl in H. injection H as <-.
      destruct terms2 as [|t2 terms2].
      * exists pis2. split; [reflexivity | exact Sp].
      * destruct (proj2 (St t2) (or_introl eq_refl)).
    + destruct terms2 as [|t2 terms2].
      { destruct (proj1 (St t) (or_introl eq_refl)). }
      assert (U2 : uniform L (t2 :: terms2))
        by (intros x Hx; apply U; apply St; exact Hx).
      cbn [merge_loop] in *.
      destruct (merge_round_spec enum1 enum1_perm L (t :: terms1) pis1 U)
        as [c1 [p1 [E1 [Hc1 [Hp1 _]]]]].
      destruct (merge_round_spec enum2 enum2_perm L (t2 :: terms2) pis2 U2)
        as [c2 [p2 [E2 [Hc2 [Hp2 _]]]]].
      rewrite E1 in H. rewrite E2. simpl in *.
      apply (IH c1 c2 p1 p2 r1); [| | |exact H].
      * intros c Hc. apply Hc1 in Hc.
        destruct Hc as [a [b [Ha [Hb [_ ->]]]]].
        rewrite merged_length; [apply U; exact Ha|].
        rewrite (U a Ha), (U b Hb). reflexivity.
      * intros c. rewrite Hc1, Hc2. split;
          intros [a [b [Ha [Hb Hm]]]]; exists a, b;
          (split; [apply St; exact Ha | split; [apply St; exact Hb|exact Hm]]).
      * intros p. rewrite Hp1, Hp2. split.
        -- intros [Hin|[Hin Hn]]; [left; apply Sp; exact Hin | right].
           split; [apply St; exact Hin|].
           intros b Hb. apply Hn. apply St. exact Hb.
        -- intros [Hin|[Hin Hn]]; [left; apply Sp; exact Hin | right].
           split; [apply St; exact Hin|].
           intros b Hb. apply Hn. apply St. exact Hb.
Qed.

Lemma greedy_loop_ext (pis1 pis2 : pyset) :
  enum1 pis1 = enum2 pis2 ->
  forall fuel tbl ess,
    greedy_loop enum1 fuel pis1 tbl ess = greedy_loop enum2 fuel pis2 tbl ess.
Proof.
  intros E. induction fuel as [|fuel IH]; intros tbl ess.
  - reflexivity.
  - destruct tbl as [|kv tbl]; [reflexivity|]. cbn [greedy_loop].
    rewrite E.
    destruct (py_max (enum2 pis2)
                (fun imp => count_covered imp (dict_keys (kv :: tbl))))
      as [best| |]; simpl; try reflexivity.
    destruct (remove_covered best (kv :: tbl)) as [tbl'| |]; simpl;
      try reflexivity.
    apply IH.
Qed.

Lemma keep_all_ext (es1 es2 : list str) (item : str * list str) :
  (forall e, In e es1 <-> In e es2) -> keep_all es1 item = keep_all es2 item.
Proof.
  intros H. unfold keep_all.
  destruct (forallb (fun e => keep e item) es2) eqn:E2.
  - apply forallb_forall. intros e He. rewrite forallb_forall in E2.
    apply E2. apply H. exact He.
  - destruct (forallb (fun e => keep e item) es1) eqn:E1; [|reflexivity].
    rewrite <- E2. symmetry. apply forallb_forall. intros e He.
    rewrite forallb_forall in E1. apply E1. apply H. exact He.
Qed.

(** Steps 4 and 5 and the final sort depend on the enumeration through the
    order of the prime implicants only. *)
Lemma select_cover_order (L fuel : nat) (pis1 pis2 : pyset) (tbl : dict) :
  enum1 pis1 = enum2 pis2 ->
  uniform L pis1 ->
  NoDup (dict_keys tbl) -> uniform L (dict_keys tbl) ->
  (forall m v e, In (m, v) tbl -> In e v -> In e pis1) ->
  select_cover enum1 fuel pis1 tbl = select_cover enum2 fuel pis2 tbl.
Proof.
  intros E Up Hnd Ut Hval. unfold select_cover.
  set (ess := find_essential tbl).
  assert (Hess : forall e, In e ess -> length e = L).
  { intros e He. apply find_essential_In in He. destruct He as [m Hin].
    apply Up. apply (Hval m [e] e Hin). left. reflexivity. }
  rewrite (remove_all_filter L (enum1 ess)); try assumption.
  2:{ intros e He. apply Hess.
      apply (proj1 (enum_In enum1 enum1_perm _ _)). exact He. }
  rewrite (remove_all_filter L (enum2 ess)); try assumption.
  2:{ intros e He. apply Hess.
      apply (proj1 (enum_In enum2 enum2_perm _ _)). exact He. }
  rewrite (filter_ext (keep_all (enum1 ess)) (keep_all (enum2 ess))).
  2:{ intros item. apply keep_all_ext. intros e.
      rewrite (enum_In enum1 enum1_perm), (enum_In enum2 enum2_perm).
      reflexivity. }
  simpl. rewrite (greedy_loop_ext pis1 pis2 E).
  destruct (greedy_loop enum2 fuel pis2 _ ess) as [chosen| |]; simpl;
    try reflexivity.
  f_equal. apply sorted_canonical.
  apply perm_trans with chosen; [apply enum1_perm|].
  apply Permutation_sym, enum2_perm.
Qed.

(** Two runs on the same indices in range that meet the prime implicants in
    the same order return the same list. *)
Lemma minimize_order (n fuel : nat) (ms dcs : list Z) (pis1 pis2 : pyset) :
  in_range n (ms ++ dcs) = true -> n + 1 <= fuel ->
  prime_implicants_of enum1 fuel (init n ms dcs) = Ok pis1 ->
  prime_implicants_of enum2 fuel (init n ms dcs) = Ok pis2 ->
  enum1 pis1 = enum2 pis2 ->
  minimize enum1 fuel n ms dcs = minimize enum2 fuel n ms dcs.
Proof.
  intros Hr Hf E1 E2 E.
  destruct (prime_implicants_spec enum1 enum1_perm n fuel ms dcs Hr Hf)
    as [p1 [E1' [_ [Up1 _]]]].
  destruct (prime_implicants_spec enum2 enum2_perm n fuel ms dcs Hr Hf)
    as [p2 [E2' [_ [Up2 _]]]].
  rewrite E1 in E1'. injection E1' as <-.
  rewrite E2 in E2'. injection E2' as <-.
  set (L := Nat.max n 1) in *.
  set (mbs := map (to_binary n) ms).
  assert (Um : uniform L mbs).
  { intros t Ht. apply in_map_iff in Ht. destruct Ht as [z [<- Hz]].
    apply to_binary_length. apply (in_range_spec n (ms ++ dcs)); [exact Hr|].
    apply in_or_app. left. exact Hz. }
  unfold minimize, simplify. rewrite E1, E2. simpl.
  unfold coverage_table_of, minterms_to_binary. simpl. fold mbs.
  rewrite (build_coverage_table_spec enum1 enum1_perm L pis1 mbs Up1 Um).
  rewrite (build_coverage_table_spec enum2 enum2_perm L pis2 mbs Up2 Um).
  simpl. rewrite <- E.
  rewrite (select_cover_order L fuel pis1 pis2
             (table_of (enum1 pis1) (set_of_list mbs)) E Up1).
  - reflexivity.
  - rewrite dict_keys_table_of. apply set_of_list_NoDup.
  - rewrite dict_keys_table_of. intros t Ht.
    apply (proj1 (set_of_list_In _ _)) in Ht. apply Um. exact Ht.
  - intros m v e Hin He. unfold table_of in Hin. apply in_map_iff in Hin.
    destruct Hin as [m' [Heq _]]. injection Heq as _ <-.
    apply filter_In in He. apply (proj1 (enum_In enum1 enum1_perm _ _)).
    apply He.
Qed.

End TwoOrders.

(** ** Strings of two lengths in the working set *)

Lemma bind_ok_or_index {A B : Type} (r : result A) (k : A -> result B) :
  ok_or_index r -> (forall a, ok_or_index (k a)) -> ok_or_index (bind r k).
Proof.
  intros [[a ->]| ->] Hk; simpl; [apply Hk | right; reflexivity].
Qed.

Lemma for_each_ok_or_index {A S : Type} (body : A -> S -> result S)
    (l : list A) :
  (forall x st, ok_or_index (body x st)) ->
  forall st, ok_or_index (for_each l body st).
Proof.
  intros Hb. induction l as [|x l IH]; intros st; simpl.
  - left. exists st. reflexivity.
  - apply bind_ok_or_index; [apply Hb | exact IH].
Qed.

Lemma for_each_raise {A S : Type} (body : A -> S -> result S) (l : list A)
    (x0 : A) :
  (forall x st, ok_or_index (body x st)) ->
  In x0 l -> (forall st, body x0 st = Raise IndexError) ->
  forall st, for_each l body st = Raise IndexError.
Proof.
  intros Hb Hin Hx. induction l as [|x l IH]; intros st; simpl.
  - destruct Hin.
  - destruct (Hb x st) as [[st' E]|E]; rewrite E; simpl; [|reflexivity].
    destruct Hin as [->|Hin]; [rewrite Hx in E; discriminate|].
    apply IH. exact Hin.
Qed.

Lemma diff_count_ok_or_index (t1 t2 : str) : ok_or_index (diff_count t1 t2).
Proof.
  revert t2. induction t1 as [|x t1 IH]; intros [|y t2]; simpl;
    try (left; eexists; reflexivity); try (right; reflexivity).
  apply bind_ok_or_index; [apply IH|]. intros a. left. eexists. reflexivity.
Qed.

Lemma combine_ok_or_index (t1 t2 : str) :
  ok_or_index (combine_binary_terms t1 t2).
Proof.
  revert t2. induction t1 as [|x t1 IH]; intros [|y t2]; simpl;
    try (left; eexists; reflexivity); try (right; reflexivity).
  apply bind_ok_or_index; [apply IH|]. intros a. left. eexists. reflexivity.
Qed.

Lemma merge_pair_ok_or_index (t1 t2 : str) (st : pyset * pyset) :
  ok_or_index (merge_pair t1 t2 st).
Proof.
  unfold merge_pair, differs_by_one_bit. destruct st as [c u].
  destruct (negb (str_eqb t1 t2)); [|left; eexists; reflexivity].
  apply bind_ok_or_index.
  - apply bind_ok_or_index; [apply diff_count_ok_or_index|].
    intros a. left. eexists. reflexivity.
  - intros [|]; [|left; eexists; reflexivity].
    apply bind_ok_or_index; [apply combine_ok_or_index|].
    intros a. left. eexists. reflexivity.
Qed.

Lemma diff_count_short (t1 t2 : str) :
  length t2 < length t1 -> diff_count t1 t2 = Raise IndexError.
Proof.
  revert t2. induction t1 as [|x t1 IH]; intros [|y t2] H; simpl in *;
    try lia; try reflexivity.
  rewrite IH by lia. reflexivity.
Qed.

Lemma merge_pair_short (t1 t2 : str) (st : pyset * pyset) :
  length t2 < length t1 -> merge_pair t1 t2 st = Raise IndexError.
Proof.
  intros H. unfold merge_pair, differs_by_one_bit. destruct st as [c u].
  assert (E : str_eqb t1 t2 = false).
  { apply str_eqb_neq. intros ->. lia. }
  rewrite E. simpl. rewrite diff_count_short by exact H. reflexivity.
Qed.

Section Mixed.

Variable enum : pyset -> list str.
Hypothesis enum_perm : forall s, Permutation (enum s) s.

(** The first pass raises when the working set holds strings of two
    lengths: the pair (longer, shorter) indexes past the end of the shorter. *)
Lemma merge_round_mixed (terms pis : pyset) (t1 t2 : str) :
  In t1 terms -> In t2 terms -> length t2 < length t1 ->
  merge_round enum terms pis = Raise IndexError.
Proof.
  intros H1 H2 Hl. unfold merge_round.
  rewrite (for_each_raise _ (enum terms) t1); [reflexivity| | |].
  - intros x st. apply for_each_ok_or_index. intros y st'.
    apply merge_pair_ok_or_index.
  - apply (proj2 (enum_In enum enum_perm _ _)). exact H1.
  - intros st. apply (for_each_raise _ (enum terms) t2).
    + intros y st'. apply merge_pair_ok_or_index.
    + apply (proj2 (enum_In enum enum_perm _ _)). exact H2.
    + intros st'. apply merge_pair_short. exact Hl.
Qed.

Lemma minimize_mixed (n fuel : nat) (ms dcs : list Z) (a b : Z) :
  In a (ms ++ dcs) -> In b (ms ++ dcs) ->
  length (to_binary n a) <> length (to_binary n b) ->
  1 <= fuel ->
  minimize enum fuel n ms dcs = Raise IndexError.
Proof.
  intros Ha Hb Hne Hf.
  assert (H : exists t1 t2,
             In t1 (set_of_list (map (to_binary n) (ms ++ dcs))) /\
             In t2 (set_of_list (map (to_binary n) (ms ++ dcs))) /\
             length t2 < length t1).
  { destruct (Nat.lt_ge_cases (length (to_binary n a))
                              (length (to_binary n b))) as [Hlt|Hge].
    - exists (to_binary n b), (to_binary n a).
      repeat split; try exact Hlt;
        apply (proj2 (set_of_list_In _ _)), in_map; assumption.
    - exists (to_binary n a), (to_binary n b).
      repeat split; try lia;
        apply (proj2 (set_of_list_In _ _)), in_map; assumption. }
  destruct H as [t1 [t2 [H1 [H2 Hl]]]].
  unfold minimize, simplify, prime_implicants_of, minterms_to_binary. simpl.
  destruct (set_of_list (map (to_binary n) (ms ++ dcs))) as [|t terms] eqn:E;
    [destruct H1|].
  destruct fuel as [|fuel]; [lia|]. cbn [merge_loop].
  rewrite (merge_round_mixed (t :: terms) [] t1 t2 H1 H2 Hl). reflexivity.
Qed.

End Mixed.

(** ** Small facts for the statements below *)

Lemma enum_nil (enum : pyset -> list str) :
  (forall s, Permutation (enum s) s) -> enum [] = [].
Proof.
  intros H. apply Permutation_nil. apply Permutation_sym. apply H.
Qed.

Lemma enum_single (enum : pyset -> list str) (a : str) :
  (forall s, Permutation (enum s) s) -> enum [a] = [a].
Proof.
  intros H. apply Permutation_length_1_inv. apply Permutation_sym. apply H.
Qed.

Lemma select_cover_nil (enum : pyset -> list str) (fuel : nat) (pis : pyset) :
  (forall s, Permutation (enum s) s) -> select_cover enum fuel pis [] = Ok [].
Proof.
  intros H. unfold select_cover.
  change (find_essential []) with (@nil str).
  rewrite (enum_nil enum H). cbn [for_each bind].
  assert (E : greedy_loop enum fuel pis [] [] = Ok [])
    by (destruct fuel; reflexivity).
  rewrite E. cbn [bind]. rewrite (enum_nil enum H). reflexivity.
Qed.

(** One pass turns strings with [k] dashes into strings with [k + 1]. *)
Lemma merge_round_level (enum : pyset -> list str) (L k : nat)
    (terms pis combined pis' : pyset) :
  (forall s, Permutation (enum s) s) ->
  level L k terms ->
  merge_round enum terms pis = Ok (combined, pis') ->
  level L (S k) combined.
Proof.
  intros Hperm Hl E.
  destruct (merge_round_spec enum Hperm L terms pis (level_uniform _ _ _ Hl))
    as [c [p [E' [Hc _]]]].
  rewrite E in E'. injection E' as <- <-.
  intros x Hin. apply Hc in Hin.
  destruct Hin as [t1 [t2 [H1 [H2 [Hm ->]]]]].
  destruct (Hl t1 H1) as [L1 D1]. destruct (Hl t2 H2) as [L2 D2].
  split.
  - rewrite merged_length; congruence.
  - rewrite merged_dashes; try congruence.
    apply mergeable_diffs. exact Hm.
Qed.

Lemma same_length_all_true (n : nat) (zs : list Z) :
  same_length_all (map (to_binary n) zs) = true ->
  forall z, In z zs -> length (to_binary n z) = encoded_width n zs.
Proof.
  destruct zs as [|z0 zs]; simpl; intros H z Hz; [destruct Hz|].
  destruct Hz as [<-|Hz]; [reflexivity|].
  rewrite forallb_forall in H. apply Nat.eqb_eq. apply H.
  apply in_map. exact Hz.
Qed.

Lemma same_length_all_false (n : nat) (zs : list Z) :
  same_length_all (map (to_binary n) zs) = false ->
  exists a b, In a zs /\ In b zs /\
              length (to_binary n a) <> length (to_binary n b).
Proof.
  destruct zs as [|z0 zs]; simpl; intros H; [discriminate|].
  assert (Hex : existsb (fun u => negb (length u =? length (to_binary n z0)))
                  (map (to_binary n) zs) = true).
  { clear -H. induction (map (to_binary n) zs) as [|u l IH]; simpl in *;
      [discriminate|].
    destruct (length u =? length (to_binary n z0)); simpl in *;
      [apply IH; exact H | reflexivity]. }
  apply existsb_exists in Hex. destruct Hex as [u [Hu Hne]].
  apply in_map_iff in Hu. destruct Hu as [a [<- Ha]].
  exists a, z0. split; [right; exact Ha|]. split; [left; reflexivity|].
  apply negb_true_iff in Hne. apply Nat.eqb_neq in Hne. exact Hne.
Qed.

(** * The properties of [simplify] *)

(** C1. Soundness of the cover: on a valid input (indices in
    [[0, 2^num_variables)], minterms and don't-cares disjoint) the run ends
    normally and every input minterm is covered, in the sense of [covers], by
    a term of the final [simplified_terms]. *)
Theorem simplify_sound (enum : pyset -> list str) (n : nat) (ms dcs : list Z)
    (fuel : nat) :
  (forall s, Permutation (enum s) s) ->
  valid_input n ms dcs = true -> n + 1 + length ms <= fuel ->
  exists out,
    minimize enum fuel n ms dcs = Ok out /\
    forall m, In m ms ->
      exists t, In t out /\ covers t (to_binary n m) = Ok true.
Proof.
  intros Hperm Hv Hf. apply valid_input_in_range in Hv.
  destruct (run_spec enum Hperm n fuel ms dcs Hv Hf)
    as [pis [chosen [_ [_ [E [[_ [Up _]] [_ [Hsub [_ Hcov]]]]]]]]].
  exists (sorted (enum chosen)). split; [exact E|].
  intros m Hm. destruct (Hcov m Hm) as [e [He Hme]]. exists e. split.
  - apply (proj2 (sorted_In _ _)). apply (proj2 (enum_In enum Hperm _ _)). exact He.
  - rewrite covers_matches; [rewrite Hme; reflexivity|].
    rewrite (Up e (Hsub e He)). symmetry. apply to_binary_length.
    apply (in_range_spec n (ms ++ dcs)); [exact Hv|].
    apply in_or_app. left. exact Hm.
Qed.

Lemma simplify_sound_witness :
  exists out,
    minimize enum_fwd 7 3 [0; 1; 5]%Z [7]%Z = Ok out /\
    forall m, In m [0; 1; 5]%Z ->
      exists t, In t out /\ covers t (to_binary 3 m) = Ok true.
Proof.
  apply (simplify_sound enum_fwd 3 [0; 1; 5]%Z [7]%Z 7 enum_fwd_perm).
  - reflexivity.
  - simpl. lia.
Defined.

(** C2. Non-overreach: on a valid input no term of the output covers the
    encoding of an index of [[0, 2^num_variables)] that is neither a minterm
    nor a don't-care. *)
Theorem simplify_no_overreach (enum : pyset -> list str) (n : nat)
    (ms dcs : list Z) (fuel : nat) :
  (forall s, Permutation (enum s) s) ->
  valid_input n ms dcs = true -> n + 1 + length ms <= fuel ->
  exists out,
    minimize enum fuel n ms dcs = Ok out /\
    forall t z, In t out -> (0 <= z < 2 ^ Z.of_nat n)%Z ->
      covers t (to_binary n z) = Ok true -> In z ms \/ In z dcs.
Proof.
  intros Hperm Hv Hf. apply valid_input_in_range in Hv.
  destruct (run_spec enum Hperm n fuel ms dcs Hv Hf)
    as [pis [chosen [_ [_ [E [[_ [Up Himp]] [_ [Hsub _]]]]]]]].
  exists (sorted (enum chosen)). split; [exact E|].
  intros t z Ht Hz Hc.
  apply (proj1 (sorted_In _ _)) in Ht. apply (proj1 (enum_In enum Hperm _ _)) in Ht.
  apply Hsub in Ht. destruct (Himp t Ht) as [Lt [_ Hexp]].
  assert (Lz : length (to_binary n z) = Nat.max n 1)
    by (apply to_binary_length; exact Hz).
  rewrite covers_matches in Hc by congruence. injection Hc as Hc.
  specialize (Hexp (to_binary n z) Lz (to_binary_binary n z (proj1 Hz)) Hc).
  apply in_map_iff in Hexp. destruct Hexp as [z' [Heq Hz']].
  apply to_binary_inj in Heq.
  - subst z'. apply in_app_or. exact Hz'.
  - apply (in_range_spec n _ z' Hv Hz').
  - apply Hz.
Qed.

Lemma simplify_no_overreach_witness :
  exists out,
    minimize enum_fwd 7 3 [0; 1; 5]%Z [7]%Z = Ok out /\
    forall t z, In t out -> (0 <= z < 2 ^ Z.of_nat 3)%Z ->
      covers t (to_binary 3 z) = Ok true ->
      In z [0; 1; 5]%Z \/ In z [7]%Z.
Proof.
  apply (simplify_no_overreach enum_fwd 3 [0; 1; 5]%Z [7]%Z 7 enum_fwd_perm).
  - reflexivity.
  - simpl. lia.
Defined.

(** C3, as amended. Termination of implicant generation: on indices that fit
    in [num_variables] bits the merging loop ends within
    [num_variables + 1] passes, and each pass turns a working set of strings
    with [k] dashes into one of strings with [k + 1] dashes. *)
Theorem merging_terminates (enum : pyset -> list str) (n : nat)
    (ms dcs : list Z) :
  (forall s, Permutation (enum s) s) ->
  in_range n (ms ++ dcs) = true ->
  (exists pis, prime_implicants_of enum (n + 1) (init n ms dcs) = Ok pis) /\
  (forall L k terms pis combined pis',
      level L k terms ->
      merge_round enum terms pis = Ok (combined, pis') ->
      level L (S k) combined).
Proof.
  intros Hperm Hr. split.
  - destruct (prime_implicants_spec enum Hperm n (n + 1) ms dcs Hr (le_n _))
      as [pis [E _]].
    exists pis. exact E.
  - intros L k terms pis combined pis'.
    apply merge_round_level. exact Hperm.
Qed.

Lemma merging_terminates_witness :
  (exists pis,
      prime_implicants_of enum_fwd (1 + 1) (init 1 [0; 1]%Z []) = Ok pis) /\
  level 1 1 [lit "-"].
Proof.
  destruct (merging_terminates enum_fwd 1 [0; 1]%Z [] enum_fwd_perm eq_refl)
    as [H1 H2].
  split; [exact H1|].
  apply (H2 1 0 [lit "0"; lit "1"] [] [lit "-"] []).
  - intros t [<-|[<-|[]]]; split; reflexivity.
  - reflexivity.
Defined.

(** C3 as stated fails: with one variable and minterms 0 and 1 the loop needs
    two passes, one more than the width. *)
Lemma merging_rounds_counterexample :
  in_range 1 ([0; 1]%Z ++ []) = true /\
  prime_implicants_of enum_fwd 1 (init 1 [0; 1]%Z []) = OutOfFuel /\
  prime_implicants_of enum_fwd 2 (init 1 [0; 1]%Z []) = Ok [lit "-"].
Proof. repeat split. Qed.

(** C4. Coverage-table non-emptiness: on a valid input the table built in
    step 3 maps the encoding of every minterm to a non-empty list of prime
    implicants that cover it. *)
Theorem coverage_table_nonempty (enum : pyset -> list str) (n : nat)
    (ms dcs : list Z) (fuel : nat) :
  (forall s, Permutation (enum s) s) ->
  valid_input n ms dcs = true -> n + 1 + length ms <= fuel ->
  exists pis tbl,
    prime_implicants_of enum fuel (init n ms dcs) = Ok pis /\
    coverage_table_of enum (init n ms dcs) pis = Ok tbl /\
    forall m, In m ms ->
      exists l, dict_get (to_binary n m) tbl = Some l /\ l <> [] /\
                forall p, In p l ->
                  In p pis /\ covers p (to_binary n m) = Ok true.
Proof.
  intros Hperm Hv Hf. apply valid_input_in_range in Hv.
  destruct (prime_implicants_spec enum Hperm n fuel ms dcs Hv ltac:(lia))
    as [pis [E [_ [Up [_ Hcov]]]]].
  destruct (run_spec enum Hperm n fuel ms dcs Hv Hf)
    as [pis' [chosen [E' [Et _]]]].
  rewrite E in E'. injection E' as <-.
  exists pis, (table_of (enum pis) (set_of_list (map (to_binary n) ms))).
  split; [exact E|]. split; [exact Et|].
  intros m Hm.
  exists (filter (fun p => matches p (to_binary n m)) (enum pis)).
  split; [|split].
  - apply dict_get_table_of. apply (proj2 (set_of_list_In _ _)).
    apply in_map. exact Hm.
  - destruct (Hcov (to_binary n m)) as [p [Hp Hpm]].
    { apply in_map. apply in_or_app. left. exact Hm. }
    intros Hnil.
    assert (Hin : In p (filter (fun p => matches p (to_binary n m)) (enum pis))).
    { apply filter_In. split; [|exact Hpm].
      apply (proj2 (enum_In enum Hperm _ _)). exact Hp. }
    rewrite Hnil in Hin. destruct Hin.
  - intros p Hp. apply filter_In in Hp. destruct Hp as [Hp Hpm].
    apply (proj1 (enum_In enum Hperm _ _)) in Hp. split; [exact Hp|].
    rewrite covers_matches; [rewrite Hpm; reflexivity|].
    rewrite (Up p Hp). symmetry. apply to_binary_length.
    apply (in_range_spec n (ms ++ dcs)); [exact Hv|].
    apply in_or_app. left. exact Hm.
Qed.

Lemma coverage_table_nonempty_witness :
  exists pis tbl,
    prime_implicants_of enum_fwd 7 (init 3 [0; 1; 5]%Z [7]%Z) = Ok pis /\
    coverage_table_of enum_fwd (init 3 [0; 1; 5]%Z [7]%Z) pis = Ok tbl /\
    forall m, In m [0; 1; 5]%Z ->
      exists l, dict_get (to_binary 3 m) tbl = Some l /\ l <> [] /\
                forall p, In p l ->
                  In p pis /\ covers p (to_binary 3 m) = Ok true.
Proof.
  apply (coverage_table_nonempty enum_fwd 3 [0; 1; 5]%Z [7]%Z 7 enum_fwd_perm).
  - reflexivity.
  - simpl. lia.
Defined.

(** C5, as amended. Two runs on the same valid input that meet the elements
    of the prime-implicant set in the same order end normally with the same
    [simplified_terms] list, whatever the order in which they meet the
    elements of the other sets. *)
Theorem same_order_same_output (enum1 enum2 : pyset -> list str) (n : nat)
    (ms dcs : list Z) (fuel : nat) (pis1 pis2 : pyset) :
  (forall s, Permutation (enum1 s) s) ->
  (forall s, Permutation (enum2 s) s) ->
  valid_input n ms dcs = true -> n + 1 + length ms <= fuel ->
  prime_implicants_of enum1 fuel (init n ms dcs) = Ok pis1 ->
  prime_implicants_of enum2 fuel (init n ms dcs) = Ok pis2 ->
  enum1 pis1 = enum2 pis2 ->
  exists out,
    minimize enum1 fuel n ms dcs = Ok out /\
    minimize enum2 fuel n ms dcs = Ok out.
Proof.
  intros H1 H2 Hv Hf E1 E2 E. apply valid_input_in_range in Hv.
  destruct (run_spec enum1 H1 n fuel ms dcs Hv Hf)
    as [p [chosen [_ [_ [Eout _]]]]].
  exists (sorted (enum1 chosen)). split; [exact Eout|].
  rewrite <- Eout. symmetry.
  apply (minimize_order enum1 enum2 H1 H2 n fuel ms dcs pis1 pis2);
    try assumption.
  lia.
Qed.

Lemma same_order_same_output_witness :
  exists out,
    minimize enum_sorted_fwd 10 3 [0; 1; 2; 5; 6; 7]%Z [] = Ok out /\
    minimize enum_sorted_rev 10 3 [0; 1; 2; 5; 6; 7]%Z [] = Ok out.
Proof.
  apply (same_order_same_output enum_sorted_fwd enum_sorted_rev 3
           [0; 1; 2; 5; 6; 7]%Z [] 10
           [lit "-01"; lit "-10"; lit "0-0"; lit "00-"; lit "1-1"; lit "11-"]
           [lit "-01"; lit "-10"; lit "0-0"; lit "00-"; lit "1-1"; lit "11-"]
           enum_sorted_fwd_perm enum_sorted_rev_perm).
  - reflexivity.
  - simpl. lia.
  - reflexivity.
  - reflexivity.
  - reflexivity.
Defined.

(** C5 as stated fails: on the six minterms 0, 1, 2, 5, 6, 7 of three
    variables every prime implicant covers two minterms, the greedy [max]
    keeps the first one it meets, and two enumerations of the sets give two
    different covers. *)
Lemma tie_break_counterexample :
  valid_input 3 [0; 1; 2; 5; 6; 7]%Z [] = true /\
  minimize enum_fwd 10 3 [0; 1; 2; 5; 6; 7]%Z []
    = Ok [lit "-10"; lit "00-"; lit "1-1"] /\
  minimize enum_rev 10 3 [0; 1; 2; 5; 6; 7]%Z []
    = Ok [lit "-01"; lit "0-0"; lit "11-"] /\
  minimize enum_fwd 10 3 [0; 1; 2; 5; 6; 7]%Z []
    <> minimize enum_rev 10 3 [0; 1; 2; 5; 6; 7]%Z [].
Proof.
  split; [reflexivity|]. split; [reflexivity|]. split; [reflexivity|].
  vm_compute. discriminate.
Qed.

(** C6, as amended. The run tests neither the range of the indices nor the
    disjointness of the two lists, and has no error of its own for them: when
    the encodings of all the indices have one length (as they do for indices
    in range, whether or not the lists overlap) the run ends normally and
    covers every minterm, and otherwise it raises [IndexError] in the first
    pass of the merging loop. *)
Theorem no_input_validation (enum : pyset -> list str) (n : nat)
    (ms dcs : list Z) (fuel : nat) :
  (forall s, Permutation (enum s) s) ->
  encoded_width n (ms ++ dcs) + 1 + length ms <= fuel ->
  if same_length_all (map (to_binary n) (ms ++ dcs))
  then exists out,
         minimize enum fuel n ms dcs = Ok out /\
         forall m, In m ms ->
           exists t, In t out /\ covers t (to_binary n m) = Ok true
  else minimize enum fuel n ms dcs = Raise IndexError.
Proof.
  intros Hperm Hf.
  destruct (same_length_all (map (to_binary n) (ms ++ dcs))) eqn:Es.
  - pose proof (same_length_all_true n (ms ++ dcs) Es) as Hl.
    set (L := encoded_width n (ms ++ dcs)) in *.
    destruct (run_gen enum Hperm L (fun _ => True) n fuel ms dcs)
      as [pis [chosen [_ [_ [E [[_ [Up _]] [_ [Hsub [_ Hcov]]]]]]]]].
    + auto.
    + intros z Hz. split; [apply Hl; exact Hz | exact I].
    + left. lia.
    + lia.
    + exists (sorted (enum chosen)). split; [exact E|].
      intros m Hm. destruct (Hcov m Hm) as [e [He Hme]]. exists e. split.
      * apply (proj2 (sorted_In _ _)).
        apply (proj2 (enum_In enum Hperm _ _)). exact He.
      * rewrite covers_matches; [rewrite Hme; reflexivity|].
        rewrite (Up e (Hsub e He)). symmetry. apply Hl.
        apply in_or_app. left. exact Hm.
  - destruct (same_length_all_false n (ms ++ dcs) Es) as [a [b [Ha [Hb Hne]]]].
    apply (minimize_mixed enum Hperm n fuel ms dcs a b); try assumption.
    lia.
Qed.

Lemma no_input_validation_witness :
  exists out,
    minimize enum_fwd 4 2 [0]%Z [0]%Z = Ok out /\
    forall m, In m [0]%Z ->
      exists t, In t out /\ covers t (to_binary 2 m) = Ok true.
Proof.
  apply (no_input_validation enum_fwd 2 [0]%Z [0]%Z 4 enum_fwd_perm).
  simpl. lia.
Defined.

(** C6 as stated fails: an index in both lists, and an index out of range,
    are accepted and the run ends normally; with encodings of two lengths the
    run fails inside the merging loop, with [IndexError]. *)
Lemma validation_counterexample :
  valid_input 2 [0]%Z [0]%Z = false /\
  minimize enum_fwd 4 2 [0]%Z [0]%Z = Ok [lit "00"] /\
  valid_input 2 [5]%Z [] = false /\
  minimize enum_fwd 5 2 [5]%Z [] = Ok [lit "101"] /\
  valid_input 2 [1; 5]%Z [] = false /\
  minimize enum_fwd 5 2 [1; 5]%Z [] = Raise IndexError.
Proof. repeat split. Qed.

(** C7. The constant-1 function of three variables: the eight minterms and no
    don't-care give the single term ["---"]. *)
Theorem constant_one (enum : pyset -> list str) (fuel : nat) :
  (forall s, Permutation (enum s) s) -> 4 <= fuel ->
  minimize enum fuel 3 [0; 1; 2; 3; 4; 5; 6; 7]%Z [] = Ok [lit "---"].
Proof.
  intros Hperm Hf.
  set (ms := [0; 1; 2; 3; 4; 5; 6; 7]%Z).
  assert (Hr : in_range 3 (ms ++ []) = true) by reflexivity.
  destruct (prime_implicants_spec enum Hperm 3 fuel ms [] Hr Hf)
    as [pis [E [Np _]]].
  assert (E2 : prime_implicants_of enum_fwd fuel (init 3 ms []) = Ok [lit "---"]).
  { apply (merge_loop_mono enum_fwd 4 fuel); [exact Hf | reflexivity]. }
  assert (Hpis : pis = [lit "---"]).
  { unfold prime_implicants_of in E, E2.
    set (T := set_of_list
                (minterms_to_binary (init 3 ms []) (all_terms (init 3 ms []))))
      in *.
    assert (UT : uniform 3 T).
    { intros t Ht. apply (proj1 (set_of_list_In _ _)) in Ht.
      apply in_map_iff in Ht. destruct Ht as [z [<- Hz]].
      apply (to_binary_length 3). apply (in_range_spec 3 _ z Hr Hz). }
    destruct (merge_loop_order enum_fwd enum enum_fwd_perm Hperm 3 fuel
                T T [] [] [lit "---"] UT
                (fun x => iff_refl _) (fun x => iff_refl _) E2)
      as [r [Er Hs]].
    rewrite E in Er. injection Er as <-.
    apply same_elements_single; [exact Np|].
    intros x. symmetry. apply Hs. }
  subst pis.
  rewrite (minimize_order enum enum_fwd Hperm enum_fwd_perm 3 fuel ms []
             [lit "---"] [lit "---"] Hr Hf E E2).
  - apply (minimize_mono enum_fwd 4 fuel); [exact Hf | reflexivity].
  - rewrite (enum_single enum _ Hperm). reflexivity.
Qed.

Lemma constant_one_witness :
  minimize enum_rev 4 3 [0; 1; 2; 3; 4; 5; 6; 7]%Z [] = Ok [lit "---"].
Proof.
  apply (constant_one enum_rev 4 enum_rev_perm). lia.
Defined.

(** C8. Essential implicants are never dropped: on a valid input every
    implicant that is alone in the list of some minterm of the initial
    coverage table, and so every implicant chosen in step 4, is in the final
    [simplified_terms]. *)
Theorem essential_implicants_kept (enum : pyset -> list str) (n : nat)
    (ms dcs : list Z) (fuel : nat) :
  (forall s, Permutation (enum s) s) ->
  valid_input n ms dcs = true -> n + 1 + length ms <= fuel ->
  exists pis tbl out,
    prime_implicants_of enum fuel (init n ms dcs) = Ok pis /\
    coverage_table_of enum (init n ms dcs) pis = Ok tbl /\
    minimize enum fuel n ms dcs = Ok out /\
    (forall m p, dict_get m tbl = Some [p] -> In p out) /\
    (forall p, In p (find_essential tbl) -> In p out).
Proof.
  intros Hperm Hv Hf. apply valid_input_in_range in Hv.
  destruct (run_spec enum Hperm n fuel ms dcs Hv Hf)
    as [pis [chosen [E [Et [Eout [_ [_ [_ [Hess _]]]]]]]]].
  exists pis, (table_of (enum pis) (set_of_list (map (to_binary n) ms))),
    (sorted (enum chosen)).
  split; [exact E|]. split; [exact Et|]. split; [exact Eout|].
  assert (H : forall p,
             In p (find_essential
                     (table_of (enum pis)
                        (set_of_list (map (to_binary n) ms)))) ->
             In p (sorted (enum chosen))).
  { intros p Hp. apply (proj2 (sorted_In _ _)).
    apply (proj2 (enum_In enum Hperm _ _)). apply Hess. exact Hp. }
  split; [|exact H].
  intros m p Hg. apply H. apply find_essential_In. exists m.
  apply dict_get_In. exact Hg.
Qed.

Lemma essential_implicants_kept_witness :
  exists pis tbl out,
    prime_implicants_of enum_fwd 7 (init 3 [0; 1; 5]%Z [7]%Z) = Ok pis /\
    coverage_table_of enum_fwd (init 3 [0; 1; 5]%Z [7]%Z) pis = Ok tbl /\
    minimize enum_fwd 7 3 [0; 1; 5]%Z [7]%Z = Ok out /\
    (forall m p, dict_get m tbl = Some [p] -> In p out) /\
    (forall p, In p (find_essential tbl) -> In p out).
Proof.
  apply (essential_implicants_kept enum_fwd 3 [0; 1; 5]%Z [7]%Z 7
           enum_fwd_perm).
  - reflexivity.
  - simpl. lia.
Defined.

(** C9. The constant-0 function: with no minterm, and don't-cares in range,
    the run ends normally, for every number of variables, with the empty
    list. *)
Theorem constant_zero (enum : pyset -> list str) (n : nat) (dcs : list Z)
    (fuel : nat) :
  (forall s, Permutation (enum s) s) ->
  in_range n dcs = true -> n + 1 <= fuel ->
  minimize enum fuel n [] dcs = Ok [].
Proof.
  intros Hperm Hr Hf.
  destruct (prime_implicants_spec enum Hperm n fuel [] dcs Hr Hf)
    as [pis [E _]].
  unfold minimize, simplify. rewrite E. simpl.
  rewrite (select_cover_nil enum fuel pis Hperm). reflexivity.
Qed.

Lemma constant_zero_witness : minimize enum_fwd 4 3 [] [] = Ok [].
Proof.
  apply (constant_zero enum_fwd 3 [] 4 enum_fwd_perm).
  - reflexivity.
  - lia.
Defined.

(** C10, as amended. Fixed-width output: on indices in range every string of
    the final list has length [max(num_variables, 1)], which is
    [num_variables] when there is at least one variable, and is made of
    ['0'], ['1'] and ['-'] only. *)
Theorem output_fixed_width (enum : pyset -> list str) (n : nat)
    (ms dcs : list Z) (fuel : nat) :
  (forall s, Permutation (enum s) s) ->
  in_range n (ms ++ dcs) = true -> n + 1 + length ms <= fuel ->
  exists out,
    minimize enum fuel n ms dcs = Ok out /\
    forall t, In t out ->
      length t = Nat.max n 1 /\ (1 <= n -> length t = n) /\ ternary t.
Proof.
  intros Hperm Hr Hf.
  destruct (run_spec enum Hperm n fuel ms dcs Hr Hf)
    as [pis [chosen [_ [_ [E [[_ [Up Himp]] [_ [Hsub _]]]]]]]].
  exists (sorted (enum chosen)). split; [exact E|].
  intros t Ht. apply (proj1 (sorted_In _ _)) in Ht.
  apply (proj1 (enum_In enum Hperm _ _)) in Ht. apply Hsub in Ht.
  destruct (Himp t Ht) as [Lt [Tt _]].
  split; [exact Lt|]. split; [lia | exact Tt].
Qed.

Lemma output_fixed_width_witness :
  exists out,
    minimize enum_fwd 7 3 [0; 1; 5]%Z [7]%Z = Ok out /\
    forall t, In t out ->
      length t = Nat.max 3 1 /\ (1 <= 3 -> length t = 3) /\ ternary t.
Proof.
  apply (output_fixed_width enum_fwd 3 [0; 1; 5]%Z [7]%Z 7 enum_fwd_perm).
  - reflexivity.
  - simpl. lia.
Defined.

(** C10 as stated fails: with no variable the index 0 is in range and is
    spelled ["0"], one character long. *)
Lemma output_width_counterexample :
  valid_input 0 [0]%Z [] = true /\
  minimize enum_fwd 1 0 [0]%Z [] = Ok [lit "0"] /\
  length (lit "0") <> 0.
Proof. repeat split. discriminate. Qed.

(** * Further properties of the code *)

(** ** The encoding and the three string operations *)

Lemma size_nat_lower (p : positive) (n : nat) :
  (2 ^ Z.of_nat n <= Zpos p)%Z -> n < Pos.size_nat p.
Proof.
  revert n. induction p as [q IH|q IH|]; intros [|n] H; simpl; try lia.
  - rewrite Nat2Z.inj_succ, Z.pow_succ_r in H by lia.
    apply -> Nat.succ_lt_mono. apply IH. lia.
  - rewrite Nat2Z.inj_succ, Z.pow_succ_r in H by lia.
    apply -> Nat.succ_lt_mono. apply IH. lia.
  - rewrite Nat2Z.inj_succ, Z.pow_succ_r in H by lia.
    pose proof (Z.pow_pos_nonneg 2 (Z.of_nat n) ltac:(lia) ltac:(lia)). lia.
Qed.

Lemma to_binary_length_max (n : nat) (z : Z) :
  (0 <= z)%Z -> length (to_binary n z) = Nat.max n (length (digits z)).
Proof.
  intros Hz. rewrite zfill_digits by exact Hz.
  rewrite length_app, repeat_length. lia.
Qed.

(** X1. [minterms_to_binary] pads and never truncates: the encoding of a
    non-negative index has at least [num_variables] characters, and exactly
    [num_variables] of them if and only if the index is below
    [2^num_variables]. *)
Theorem to_binary_width (n : nat) (z : Z) :
  1 <= n -> (0 <= z)%Z ->
  n <= length (to_binary n z) /\
  (length (to_binary n z) = n <-> (z < 2 ^ Z.of_nat n)%Z).
Proof.
  intros Hn Hz. rewrite to_binary_length_max by exact Hz.
  split; [lia|].
  destruct z as [|p|p]; [| |lia].
  - simpl. split; [intros _|lia].
    apply Z.pow_pos_nonneg; lia.
  - unfold digits. simpl. rewrite pos_digits_length. simpl.
    rewrite Nat.add_0_r. split.
    + intros H.
      destruct (Z.lt_ge_cases (Zpos p) (2 ^ Z.of_nat n)) as [Hlt|Hge];
        [exact Hlt|].
      apply size_nat_lower in Hge. lia.
    + intros H. apply size_nat_bound in H. lia.
Qed.

Lemma to_binary_width_witness :
  3 <= length (to_binary 3 9) /\
  (length (to_binary 3 9) = 3 <-> (9 < 2 ^ Z.of_nat 3)%Z).
Proof. apply (to_binary_width 3 9); lia. Defined.

Lemma diff_count_le (a b : str) :
  length a <= length b -> diff_count a b = Ok (diffs a b).
Proof.
  revert b. induction a as [|x a IH]; intros [|y b] H; simpl in *;
    try lia; try reflexivity.
  rewrite IH by lia. simpl. destruct (Ascii.eqb x y); reflexivity.
Qed.

(** X2. [differs_by_one_bit] raises [IndexError] exactly when its second
    argument is shorter than its first; a longer second argument is compared
    on the length of the first. *)
Theorem differs_by_one_bit_raises (a b : str) :
  differs_by_one_bit a b = Raise IndexError <-> length b < length a.
Proof.
  unfold differs_by_one_bit. split.
  - intros H. destruct (Nat.lt_ge_cases (length b) (length a)) as [Hlt|Hge];
      [exact Hlt|].
    rewrite diff_count_le in H by exact Hge. discriminate.
  - intros H. rewrite diff_count_short by exact H. reflexivity.
Qed.

(** X3. On two strings of one length [differs_by_one_bit] does not depend on
    the order of its arguments, and it is false on a string and itself. *)
Theorem differs_by_one_bit_sym (a b : str) :
  length a = length b ->
  differs_by_one_bit a b = differs_by_one_bit b a /\
  differs_by_one_bit a a = Ok false.
Proof.
  intros H. rewrite !differs_by_one_bit_diffs by congruence.
  rewrite (diffs_sym a b). split; [reflexivity|].
  replace (diffs a a) with 0; [reflexivity|].
  clear. induction a as [|x a IH]; simpl; [reflexivity|].
  rewrite Ascii.eqb_refl. exact IH.
Qed.

Lemma differs_by_one_bit_sym_witness :
  differs_by_one_bit (lit "0-1") (lit "1-1")
    = differs_by_one_bit (lit "1-1") (lit "0-1") /\
  differs_by_one_bit (lit "0-1") (lit "0-1") = Ok false.
Proof. apply (differs_by_one_bit_sym (lit "0-1") (lit "1-1")). reflexivity. Defined.

Lemma merged_comm (a b : str) : merged a b = merged b a.
Proof.
  revert b. induction a as [|x a IH]; intros [|y b]; simpl; try reflexivity.
  rewrite IH, (Ascii.eqb_sym y x). destruct (Ascii.eqb x y) eqn:E.
  - apply Ascii.eqb_eq in E. subst. reflexivity.
  - reflexivity.
Qed.

(** X4. [combine_binary_terms] on two strings of one length returns a string
    of that length that covers both of them. *)
Theorem combine_covers_both (a b : str) :
  length a = length b ->
  exists c,
    combine_binary_terms a b = Ok c /\ length c = length a /\
    covers c a = Ok true /\ covers c b = Ok true.
Proof.
  intros H. exists (merged a b).
  split; [apply combine_binary_terms_merged; exact H|].
  split; [apply merged_length; exact H|].
  split.
  - rewrite covers_matches by (rewrite merged_length; congruence).
    rewrite matches_merged_l by exact H. reflexivity.
  - rewrite covers_matches by (rewrite merged_length; congruence).
    rewrite merged_comm, matches_merged_l by congruence. reflexivity.
Qed.

Lemma combine_covers_both_witness :
  exists c,
    combine_binary_terms (lit "0-1") (lit "1-1") = Ok c /\
    length c = length (lit "0-1") /\
    covers c (lit "0-1") = Ok true /\ covers c (lit "1-1") = Ok true.
Proof. apply (combine_covers_both (lit "0-1") (lit "1-1")). reflexivity. Defined.

(** X5. Merging neither loses nor adds a minterm: when two strings over
    ['0'], ['1'], ['-'] of one length differ at one index, their combination
    covers a fully specified string of that length if and only if one of the
    two covers it. *)
Theorem combine_exact (a b m : str) :
  length a = length b -> length a = length m ->
  ternary a -> ternary b -> binary m ->
  differs_by_one_bit a b = Ok true ->
  exists c,
    combine_binary_terms a b = Ok c /\
    (covers c m = Ok true <-> covers a m = Ok true \/ covers b m = Ok true).
Proof.
  intros Hab Ham Ta Tb Bm Hd. exists (merged a b).
  split; [apply combine_binary_terms_merged; exact Hab|].
  rewrite differs_by_one_bit_diffs in Hd by exact Hab.
  injection Hd as Hd. apply Nat.eqb_eq in Hd.
  assert (Lc : length (merged a b) = length m)
    by (rewrite merged_length; congruence).
  rewrite !covers_matches by congruence.
  split.
  - intros H. injection H as H.
    destruct (matches_merged_split a b m Hab Ham Ta Tb Bm Hd H) as [E|E];
      [left | right]; rewrite E; reflexivity.
  - intros [H|H]; injection H as H; f_equal.
    + apply (matches_trans _ a m); try congruence.
      apply matches_merged_l. exact Hab.
    + apply (matches_trans _ b m); try congruence.
      rewrite merged_comm. apply matches_merged_l. congruence.
Qed.

Lemma combine_exact_witness :
  exists c,
    combine_binary_terms (lit "0-1") (lit "1-1") = Ok c /\
    (covers c (lit "101") = Ok true <->
     covers (lit "0-1") (lit "101") = Ok true \/
     covers (lit "1-1") (lit "101") = Ok true).
Proof.
  apply (combine_exact (lit "0-1") (lit "1-1") (lit "101"));
    try reflexivity;
    repeat (constructor; try (left; reflexivity);
            try (right; left; reflexivity); try (right; right; reflexivity);
            try (right; reflexivity)).
Defined.

Lemma covers_true_cons (c : ascii) (imp : str) (y : ascii) (m : str) :
  covers (c :: imp) (y :: m) = Ok true <->
  (Ascii.eqb c dash || Ascii.eqb c y = true) /\ covers imp m = Ok true.
Proof.
  simpl. destruct (Ascii.eqb c dash || Ascii.eqb c y).
  - tauto.
  - split; [discriminate | intros [H _]; discriminate].
Qed.

Lemma covers_true_nil (m : str) : covers [] m = Ok true -> m = [].
Proof. destruct m; [reflexivity | discriminate]. Qed.

(** X6. Covering is transitive, whatever the lengths: a string that covers a
    second one covers every string the second one covers. *)
Theorem covers_trans (a b c : str) :
  covers a b = Ok true -> covers b c = Ok true -> covers a c = Ok true.
Proof.
  revert a b. induction c as [|z c IH]; intros a b Hab Hbc.
  - destruct a; reflexivity.
  - destruct b as [|y b]; [discriminate|].
    destruct a as [|x a]; [discriminate|].
    apply covers_true_cons in Hab. apply covers_true_cons in Hbc.
    apply covers_true_cons. destruct Hab as [Hx Ha]. destruct Hbc as [Hy Hb].
    split; [|apply (IH a b); assumption].
    apply orb_true_iff in Hx. apply orb_true_iff in Hy. apply orb_true_iff.
    destruct Hx as [Hx|Hx]; [left; exact Hx|].
    apply Ascii.eqb_eq in Hx. subst y. exact Hy.
Qed.

Lemma covers_trans_witness : covers (lit "---") (lit "011") = Ok true.
Proof.
  apply (covers_trans (lit "---") (lit "0-1") (lit "011")); reflexivity.
Defined.

(** X7. Two strings that cover each other are the same string. *)
Theorem covers_antisym (a b : str) :
  covers a b = Ok true -> covers b a = Ok true -> a = b.
Proof.
  revert b. induction a as [|x a IH]; intros b Hab Hba.
  - symmetry. apply covers_true_nil. exact Hab.
  - destruct b as [|y b]; [discriminate|].
    apply covers_true_cons in Hab. apply covers_true_cons in Hba.
    destruct Hab as [Hx Ha]. destruct Hba as [Hy Hb].
    rewrite (IH b Ha Hb). f_equal.
    apply orb_true_iff in Hx. apply orb_true_iff in Hy.
    destruct Hx as [Hx|Hx]; [|apply Ascii.eqb_eq in Hx; exact Hx].
    destruct Hy as [Hy|Hy]; [|apply Ascii.eqb_eq in Hy; symmetry; exact Hy].
    apply Ascii.eqb_eq in Hx, Hy. congruence.
Qed.

Lemma covers_antisym_witness : lit "0-1" = lit "0-1".
Proof. apply (covers_antisym (lit "0-1") (lit "0-1")); reflexivity. Defined.

(** X8. [covers] raises [IndexError] exactly when the implicant is shorter
    than the minterm and matches it on its whole length; a mismatch met
    earlier answers [False] without reading further. *)
Theorem covers_raises (imp m : str) :
  covers imp m = Raise IndexError <->
  length imp < length m /\ covers imp (firstn (length imp) m) = Ok true.
Proof.
  revert imp. induction m as [|y m IH]; intros imp.
  - destruct imp; simpl; (split; [discriminate | intros [H _]; lia]).
  - destruct imp as [|c imp].
    + simpl. split; [intros _; split; [lia | reflexivity] | reflexivity].
    + simpl. destruct (Ascii.eqb c dash || Ascii.eqb c y).
      * rewrite IH. split; intros [H1 H2]; (split; [lia | exact H2]).
      * split; [discriminate | intros [_ H]; discriminate].
Qed.

(** ** What every run that returns has in common *)

Lemma greedy_loop_NoDup (enum : pyset -> list str) (fuel : nat) (pis : pyset) :
  forall tbl ess chosen,
    greedy_loop enum fuel pis tbl ess = Ok chosen -> NoDup ess -> NoDup chosen.
Proof.
  induction fuel as [|fuel IH]; intros tbl ess chosen H Hnd.
  - destruct tbl; [|discriminate]. injection H as <-. exact Hnd.
  - destruct tbl as [|kv tbl]; [injection H as <-; exact Hnd|].
    cbn [greedy_loop] in H.
    apply bind_Ok in H. destruct H as [best [_ H]].
    apply bind_Ok in H. destruct H as [tbl' [_ H]].
    apply (IH _ _ _ H). apply set_add_NoDup. exact Hnd.
Qed.

Lemma minimize_Ok (enum : pyset -> list str) (fuel n : nat) (ms dcs : list Z)
    (out : list str) :
  minimize enum fuel n ms dcs = Ok out ->
  exists pis tbl tbl1 chosen,
    prime_implicants_of enum fuel (init n ms dcs) = Ok pis /\
    coverage_table_of enum (init n ms dcs) pis = Ok tbl /\
    for_each (enum (find_essential tbl)) remove_covered tbl = Ok tbl1 /\
    greedy_loop enum fuel pis tbl1 (find_essential tbl) = Ok chosen /\
    out = sorted (enum chosen).
Proof.
  unfold minimize, simplify, select_cover. intros H.
  apply bind_Ok in H. destruct H as [self [H Hout]].
  apply bind_Ok in H. destruct H as [pis [Hp H]].
  apply bind_Ok in H. destruct H as [tbl [Ht H]].
  apply bind_Ok in H. destruct H as [terms [Hs H]].
  apply bind_Ok in Hs. destruct Hs as [tbl1 [Hr Hs]].
  apply bind_Ok in Hs. destruct Hs as [chosen [Hg Hs]].
  exists pis, tbl, tbl1, chosen.
  injection Hs as <-. injection H as <-. injection Hout as <-.
  repeat split; assumption.
Qed.

(** X9. Whatever the input, the list a run returns is in ascending order of
    code points (['-'] before ['0'] before ['1']) and has no duplicate. *)
Theorem output_sorted (enum : pyset -> list str) (fuel n : nat)
    (ms dcs : list Z) (out : list str) :
  (forall s, Permutation (enum s) s) ->
  minimize enum fuel n ms dcs = Ok out ->
  ascending out /\ NoDup out.
Proof.
  intros Hperm H. apply minimize_Ok in H.
  destruct H as [pis [tbl [tbl1 [chosen [_ [_ [_ [Hg ->]]]]]]]].
  split; [apply sorted_ascending|].
  apply (Permutation_NoDup (Permutation_sym (sorted_perm _))).
  apply (enum_NoDup enum Hperm).
  apply (greedy_loop_NoDup enum fuel pis tbl1 _ chosen Hg).
  apply find_essential_NoDup.
Qed.

Lemma output_sorted_witness :
  ascending [lit "-10"; lit "00-"; lit "1-1"] /\
  NoDup [lit "-10"; lit "00-"; lit "1-1"].
Proof.
  apply (output_sorted enum_fwd 10 3 [0; 1; 2; 5; 6; 7]%Z []
           [lit "-10"; lit "00-"; lit "1-1"] enum_fwd_perm).
  reflexivity.
Defined.

Lemma merge_loop_stable (enum : pyset -> list str) (f f' : nat) :
  forall terms pis,
    f <= f' -> merge_loop enum f terms pis <> OutOfFuel ->
    merge_loop enum f' terms pis = merge_loop enum f terms pis.
Proof.
  revert f'. induction f as [|f IH]; intros f' terms pis Hle H.
  - destruct terms; [|simpl in H; congruence]. destruct f'; reflexivity.
  - destruct f' as [|f']; [lia|]. destruct terms as [|t terms]; [reflexivity|].
    cbn [merge_loop] in *.
    destruct (merge_round enum (t :: terms) pis) as [[c p]| |]; simpl in *;
      try reflexivity.
    apply IH; [lia | exact H].
Qed.

Lemma greedy_loop_stable (enum : pyset -> list str) (f f' : nat)
    (pis : pyset) :
  forall tbl ess,
    f <= f' -> greedy_loop enum f pis tbl ess <> OutOfFuel ->
    greedy_loop enum f' pis tbl ess = greedy_loop enum f pis tbl ess.
Proof.
  revert f'. induction f as [|f IH]; intros f' tbl ess Hle H.
  - destruct tbl; [|simpl in H; congruence]. destruct f'; reflexivity.
  - destruct f' as [|f']; [lia|]. destruct tbl as [|kv tbl]; [reflexivity|].
    cbn [greedy_loop] in *.
    destruct (py_max (enum pis)
                (fun imp => count_covered imp (dict_keys (kv :: tbl))))
      as [best| |]; simpl in *; try reflexivity.
    destruct (remove_covered best (kv :: tbl)) as [tbl'| |]; simpl in *;
      try reflexivity.
    apply IH; [lia | exact H].
Qed.

(** A run that ends, normally or not, within [f] passes ends the same way
    within more. *)
Lemma minimize_stable (enum : pyset -> list str) (f f' n : nat)
    (ms dcs : list Z) :
  f <= f' -> minimize enum f n ms dcs <> OutOfFuel ->
  minimize enum f' n ms dcs = minimize enum f n ms dcs.
Proof.
  intros Hle. unfold minimize, simplify, prime_implicants_of, select_cover.
  set (T := set_of_list _).
  intros H.
  assert (Hm : merge_loop enum f T [] <> OutOfFuel).
  { intros E. rewrite E in H. simpl in H. congruence. }
  rewrite (merge_loop_stable enum f f' T [] Hle Hm).
  destruct (merge_loop enum f T []) as [pis| |]; simpl in *; try reflexivity.
  destruct (coverage_table_of enum (init n ms dcs) pis) as [tbl| |];
    simpl in *; try reflexivity.
  destruct (for_each (enum (find_essential tbl)) remove_covered tbl)
    as [tbl1| |]; simpl in *; try reflexivity.
  assert (Hg : greedy_loop enum f pis tbl1 (find_essential tbl) <> OutOfFuel).
  { intros E. rewrite E in H. simpl in H. congruence. }
  rewrite (greedy_loop_stable enum f f' pis tbl1 _ Hle Hg). reflexivity.
Qed.

(** X10. The only exception that escapes [simplify] is [IndexError], and only
    on encodings of two lengths: [del coverage_table[minterm]] never meets a
    missing key and [max] never an empty set. *)
Theorem only_index_error (enum : pyset -> list str) (fuel n : nat)
    (ms dcs : list Z) (e : exn) :
  (forall s, Permutation (enum s) s) ->
  minimize enum fuel n ms dcs = Raise e ->
  e = IndexError /\ same_length_all (map (to_binary n) (ms ++ dcs)) = false.
Proof.
  intros Hperm H.
  set (F := Nat.max fuel (encoded_width n (ms ++ dcs) + 1 + length ms)).
  assert (HF : minimize enum F n ms dcs = Raise e).
  { rewrite (minimize_stable enum fuel F); [exact H | unfold F; lia|].
    rewrite H. discriminate. }
  destruct (same_length_all (map (to_binary n) (ms ++ dcs))) eqn:Es.
  - exfalso.
    pose proof (same_length_all_true n (ms ++ dcs) Es) as Hl.
    destruct (run_gen enum Hperm (encoded_width n (ms ++ dcs))
                (fun _ => True) n F ms dcs)
      as [pis [chosen [_ [_ [E _]]]]].
    + auto.
    + intros z Hz. split; [apply Hl; exact Hz | exact I].
    + left. unfold F. lia.
    + unfold F. lia.
    + rewrite E in HF. discriminate.
  - split; [|reflexivity].
    destruct (same_length_all_false n (ms ++ dcs) Es) as [a [b [Ha [Hb Hne]]]].
    rewrite (minimize_mixed enum Hperm n F ms dcs a b Ha Hb Hne) in HF.
    + injection HF as <-. reflexivity.
    + unfold F. lia.
Qed.

Lemma only_index_error_witness :
  IndexError = IndexError /\
  same_length_all (map (to_binary 2) ([1; 5]%Z ++ [])) = false.
Proof.
  apply (only_index_error enum_fwd 5 2 [1; 5]%Z [] IndexError enum_fwd_perm).
  reflexivity.
Defined.

(** ** The terms a run chooses *)

Section Chosen.

Variable enum : pyset -> list str.
Hypothesis enum_perm : forall s, Permutation (enum s) s.

(** One pass of the greedy loop on a table whose entries all have an implicant
    that covers them: the choice is a prime implicant that covers an entry, and
    the table gets shorter. *)
Lemma greedy_step (L : nat) (pis : pyset) (tbl : dict) :
  uniform L pis -> tbl <> [] ->
  NoDup (dict_keys tbl) -> uniform L (dict_keys tbl) ->
  (forall m, In m (dict_keys tbl) ->
             exists p, In p pis /\ matches p m = true) ->
  exists best,
    py_max (enum pis) (fun imp => count_covered imp (dict_keys tbl)) = Ok best /\
    In best pis /\
    (exists m, In m (dict_keys tbl) /\ matches best m = true) /\
    remove_covered best tbl = Ok (filter (keep best) tbl) /\
    length (filter (keep best) tbl) < length tbl.
Proof.
  intros Up Hne Hnd Ut Hcov.
  destruct tbl as [|kv0 tbl0] eqn:Et; [congruence|]. rewrite <- Et in *.
  assert (Hk0 : In (fst kv0) (dict_keys tbl)) by (rewrite Et; left; reflexivity).
  destruct (Hcov _ Hk0) as [p0 [Hp0 Hm0]].
  destruct (py_max_spec
              (fun imp => count_covered imp (dict_keys tbl))
              (fun imp => length (filter (matches imp) (dict_keys tbl)))
              (enum pis))
    as [best [Eb [Hb Hmax]]].
  { intros Hnil. apply (proj2 (enum_In enum enum_perm _ _)) in Hp0.
    rewrite Hnil in Hp0. destruct Hp0. }
  { intros x Hx. apply count_covered_filter. intros k Hk.
    apply (proj1 (enum_In enum enum_perm _ _)) in Hx.
    rewrite (Up x Hx), (Ut k Hk). reflexivity. }
  apply (proj1 (enum_In enum enum_perm _ _)) in Hb.
  assert (Hpos : 1 <= length (filter (matches best) (dict_keys tbl))).
  { apply Nat.le_trans with (length (filter (matches p0) (dict_keys tbl))).
    - assert (Hin : In (fst kv0) (filter (matches p0) (dict_keys tbl)))
        by (apply filter_In; auto).
      destruct (filter (matches p0) (dict_keys tbl)); [destruct Hin|].
      simpl. lia.
    - apply Hmax. apply (proj2 (enum_In enum enum_perm _ _)). exact Hp0. }
  exists best. split; [exact Eb|]. split; [exact Hb|]. split; [|split].
  - destruct (filter (matches best) (dict_keys tbl)) as [|m l] eqn:Ef;
      [simpl in Hpos; lia|].
    exists m. apply filter_In. rewrite Ef. left. reflexivity.
  - apply remove_covered_filter; [exact Hnd|].
    intros k Hk. rewrite (Up best Hb), (Ut k Hk). reflexivity.
  - pose proof (count_keys best tbl). lia.
Qed.

Lemma set_add_length (x : str) (s : pyset) :
  length (set_add x s) <= S (length s).
Proof.
  unfold set_add. destruct (set_mem x s); [lia|].
  rewrite length_app. simpl. lia.
Qed.

(** What the greedy loop adds covers an entry of the table, and it adds at most
    one term for each entry. *)
Lemma greedy_loop_adds (L : nat) (pis : pyset) :
  uniform L pis ->
  forall fuel tbl ess chosen,
    NoDup (dict_keys tbl) -> uniform L (dict_keys tbl) ->
    (forall m, In m (dict_keys tbl) ->
               exists p, In p pis /\ matches p m = true) ->
    greedy_loop enum fuel pis tbl ess = Ok chosen ->
    length chosen <= length ess + length tbl /\
    forall e, In e chosen ->
      In e ess \/
      (In e pis /\ exists m, In m (dict_keys tbl) /\ matches e m = true).
Proof.
  intros Up. induction fuel as [|fuel IH]; intros tbl ess chosen Hnd Ut Hcov H.
  - destruct tbl; [|discriminate]. injection H as <-.
    split; [lia | intros e He; left; exact He].
  - destruct tbl as [|kv0 tbl0] eqn:Et.
    { injection H as <-. split; [lia | intros e He; left; exact He]. }
    rewrite <- Et in *.
    destruct (greedy_step L pis tbl Up ltac:(rewrite Et; discriminate)
                Hnd Ut Hcov)
      as [best [Eb [Hb [[m0 [Hm0 Hbm]] [Er Hlt]]]]].
    assert (H' : greedy_loop enum fuel pis (filter (keep best) tbl)
                   (set_add best ess) = Ok chosen).
    { rewrite Et in H. cbn [greedy_loop] in H. rewrite <- Et in H.
      rewrite Eb in H. simpl in H. rewrite Er in H. exact H. }
    destruct (IH _ _ _ (dict_keys_filter_NoDup _ _ Hnd)
                ltac:(intros k Hk; apply Ut;
                      apply (dict_keys_filter_In _ _ _ Hk))
                ltac:(intros k Hk; apply Hcov;
                      apply (dict_keys_filter_In _ _ _ Hk))
                H')
      as [Hlen Huse].
    split.
    + pose proof (set_add_length best ess). lia.
    + intros e He. destruct (Huse e He) as [Hin|[Hin [m [Hm Hem]]]].
      * apply set_add_In in Hin. destruct Hin as [Hin| ->]; [left; exact Hin|].
        right. split; [exact Hb|]. exists m0. auto.
      * right. split; [exact Hin|]. exists m. split; [|exact Hem].
        apply (dict_keys_filter_In _ _ _ Hm).
Qed.

(** The steps of a run on indices in range, with what each returns. *)
Lemma run_anatomy (n fuel : nat) (ms dcs : list Z) :
  in_range n (ms ++ dcs) = true -> n + 1 + length ms <= fuel ->
  exists pis chosen,
    prime_implicants_of enum fuel (init n ms dcs) = Ok pis /\
    uniform (Nat.max n 1) pis /\
    (forall t, In t (map (to_binary n) (ms ++ dcs)) ->
               exists p, In p pis /\ matches p t = true) /\
    greedy_loop enum fuel pis
      (filter
         (keep_all
            (enum (find_essential
                     (table_of (enum pis)
                        (set_of_list (map (to_binary n) ms))))))
         (table_of (enum pis) (set_of_list (map (to_binary n) ms))))
      (find_essential
         (table_of (enum pis) (set_of_list (map (to_binary n) ms))))
    = Ok chosen /\
    minimize enum fuel n ms dcs = Ok (sorted (enum chosen)).
Proof.
  intros Hr Hf.
  destruct (prime_implicants_spec enum enum_perm n fuel ms dcs Hr ltac:(lia))
    as [pis [E [_ [Up [_ Hcov]]]]].
  destruct (run_spec enum enum_perm n fuel ms dcs Hr Hf)
    as [pis' [chosen' [E' [Et [Eout _]]]]].
  rewrite E in E'. injection E' as <-.
  destruct (minimize_Ok enum fuel n ms dcs _ Eout)
    as [pis2 [tbl [tbl1 [chosen [E2 [Et2 [Er [Eg Es]]]]]]]].
  rewrite E in E2. injection E2 as <-.
  rewrite Et in Et2. injection Et2 as <-.
  set (mbs := map (to_binary n) ms) in *.
  set (tbl := table_of (enum pis) (set_of_list mbs)) in *.
  assert (Um : uniform (Nat.max n 1) mbs).
  { intros t Ht. apply in_map_iff in Ht. destruct Ht as [z [<- Hz]].
    apply to_binary_length. apply (in_range_spec n (ms ++ dcs)); [exact Hr|].
    apply in_or_app. left. exact Hz. }
  rewrite (remove_all_filter (Nat.max n 1)) in Er.
  - injection Er as <-. exists pis, chosen.
    split; [exact E|]. split; [exact Up|]. split; [exact Hcov|].
    split; [exact Eg|]. rewrite Eout, Es. reflexivity.
  - intros e He. apply (proj1 (enum_In enum enum_perm _ _)) in He.
    apply find_essential_In in He. destruct He as [m Hin].
    unfold tbl, table_of in Hin. apply in_map_iff in Hin.
    destruct Hin as [m' [Heq _]]. injection Heq as _ Heq.
    assert (Hin : In e (filter (fun p => matches p m') (enum pis)))
      by (rewrite Heq; left; reflexivity).
    apply filter_In in Hin. apply Up.
    apply (proj1 (enum_In enum enum_perm _ _)). apply Hin.
  - unfold tbl. rewrite dict_keys_table_of. apply set_of_list_NoDup.
  - unfold tbl. rewrite dict_keys_table_of. intros t Ht.
    apply (proj1 (set_of_list_In _ _)) in Ht. apply Um. exact Ht.
Qed.

End Chosen.

Lemma find_essential_length (tbl : dict) :
  length (find_essential tbl) <= length (filter is_single tbl).
Proof.
  unfold find_essential.
  assert (H : forall acc,
             length (fold_left
                       (fun essential (item : str * list str) =>
                          match snd item with
                          | [implicant] => set_add implicant essential
                          | _ => essential
                          end) tbl acc)
             <= length acc + length (filter is_single tbl)).
  { induction tbl as [|[m v] tbl IH]; intros acc; simpl; [lia|].
    unfold is_single at 1. simpl.
    destruct v as [|i [|j v]]; simpl.
    - rewrite IH. lia.
    - rewrite IH. pose proof (set_add_length i acc). lia.
    - rewrite IH. lia. }
  apply (H []).
Qed.

Lemma filter_length_impl {A : Type} (f g : A -> bool) (l : list A) :
  (forall x, In x l -> f x = true -> g x = true) ->
  length (filter f l) <= length (filter g l).
Proof.
  induction l as [|x l IH]; intros H; simpl; [lia|].
  assert (IH' : length (filter f l) <= length (filter g l))
    by (apply IH; intros y Hy; apply H; right; exact Hy).
  destruct (f x) eqn:Ef.
  - rewrite (H x (or_introl eq_refl) Ef). simpl. lia.
  - destruct (g x); simpl; lia.
Qed.

(** The entries that step 4 leaves, and the implicants it takes, are no more
    than the entries of the table. *)
Lemma essential_budget (es : list str) (tbl : dict) :
  (forall e, In e (find_essential tbl) -> In e es) ->
  (forall m e, In (m, [e]) tbl -> matches e m = true) ->
  length (find_essential tbl) + length (filter (keep_all es) tbl)
  <= length tbl.
Proof.
  intros Hes Hm.
  pose proof (find_essential_length tbl) as H1.
  assert (H2 : length (filter (keep_all es) tbl)
               <= length (filter (fun x => negb (is_single x)) tbl)).
  { apply filter_length_impl. intros [m v] Hin Hk.
    destruct (is_single (m, v)) eqn:Es; [|reflexivity]. exfalso.
    unfold is_single in Es. simpl in Es.
    destruct v as [|e [|j v]]; try discriminate.
    assert (He : In e es).
    { apply Hes. apply find_essential_In. exists m. exact Hin. }
    unfold keep_all in Hk. rewrite forallb_forall in Hk.
    specialize (Hk e He). unfold keep in Hk. simpl in Hk.
    rewrite (Hm m e Hin) in Hk. discriminate. }
  pose proof (filter_length is_single tbl). lia.
Qed.

Lemma table_of_entry (imps keys : list str) (m : str) (v : list str) :
  In (m, v) (table_of imps keys) ->
  In m keys /\ v = filter (fun p => matches p m) imps.
Proof.
  unfold table_of. rewrite in_map_iff. intros [m' [Heq Hin]].
  injection Heq as -> <-. auto.
Qed.

(** X11. On a valid input every term of the output is one of the prime
    implicants and covers at least one of the input minterms: no term is
    there for don't-cares alone. *)
Theorem output_terms_needed (enum : pyset -> list str) (n : nat)
    (ms dcs : list Z) (fuel : nat) :
  (forall s, Permutation (enum s) s) ->
  valid_input n ms dcs = true -> n + 1 + length ms <= fuel ->
  exists pis out,
    prime_implicants_of enum fuel (init n ms dcs) = Ok pis /\
    minimize enum fuel n ms dcs = Ok out /\
    forall t, In t out ->
      In t pis /\
      exists m, In m ms /\ covers t (to_binary n m) = Ok true.
Proof.
  intros Hperm Hv Hf. apply valid_input_in_range in Hv.
  destruct (run_anatomy enum Hperm n fuel ms dcs Hv Hf)
    as [pis [chosen [E [Up [Hcov [Eg Eout]]]]]].
  set (mbs := map (to_binary n) ms) in *.
  set (tbl := table_of (enum pis) (set_of_list mbs)) in *.
  assert (Hkey : forall m, In m (dict_keys tbl) ->
            exists z, In z ms /\ m = to_binary n z).
  { intros m Hm. unfold tbl in Hm. rewrite dict_keys_table_of in Hm.
    apply (proj1 (set_of_list_In _ _)) in Hm. apply in_map_iff in Hm.
    destruct Hm as [z [<- Hz]]. exists z. auto. }
  assert (Lkey : forall m, In m (dict_keys tbl) -> length m = Nat.max n 1).
  { intros m Hm. destruct (Hkey m Hm) as [z [Hz ->]].
    apply to_binary_length. apply (in_range_spec n (ms ++ dcs)); [exact Hv|].
    apply in_or_app. left. exact Hz. }
  assert (Hnd : NoDup (dict_keys tbl)).
  { unfold tbl. rewrite dict_keys_table_of. apply set_of_list_NoDup. }
  destruct (greedy_loop_adds enum Hperm (Nat.max n 1) pis Up fuel
              (filter (keep_all (enum (find_essential tbl))) tbl)
              (find_essential tbl) chosen
              (dict_keys_filter_NoDup _ _ Hnd)
              ltac:(intros k Hk; apply Lkey;
                    apply (dict_keys_filter_In _ _ _ Hk)))
    as [_ Huse]; [|exact Eg|].
  { intros m Hm. apply dict_keys_filter_In in Hm.
    destruct (Hkey m Hm) as [z [Hz ->]]. apply Hcov.
    apply in_map. apply in_or_app. left. exact Hz. }
  exists pis, (sorted (enum chosen)).
  split; [exact E|]. split; [exact Eout|].
  intros t Ht. apply (proj1 (sorted_In _ _)) in Ht.
  apply (proj1 (enum_In enum Hperm _ _)) in Ht.
  assert (H : In t pis /\ exists m, In m (dict_keys tbl) /\ matches t m = true).
  { destruct (Huse t Ht) as [Hin|[Hin [m [Hm Htm]]]].
    - apply find_essential_In in Hin. destruct Hin as [m Hin].
      destruct (table_of_entry _ _ _ _ Hin) as [Hm Hv'].
      assert (Hf' : In t (filter (fun p => matches p m) (enum pis)))
        by (rewrite <- Hv'; left; reflexivity).
      apply filter_In in Hf'. destruct Hf' as [Hp Htm].
      split; [apply (proj1 (enum_In enum Hperm _ _)); exact Hp|].
      exists m. split; [|exact Htm].
      unfold tbl. rewrite dict_keys_table_of. exact Hm.
    - split; [exact Hin|]. exists m. split; [|exact Htm].
      apply (dict_keys_filter_In _ _ _ Hm). }
  destruct H as [Hp [m [Hm Htm]]]. split; [exact Hp|].
  destruct (Hkey m Hm) as [z [Hz ->]]. exists z. split; [exact Hz|].
  rewrite covers_matches; [rewrite Htm; reflexivity|].
  rewrite (Up t Hp). symmetry. apply Lkey. exact Hm.
Qed.

Lemma output_terms_needed_witness :
  exists pis out,
    prime_implicants_of enum_fwd 7 (init 3 [0; 1; 5]%Z [7]%Z) = Ok pis /\
    minimize enum_fwd 7 3 [0; 1; 5]%Z [7]%Z = Ok out /\
    forall t, In t out ->
      In t pis /\
      exists m, In m [0; 1; 5]%Z /\ covers t (to_binary 3 m) = Ok true.
Proof.
  apply (output_terms_needed enum_fwd 3 [0; 1; 5]%Z [7]%Z 7 enum_fwd_perm).
  - reflexivity.
  - simpl. lia.
Defined.

(** X12. On a valid input the output has no more terms than there are
    distinct minterms. *)
Theorem output_cardinality (enum : pyset -> list str) (n : nat)
    (ms dcs : list Z) (fuel : nat) :
  (forall s, Permutation (enum s) s) ->
  valid_input n ms dcs = true -> n + 1 + length ms <= fuel ->
  exists out,
    minimize enum fuel n ms dcs = Ok out /\
    length out <= length (nodup Z.eq_dec ms).
Proof.
  intros Hperm Hv Hf. apply valid_input_in_range in Hv.
  destruct (run_anatomy enum Hperm n fuel ms dcs Hv Hf)
    as [pis [chosen [E [Up [Hcov [Eg Eout]]]]]].
  set (mbs := map (to_binary n) ms) in *.
  set (tbl := table_of (enum pis) (set_of_list mbs)) in *.
  set (ess := find_essential tbl) in *.
  assert (Hkey : forall m, In m (dict_keys tbl) ->
            exists z, In z ms /\ m = to_binary n z).
  { intros m Hm. unfold tbl in Hm. rewrite dict_keys_table_of in Hm.
    apply (proj1 (set_of_list_In _ _)) in Hm. apply in_map_iff in Hm.
    destruct Hm as [z [<- Hz]]. exists z. auto. }
  assert (Lkey : forall m, In m (dict_keys tbl) -> length m = Nat.max n 1).
  { intros m Hm. destruct (Hkey m Hm) as [z [Hz ->]].
    apply to_binary_length. apply (in_range_spec n (ms ++ dcs)); [exact Hv|].
    apply in_or_app. left. exact Hz. }
  assert (Hnd : NoDup (dict_keys tbl)).
  { unfold tbl. rewrite dict_keys_table_of. apply set_of_list_NoDup. }
  destruct (greedy_loop_adds enum Hperm (Nat.max n 1) pis Up fuel
              (filter (keep_all (enum ess)) tbl) ess chosen
              (dict_keys_filter_NoDup _ _ Hnd)
              ltac:(intros k Hk; apply Lkey;
                    apply (dict_keys_filter_In _ _ _ Hk)))
    as [Hlen _]; [|exact Eg|].
  { intros m Hm. apply dict_keys_filter_In in Hm.
    destruct (Hkey m Hm) as [z [Hz ->]]. apply Hcov.
    apply in_map. apply in_or_app. left. exact Hz. }
  exists (sorted (enum chosen)). split; [exact Eout|].
  rewrite (Permutation_length (sorted_perm _)).
  rewrite (Permutation_length (Hperm chosen)).
  assert (Hb : length ess + length (filter (keep_all (enum ess)) tbl)
               <= length tbl).
  { apply essential_budget.
    - intros e He. apply (proj2 (enum_In enum Hperm _ _)). exact He.
    - intros m e Hin. destruct (table_of_entry _ _ _ _ Hin) as [_ Hv'].
      assert (Hf' : In e (filter (fun p => matches p m) (enum pis)))
        by (rewrite <- Hv'; left; reflexivity).
      apply filter_In in Hf'. apply Hf'. }
  assert (Ht : length tbl <= length (nodup Z.eq_dec ms)).
  { unfold tbl, table_of. rewrite length_map.
    rewrite <- (length_map (to_binary n) (nodup Z.eq_dec ms)).
    apply NoDup_incl_length; [apply set_of_list_NoDup|].
    intros t Ht. apply (proj1 (set_of_list_In _ _)) in Ht.
    apply in_map_iff in Ht. destruct Ht as [z [<- Hz]].
    apply in_map. apply nodup_In. exact Hz. }
  lia.
Qed.

Lemma output_cardinality_witness :
  exists out,
    minimize enum_fwd 7 3 [0; 1; 5]%Z [7]%Z = Ok out /\
    length out <= length (nodup Z.eq_dec [0; 1; 5]%Z).
Proof.
  apply (output_cardinality enum_fwd 3 [0; 1; 5]%Z [7]%Z 7 enum_fwd_perm).
  - reflexivity.
  - simpl. lia.
Defined.

(** ** Repeated indices, iteration order, one minterm *)

Lemma set_add_present (x : str) (s : pyset) : In x s -> set_add x s = s.
Proof.
  intros H. unfold set_add. apply set_mem_In in H. rewrite H. reflexivity.
Qed.

Lemma fold_set_add_skip (f : Z -> str) (keepz : Z -> bool) (zs : list Z) :
  forall s,
    (forall z, In z zs -> keepz z = false -> In (f z) s) ->
    fold_left (fun s x => set_add x s) (map f zs) s
    = fold_left (fun s x => set_add x s) (map f (filter keepz zs)) s.
Proof.
  induction zs as [|z zs IH]; intros s H; simpl; [reflexivity|].
  destruct (keepz z) eqn:E; simpl.
  - apply IH. intros z' Hz' Hk. apply set_add_In. left.
    apply H; [right; exact Hz' | exact Hk].
  - rewrite set_add_present by (apply H; [left; reflexivity | exact E]).
    apply IH. intros z' Hz' Hk. apply H; [right; exact Hz' | exact Hk].
Qed.

(** X13. An index listed both as a minterm and as a don't-care is a minterm:
    taking the minterms out of [dont_cares] changes nothing in what a run
    returns, whatever the input. *)
Theorem overlap_is_minterm (enum : pyset -> list str) (fuel n : nat)
    (ms dcs : list Z) :
  minimize enum fuel n ms dcs
  = minimize enum fuel n ms
      (filter (fun d => negb (existsb (Z.eqb d) ms)) dcs).
Proof.
  set (dcs' := filter (fun d => negb (existsb (Z.eqb d) ms)) dcs).
  assert (E : set_of_list (map (to_binary n) (ms ++ dcs))
              = set_of_list (map (to_binary n) (ms ++ dcs'))).
  { unfold set_of_list. rewrite !map_app, !fold_left_app.
    apply fold_set_add_skip. intros z Hz Hk.
    apply negb_false_iff in Hk. apply existsb_exists in Hk.
    destruct Hk as [m [Hm Hzm]]. apply Z.eqb_eq in Hzm. subst m.
    change (In (to_binary n z)
              (set_of_list (map (to_binary n) ms))).
    apply (proj2 (set_of_list_In _ _)). apply in_map. exact Hm. }
  unfold minimize, simplify, prime_implicants_of, coverage_table_of,
    minterms_to_binary. simpl. rewrite E.
  destruct (merge_loop enum fuel _ []) as [pis| |]; simpl; try reflexivity.
  destruct (build_coverage_table enum pis (map (to_binary n) ms))
    as [tbl| |]; simpl; try reflexivity.
  destruct (select_cover enum fuel pis tbl) as [out| |]; reflexivity.
Qed.

(** X14. The set of prime implicants does not depend on the order in which
    the loops meet the elements of the sets: two runs on the same indices in
    range find the same prime implicants. *)
Theorem prime_implicants_order (enum1 enum2 : pyset -> list str) (n : nat)
    (ms dcs : list Z) (fuel : nat) :
  (forall s, Permutation (enum1 s) s) ->
  (forall s, Permutation (enum2 s) s) ->
  in_range n (ms ++ dcs) = true -> n + 1 <= fuel ->
  exists pis1 pis2,
    prime_implicants_of enum1 fuel (init n ms dcs) = Ok pis1 /\
    prime_implicants_of enum2 fuel (init n ms dcs) = Ok pis2 /\
    forall p, In p pis1 <-> In p pis2.
Proof.
  intros H1 H2 Hr Hf.
  destruct (prime_implicants_spec enum1 H1 n fuel ms dcs Hr Hf)
    as [pis1 [E1 _]].
  exists pis1. unfold prime_implicants_of in *.
  set (T := set_of_list
              (minterms_to_binary (init n ms dcs) (all_terms (init n ms dcs))))
    in *.
  assert (UT : uniform (Nat.max n 1) T).
  { intros t Ht. apply (proj1 (set_of_list_In _ _)) in Ht.
    apply in_map_iff in Ht. destruct Ht as [z [<- Hz]].
    apply to_binary_length. apply (in_range_spec n _ z Hr Hz). }
  destruct (merge_loop_order enum1 enum2 H1 H2 (Nat.max n 1) fuel
              T T [] [] pis1 UT
              (fun x => iff_refl _) (fun x => iff_refl _) E1)
    as [pis2 [E2 Hs]].
  exists pis2. split; [exact E1|]. split; [exact E2 | exact Hs].
Qed.

Lemma prime_implicants_order_witness :
  exists pis1 pis2,
    prime_implicants_of enum_fwd 4 (init 3 [0; 1; 2; 5; 6; 7]%Z []) = Ok pis1 /\
    prime_implicants_of enum_rev 4 (init 3 [0; 1; 2; 5; 6; 7]%Z []) = Ok pis2 /\
    forall p, In p pis1 <-> In p pis2.
Proof.
  apply (prime_implicants_order enum_fwd enum_rev 3 [0; 1; 2; 5; 6; 7]%Z [] 4
           enum_fwd_perm enum_rev_perm).
  - reflexivity.
  - lia.
Defined.

Lemma covers_refl (t : str) : covers t t = Ok true.
Proof.
  rewrite covers_matches by reflexivity. rewrite matches_refl. reflexivity.
Qed.

(** X15. A function with one minterm and no don't-care is returned as the
    encoding of that minterm, whatever the index and the number of
    variables. *)
Theorem single_minterm (enum : pyset -> list str) (fuel n : nat) (z : Z) :
  (forall s, Permutation (enum s) s) -> 1 <= fuel ->
  minimize enum fuel n [z] [] = Ok [to_binary n z].
Proof.
  intros Hperm Hf. destruct fuel as [|fuel]; [lia|].
  unfold minimize, simplify, prime_implicants_of, coverage_table_of,
    minterms_to_binary. cbn [init num_variables minterms dont_cares all_terms
                             app map].
  set (t := to_binary n z).
  assert (Es : set_of_list [t] = [t]) by reflexivity.
  rewrite Es. cbn [merge_loop]. unfold merge_round.
  rewrite (enum_single enum t Hperm). cbn [for_each bind].
  unfold merge_pair. rewrite str_eqb_refl. cbn [negb bind for_each fold_left].
  change (set_mem t []) with false. cbv iota.
  change (set_add t []) with [t].
  assert (Em : forall f', merge_loop enum f' [] [t] = Ok [t])
    by (intros [|f']; reflexivity).
  rewrite Em. cbn [bind].
  unfold build_coverage_table. rewrite (enum_single enum t Hperm).
  cbn [for_each covering bind]. rewrite covers_refl. cbn [bind dict_set].
  unfold select_cover.
  change (find_essential [(t, [t])]) with (set_add t []).
  change (set_add t []) with [t].
  rewrite (enum_single enum t Hperm). cbn [for_each bind].
  unfold remove_covered. cbn [dict_keys map fst for_each bind].
  rewrite covers_refl. cbn [bind dict_del]. rewrite str_eqb_refl.
  cbn [bind greedy_loop].
  rewrite (enum_single enum t Hperm). reflexivity.
Qed.

Lemma single_minterm_witness :
  minimize enum_rev 1 4 [6]%Z [] = Ok [to_binary 4 6].
Proof. apply (single_minterm enum_rev 1 4 6 enum_rev_perm). lia. Defined.

Lemma same_wildcards (a b : str) :
  length a = length b -> diffs a b = 1 -> dashes a = dashes b ->
  map is_dash a = map is_dash b.
Proof.
  unfold dashes.
  revert b. induction a as [|x a IH]; intros [|y b] H; simpl in *;
    try discriminate; try reflexivity.
  destruct (Ascii.eqb x y) eqn:E.
  - apply Ascii.eqb_eq in E. subst y. simpl. intros D Hd. f_equal.
    apply IH; [lia | exact D|].
    destruct (is_dash x); simpl in Hd; lia.
  - simpl. intros D Hd. assert (D0 : diffs a b = 0) by lia.
    apply diffs_zero in D0; [|lia]. subst b.
    apply Ascii.eqb_neq in E. unfold is_dash in *.
    destruct (Ascii.eqb x dash) eqn:Ex; destruct (Ascii.eqb y dash) eqn:Ey;
      simpl in Hd; try lia; reflexivity.
Qed.

(** X16. The test of [differs_by_one_bit] compares characters, wildcards
    included, yet in a working set of the merging loop (strings of one length
    with as many wildcards each) two strings that pass it have their
    wildcards at the same positions. *)
Theorem merged_pairs_same_wildcards (L k : nat) (terms : pyset) (a b : str) :
  level L k terms -> In a terms -> In b terms ->
  differs_by_one_bit a b = Ok true ->
  map is_dash a = map is_dash b.
Proof.
  intros Hl Ha Hb Hd.
  destruct (Hl a Ha) as [La Da]. destruct (Hl b Hb) as [Lb Db].
  rewrite differs_by_one_bit_diffs in Hd by congruence.
  injection Hd as Hd. apply Nat.eqb_eq in Hd.
  apply same_wildcards; congruence.
Qed.

Lemma merged_pairs_same_wildcards_witness :
  map is_dash (lit "0-1") = map is_dash (lit "1-1").
Proof.
  apply (merged_pairs_same_wildcards 3 1 [lit "0-1"; lit "1-1"; lit "-00"]
           (lit "0-1") (lit "1-1")).
  - intros t [<-|[<-|[<-|[]]]]; split; reflexivity.
  - left. reflexivity.
  - right. left. reflexivity.
  - reflexivity.
Defined.

(** ** The prime implicants are the prime implicants *)

Lemma diffs_same (t : str) : diffs t t = 0.
Proof.
  induction t as [|x t IH]; simpl; [reflexivity|].
  rewrite Ascii.eqb_refl. exact IH.
Qed.

Lemma diffs_one_mergeable (a b : str) : diffs a b = 1 -> mergeable a b = true.
Proof.
  intros H. unfold mergeable. rewrite H. rewrite andb_true_r.
  apply negb_true_iff. apply str_eqb_neq. intros ->.
  rewrite diffs_same in H. discriminate.
Qed.

Lemma dashes_cons (c : ascii) (t : str) :
  dashes (c :: t) = (if is_dash c then 1 else 0) + dashes t.
Proof. unfold dashes. simpl. destruct (is_dash c); reflexivity. Qed.

Lemma fill_first_length (b : ascii) (t : str) :
  length (fill_first b t) = length t.
Proof.
  induction t as [|c t IH]; simpl; [reflexivity|].
  destruct (is_dash c); simpl; [reflexivity | rewrite IH; reflexivity].
Qed.

Lemma fill_first_ternary (b : ascii) (t : str) :
  b = zero \/ b = one -> ternary t -> ternary (fill_first b t).
Proof.
  intros Hb. induction 1 as [|c t Hc Ht IH]; simpl; [constructor|].
  destruct (is_dash c).
  - constructor; [|exact Ht]. destruct Hb as [-> | ->]; auto.
  - constructor; assumption.
Qed.

Lemma fill_first_dashes (b : ascii) (t : str) (k : nat) :
  b = zero \/ b = one -> dashes t = S k -> dashes (fill_first b t) = k.
Proof.
  intros Hb. revert k. induction t as [|c t IH]; intros k H.
  - discriminate.
  - simpl. rewrite dashes_cons in H. destruct (is_dash c) eqn:E.
    + rewrite dashes_cons.
      assert (Eb : is_dash b = false) by (destruct Hb as [-> | ->]; reflexivity).
      rewrite Eb. simpl in *. lia.
    + rewrite dashes_cons, E. simpl in *. apply IH. exact H.
Qed.

Lemma fill_first_matches (b : ascii) (t m : str) :
  matches (fill_first b t) m = true -> matches t m = true.
Proof.
  revert m. induction t as [|c t IH]; intros [|y m]; simpl; try reflexivity.
  destruct (is_dash c) eqn:E.
  - simpl. unfold is_dash in E. rewrite E. simpl.
    rewrite andb_true_iff. tauto.
  - simpl. rewrite !andb_true_iff. intros [H1 H2]. split; [exact H1|].
    apply IH. exact H2.
Qed.

Lemma fill_first_diffs (t : str) (k : nat) :
  dashes t = S k -> diffs (fill_first zero t) (fill_first one t) = 1.
Proof.
  induction t as [|c t IH]; intros H.
  - discriminate.
  - simpl. rewrite dashes_cons in H. destruct (is_dash c) eqn:E.
    + simpl. rewrite diffs_same. reflexivity.
    + simpl. rewrite Ascii.eqb_refl. simpl in *. apply IH. exact H.
Qed.

Lemma fill_first_merged (t : str) (k : nat) :
  dashes t = S k -> merged (fill_first zero t) (fill_first one t) = t.
Proof.
  induction t as [|c t IH]; intros H.
  - discriminate.
  - simpl. rewrite dashes_cons in H. destruct (is_dash c) eqn:E.
    + simpl. rewrite merged_same. unfold is_dash in E.
      apply Ascii.eqb_eq in E. subst c. reflexivity.
    + simpl. rewrite Ascii.eqb_refl. simpl in *. rewrite IH by exact H.
      reflexivity.
Qed.

Lemma fill_first_implicant (L : nat) (bts : list str) (b : ascii) (t : str) :
  b = zero \/ b = one -> implicant_of L bts t ->
  implicant_of L bts (fill_first b t).
Proof.
  intros Hb [Hl [Ht Hx]]. split; [|split].
  - rewrite fill_first_length. exact Hl.
  - apply fill_first_ternary; assumption.
  - intros m Lm Bm Hm. apply Hx; try assumption.
    apply (fill_first_matches b). exact Hm.
Qed.

(** When no implicant has [k] wildcards, none has more. *)
Lemma no_implicant_above (L : nat) (bts : list str) (k : nat) :
  (forall t, implicant_of L bts t -> dashes t <> k) ->
  forall t, implicant_of L bts t -> dashes t < k.
Proof.
  intros Hno.
  assert (H : forall d t, implicant_of L bts t -> dashes t = k + d -> False).
  { induction d as [|d IH]; intros t Ht Hd.
    - apply (Hno t Ht). lia.
    - apply (IH (fill_first zero t)).
      + apply fill_first_implicant; [left; reflexivity | exact Ht].
      + apply fill_first_dashes; [left; reflexivity | lia]. }
  intros t Ht. destruct (Nat.lt_ge_cases (dashes t) k) as [Hlt|Hge];
    [exact Hlt|].
  exfalso. apply (H (dashes t - k) t Ht). lia.
Qed.

Lemma flip_not_dash (y : ascii) : is_dash (flip y) = false.
Proof. unfold flip. destruct (Ascii.eqb y zero); reflexivity. Qed.

Lemma flip_differs (y : ascii) :
  y = zero \/ y = one -> Ascii.eqb y (flip y) = false.
Proof. intros [-> | ->]; reflexivity. Qed.

Lemma flip_under_length (q p : str) : length (flip_under q p) = length p.
Proof.
  revert p. induction q as [|x q IH]; intros [|y p]; simpl; try reflexivity.
  destruct (is_dash x && negb (is_dash y)); simpl; [reflexivity|].
  rewrite IH. reflexivity.
Qed.

Lemma flip_under_ternary (q p : str) : ternary p -> ternary (flip_under q p).
Proof.
  revert p. induction q as [|x q IH]; intros [|y p] H; simpl; try exact H.
  inversion H as [|? ? Hy Hp]; subst.
  destruct (is_dash x && negb (is_dash y)).
  - constructor; [|exact Hp]. unfold flip.
    destruct (Ascii.eqb y zero); auto.
  - constructor; [exact Hy | apply IH; exact Hp].
Qed.

Lemma flip_under_dashes (q p : str) : dashes (flip_under q p) = dashes p.
Proof.
  revert p. induction q as [|x q IH]; intros [|y p]; simpl; try reflexivity.
  destruct (is_dash x && negb (is_dash y)) eqn:E.
  - apply andb_true_iff in E. destruct E as [_ E].
    apply negb_true_iff in E.
    rewrite !dashes_cons, flip_not_dash, E. reflexivity.
  - rewrite !dashes_cons, IH. reflexivity.
Qed.

Lemma flip_under_covered (q p : str) :
  length q = length p -> matches q p = true ->
  matches q (flip_under q p) = true.
Proof.
  revert p. induction q as [|x q IH]; intros [|y p] Hl; simpl in *;
    try discriminate; try reflexivity.
  rewrite andb_true_iff. intros [Hh Hr].
  destruct (is_dash x && negb (is_dash y)) eqn:E; simpl.
  - apply andb_true_iff in E. destruct E as [E _]. unfold is_dash in E.
    rewrite E, Hr. reflexivity.
  - rewrite Hh. simpl. apply IH; [lia | exact Hr].
Qed.

Lemma flip_under_diffs (q p : str) :
  length q = length p -> matches q p = true -> q <> p -> ternary p ->
  diffs p (flip_under q p) = 1.
Proof.
  revert p. induction q as [|x q IH]; intros [|y p] Hl; simpl in *;
    try discriminate; try congruence.
  rewrite andb_true_iff. intros [Hh Hr] Hne Tp.
  inversion Tp as [|? ? Ty Tp']; subst.
  destruct (is_dash x && negb (is_dash y)) eqn:E; simpl.
  - apply andb_true_iff in E. destruct E as [_ E].
    apply negb_true_iff in E.
    assert (Hy : y = zero \/ y = one).
    { destruct Ty as [H|[H|H]]; auto. subst y. discriminate. }
    rewrite (flip_differs y Hy), diffs_same. reflexivity.
  - rewrite Ascii.eqb_refl. simpl.
    assert (Exy : x = y).
    { apply orb_true_iff in Hh. destruct Hh as [Hd|He];
        [|apply Ascii.eqb_eq in He; exact He].
      unfold is_dash in E. rewrite Hd in E. simpl in E.
      apply negb_false_iff in E. apply Ascii.eqb_eq in Hd, E. congruence. }
    subst y. apply IH; try assumption; [lia | congruence].
Qed.

Lemma ternary_no_dash_binary (t : str) : ternary t -> dashes t = 0 -> binary t.
Proof.
  induction 1 as [|c t Hc Ht IH]; intros H; [constructor|].
  rewrite dashes_cons in H. destruct (is_dash c) eqn:E; [simpl in H; lia|].
  constructor; [|apply IH; simpl in H; exact H].
  destruct Hc as [Hc|[Hc|Hc]]; auto. subst c. discriminate.
Qed.

Section Exact.

Variable enum : pyset -> list str.
Hypothesis enum_perm : forall s, Permutation (enum s) s.

Variable L : nat.
Variable bts : list str.

(** The loop, from a working set that holds the implicants with [k]
    wildcards and a set that holds the prime implicants with fewer, returns
    the prime implicants. *)
Lemma merge_loop_exact :
  forall fuel k terms pis r,
    (forall t, In t terms <-> implicant_of L bts t /\ dashes t = k) ->
    (forall p, In p pis <-> prime_of L bts p /\ dashes p < k) ->
    merge_loop enum fuel terms pis = Ok r ->
    forall p, In p r <-> prime_of L bts p.
Proof.
  induction fuel as [|fuel IH]; intros k terms pis r I1 I2 H.
  - destruct terms as [|t terms]; [|discriminate]. injection H as <-.
    intros p. rewrite I2. split; [tauto|]. intros Hp. split; [exact Hp|].
    apply (no_implicant_above L bts k); [|apply Hp].
    intros t Ht Hd. apply (proj2 (I1 t)). auto.
  - destruct terms as [|t0 terms0] eqn:Et.
    { injection H as <-.
      intros p. rewrite I2. split; [tauto|]. intros Hp. split; [exact Hp|].
      apply (no_implicant_above L bts k); [|apply Hp].
      intros t Ht Hd. apply (proj2 (I1 t)). auto. }
    rewrite <- Et in *.
    assert (U : uniform L terms).
    { intros t Ht. apply I1 in Ht. apply Ht. }
    destruct (merge_round_spec enum enum_perm L terms pis U)
      as [combined [pis1 [E [Hc [Hp _]]]]].
    assert (H' : merge_loop enum fuel combined pis1 = Ok r).
    { rewrite Et in H. cbn [merge_loop] in H. rewrite <- Et in H.
      rewrite E in H. exact H. }
    apply (IH (S k) combined pis1 r); [| |exact H'].
    + intros c. rewrite Hc. split.
      * intros [t1 [t2 [H1 [H2 [Hm ->]]]]].
        apply I1 in H1. apply I1 in H2.
        destruct H1 as [X1 D1]. destruct H2 as [X2 D2].
        assert (Hl : length t1 = length t2)
          by (rewrite (proj1 X1), (proj1 X2); reflexivity).
        split; [apply implicant_of_merged; assumption|].
        rewrite merged_dashes; try congruence.
        apply mergeable_diffs. exact Hm.
      * intros [Xc Dc].
        exists (fill_first zero c), (fill_first one c).
        split; [|split; [|split]].
        -- apply I1. split.
           ++ apply fill_first_implicant; [left; reflexivity | exact Xc].
           ++ apply fill_first_dashes; [left; reflexivity | exact Dc].
        -- apply I1. split.
           ++ apply fill_first_implicant; [right; reflexivity | exact Xc].
           ++ apply fill_first_dashes; [right; reflexivity | exact Dc].
        -- apply diffs_one_mergeable. apply (fill_first_diffs c k). exact Dc.
        -- symmetry. apply (fill_first_merged c k). exact Dc.
    + intros p. rewrite Hp, I2. split.
      * intros [[Pp Dp]|[Hin Hn]]; [split; [exact Pp | lia]|].
        apply I1 in Hin. destruct Hin as [Xp Dp].
        split; [|lia]. split; [exact Xp|].
        intros q Xq Hq.
        destruct (list_eq_dec Ascii.ascii_dec q p) as [Heq|Hne]; [exact Heq|].
        exfalso.
        assert (Lqp : length q = length p)
          by (rewrite (proj1 Xq), (proj1 Xp); reflexivity).
        rewrite covers_matches in Hq by exact Lqp. injection Hq as Hq.
        assert (Hin : In (flip_under q p) terms).
        { apply I1. split.
          - split; [|split].
            + rewrite flip_under_length. apply Xp.
            + apply flip_under_ternary. apply Xp.
            + intros m Lm Bm Hm. apply (proj2 (proj2 Xq)); try assumption.
              apply (matches_trans q (flip_under q p) m).
              * rewrite flip_under_length. exact Lqp.
              * rewrite flip_under_length, (proj1 Xp). symmetry. exact Lm.
              * apply flip_under_covered; assumption.
              * exact Hm.
          - rewrite flip_under_dashes. exact Dp. }
        specialize (Hn (flip_under q p) Hin).
        rewrite (diffs_one_mergeable p (flip_under q p)) in Hn;
          [discriminate|].
        apply flip_under_diffs; try assumption. apply Xp.
      * intros [Pp Dp].
        destruct (Nat.eq_dec (dashes p) k) as [Heq|Hne];
          [right | left; split; [exact Pp | lia]].
        assert (Hin : In p terms) by (apply I1; split; [apply Pp | exact Heq]).
        split; [exact Hin|].
        intros t2 H2. destruct (mergeable p t2) eqn:Hm; [|reflexivity].
        exfalso.
        assert (X2 : implicant_of L bts t2) by (apply I1; exact H2).
        assert (D2 : dashes t2 = k) by (apply I1; exact H2).
        assert (Hl : length p = length t2)
          by (rewrite (proj1 (proj1 Pp)), (proj1 X2); reflexivity).
        assert (Hq : merged p t2 = p).
        { apply (proj2 Pp).
          - apply implicant_of_merged; try assumption. apply Pp.
          - rewrite covers_matches by (rewrite merged_length; congruence).
            rewrite matches_merged_l by exact Hl. reflexivity. }
        assert (Dm : dashes (merged p t2) = S (dashes p)).
        { apply merged_dashes; try congruence.
          apply mergeable_diffs. exact Hm. }
        rewrite Hq in Dm. lia.
Qed.

End Exact.

(** X17. On indices in range the merging loop returns exactly the prime
    implicants of the function: the strings over ['0'], ['1'], ['-'] that
    cover encodings of minterms and don't-cares only and that no other such
    string covers. *)
Theorem prime_implicants_exact (enum : pyset -> list str) (n : nat)
    (ms dcs : list Z) (fuel : nat) :
  (forall s, Permutation (enum s) s) ->
  in_range n (ms ++ dcs) = true -> n + 1 <= fuel ->
  exists pis,
    prime_implicants_of enum fuel (init n ms dcs) = Ok pis /\
    forall p,
      In p pis <->
      prime_of (Nat.max n 1) (map (to_binary n) (ms ++ dcs)) p.
Proof.
  intros Hperm Hr Hf.
  destruct (prime_implicants_spec enum Hperm n fuel ms dcs Hr Hf)
    as [pis [E _]].
  exists pis. split; [exact E|].
  unfold prime_implicants_of, minterms_to_binary in E. simpl in E.
  apply (merge_loop_exact enum Hperm (Nat.max n 1)
           (map (to_binary n) (ms ++ dcs)) fuel 0
           (set_of_list (map (to_binary n) (ms ++ dcs))) [] pis);
    [| |exact E].
  - intros t. rewrite set_of_list_In. split.
    + intros Ht. apply in_map_iff in Ht. destruct Ht as [z [<- Hz]].
      split; [apply (in_range_encoding n _ z Hr Hz)|].
      apply to_binary_dashes.
    + intros [[Lt [Tt Xt]] Dt].
      apply Xt; [exact Lt | apply ternary_no_dash_binary; assumption|].
      apply matches_refl.
  - intros p. split; [intros [] | intros [_ H]; lia].
Qed.

Lemma prime_implicants_exact_witness :
  exists pis,
    prime_implicants_of enum_fwd 4 (init 3 [0; 1; 5]%Z [7]%Z) = Ok pis /\
    forall p,
      In p pis <->
      prime_of (Nat.max 3 1) (map (to_binary 3) ([0; 1; 5]%Z ++ [7]%Z)) p.
Proof.
  apply (prime_implicants_exact enum_fwd 3 [0; 1; 5]%Z [7]%Z 4 enum_fwd_perm).
  - reflexivity.
  - lia.
Defined.

(** ** [strip], [split] and [int] on clean text *)

Lemma lstrip_clean (s : str) : starts_clean s -> lstrip s = s.
Proof.
  destruct s as [|c s]; simpl; [reflexivity|]. intros ->. reflexivity.
Qed.

Lemma strip_clean (s : str) : starts_clean s -> ends_clean s -> strip s = s.
Proof.
  intros H1 H2. unfold strip, rstrip. rewrite (lstrip_clean s H1).
  rewrite (lstrip_clean (rev s) H2). apply rev_involutive.
Qed.

Lemma strip_line (s : str) :
  starts_clean s -> ends_clean s -> strip (s ++ [newline]) = s.
Proof.
  intros H1 H2. unfold strip, rstrip.
  destruct s as [|c s].
  - reflexivity.
  - simpl in H1. cbn [app lstrip]. rewrite H1.
    change (c :: s ++ [newline]) with ((c :: s) ++ [newline]).
    rewrite rev_app_distr. cbn [rev app lstrip].
    change (is_space newline) with true. cbv iota.
    change (rev s ++ [c]) with (rev (c :: s)).
    rewrite (lstrip_clean _ H2). apply rev_involutive.
Qed.

Lemma starts_clean_app (l x : str) :
  l <> [] -> starts_clean l -> starts_clean (l ++ x).
Proof. destruct l; [congruence | simpl; auto]. Qed.

Lemma ends_clean_app (a b : str) :
  b <> [] -> ends_clean b -> ends_clean (a ++ b).
Proof.
  intros Hb H. unfold ends_clean in *. rewrite rev_app_distr.
  apply starts_clean_app; [|exact H].
  intros E. apply Hb. rewrite <- (rev_involutive b), E. reflexivity.
Qed.

Lemma int_is_space_is_space (c : ascii) :
  is_space c = false -> int_is_space c = false.
Proof.
  destruct c as [[] [] [] [] [] [] [] []]; vm_compute; intros H;
    first [reflexivity | discriminate H].
Qed.

Lemma int_lstrip_clean (s : str) : starts_clean s -> int_lstrip s = s.
Proof.
  destruct s as [|c s]; simpl; [reflexivity|]. intros H.
  rewrite (int_is_space_is_space c H). reflexivity.
Qed.

Lemma int_strip_clean (s : str) :
  starts_clean s -> ends_clean s -> int_strip s = s.
Proof.
  intros H1 H2. unfold int_strip. rewrite (int_lstrip_clean s H1).
  rewrite (int_lstrip_clean (rev s) H2). apply rev_involutive.
Qed.

Lemma spaceless_clean (s : str) :
  spaceless s -> starts_clean s /\ ends_clean s.
Proof.
  intros H. split.
  - destruct H; simpl; auto.
  - unfold ends_clean. apply Forall_rev in H. destruct H; simpl; auto.
Qed.

Lemma fields_tail_clean (ws : list str) :
  Forall word ws -> ws <> [] ->
  concat (map (fun v => space :: v) ws) <> [] /\
  ends_clean (concat (map (fun v => space :: v) ws)).
Proof.
  induction 1 as [|v ws Hv Hws IH]; intros Hne; [congruence|].
  simpl. split; [discriminate|].
  destruct ws as [|v2 ws].
  - simpl. rewrite app_nil_r.
    change (space :: v) with ([space] ++ v).
    apply ends_clean_app; [apply Hv | apply spaceless_clean, Hv].
  - destruct (IH ltac:(discriminate)) as [H1 H2].
    change (space :: v ++ concat (map (fun v => space :: v) (v2 :: ws)))
      with ((space :: v) ++ concat (map (fun v => space :: v) (v2 :: ws))).
    apply ends_clean_app; assumption.
Qed.

Lemma fields_line_clean (w0 : str) (ws : list str) :
  word w0 -> Forall word ws ->
  starts_clean (fields_line w0 ws) /\ ends_clean (fields_line w0 ws).
Proof.
  intros [Hne Hs] Hws. unfold fields_line. split.
  - apply starts_clean_app; [exact Hne | apply spaceless_clean, Hs].
  - destruct ws as [|v ws].
    + simpl. rewrite app_nil_r. apply spaceless_clean, Hs.
    + apply ends_clean_app; apply fields_tail_clean; try assumption;
        discriminate.
Qed.

Lemma split_from_word (w rest cur : str) :
  spaceless w -> split_from (w ++ rest) cur = split_from rest (rev w ++ cur).
Proof.
  intros H. revert cur. induction H as [|c w Hc Hw IH]; intros cur; simpl.
  - reflexivity.
  - rewrite Hc, IH, <- app_assoc. reflexivity.
Qed.

Lemma split_from_fields (w0 : str) (ws : list str) :
  word w0 -> Forall word ws ->
  split_from (concat (map (fun v => space :: v) ws)) (rev w0) = w0 :: ws.
Proof.
  intros H0 Hws. revert w0 H0.
  induction Hws as [|v ws Hv Hws IH]; intros w0 [Hne Hs].
  - simpl. destruct (rev w0) eqn:E.
    + exfalso. apply Hne. rewrite <- (rev_involutive w0), E. reflexivity.
    + rewrite <- E, rev_involutive. reflexivity.
  - cbn [map concat]. cbn [app split_from].
    change (is_space space) with true. cbv iota.
    destruct (rev w0) eqn:E.
    + exfalso. apply Hne. rewrite <- (rev_involutive w0), E. reflexivity.
    + rewrite <- E, rev_involutive.
      rewrite (split_from_word v _ [] (proj2 Hv)), app_nil_r.
      apply (f_equal (cons w0)). apply IH. exact Hv.
Qed.

(** [split] gives back the fields of a line of fields. *)
Lemma split_fields_line (w0 : str) (ws : list str) :
  word w0 -> Forall word ws -> split (fields_line w0 ws) = w0 :: ws.
Proof.
  intros H0 Hws. unfold split, fields_line.
  rewrite (split_from_word w0 _ [] (proj2 H0)), app_nil_r.
  apply split_from_fields; assumption.
Qed.

Lemma startswith_app (p x : str) : startswith (p ++ x) p = true.
Proof.
  induction p as [|c p IH]; simpl; [destruct x; reflexivity|].
  rewrite Ascii.eqb_refl, IH. reflexivity.
Qed.

Lemma startswith_fields (w p : str) (ws : list str) :
  spaceless p -> startswith w p = false ->
  startswith (w ++ concat (map (fun v => space :: v) ws)) p = false.
Proof.
  intros Hp. revert w. induction Hp as [|a p Ha Hp IH]; intros w H.
  - destruct w; discriminate.
  - destruct w as [|c w].
    + destruct ws as [|v ws]; [reflexivity|].
      cbn [map concat app startswith].
      destruct (Ascii.eqb space a) eqn:E; [|reflexivity].
      apply Ascii.eqb_eq in E. subst a. discriminate.
    + simpl in *. destruct (Ascii.eqb c a); [|reflexivity]. simpl in *.
      apply IH. exact H.
Qed.

Lemma binary_spaceless (s : str) : binary s -> spaceless s.
Proof.
  apply Forall_impl. intros c [-> | ->]; reflexivity.
Qed.

Lemma int_digits_binary (s : str) (b : bool) (acc : Z) :
  binary s -> s <> [] ->
  int_digits s b acc
  = Ok (fold_left
          (fun v c => (2 * v + (if Ascii.eqb c one then 1 else 0))%Z) s acc).
Proof.
  intros H. revert b acc. induction H as [|c s Hc Hs IH]; intros b acc Hne;
    [congruence|].
  simpl. assert (Eb : is_bit c = true) by (destruct Hc as [-> | ->]; reflexivity).
  rewrite Eb. destruct s as [|c' s'].
  - reflexivity.
  - apply IH. discriminate.
Qed.

(** [int(s, 2)] on a non-empty string of ['0'] and ['1'] is the number the
    string spells. *)
Lemma py_int2_binary (s : str) :
  binary s -> s <> [] -> py_int2 s = Ok (bin_value s).
Proof.
  intros Hb Hne. unfold py_int2.
  destruct (spaceless_clean s (binary_spaceless s Hb)) as [H1 H2].
  rewrite (int_strip_clean s H1 H2).
  destruct s as [|c s]; [congruence|].
  inversion Hb as [|? ? Hc Hs]; subst.
  assert (Ep : Ascii.eqb c "+"%char = false)
    by (destruct Hc as [-> | ->]; reflexivity).
  assert (Ed : Ascii.eqb c dash = false)
    by (destruct Hc as [-> | ->]; reflexivity).
  rewrite Ep, Ed. unfold int_unsigned.
  assert (Eb : is_bit c = true) by (destruct Hc as [-> | ->]; reflexivity).
  destruct s as [|c1 s].
  - rewrite Eb. apply int_digits_binary; assumption.
  - assert (E1 : Ascii.eqb c1 "b"%char || Ascii.eqb c1 "B"%char = false).
    { inversion Hs as [|? ? Hc1 _]; subst.
      destruct Hc1 as [-> | ->]; reflexivity. }
    rewrite E1, andb_false_r. rewrite Eb.
    apply int_digits_binary; assumption.
Qed.

Lemma to_binary_nonempty (n : nat) (z : Z) : (0 <= z)%Z -> to_binary n z <> [].
Proof.
  intros Hz. rewrite zfill_digits by exact Hz.
  destruct z as [|p|p]; [| |lia].
  - intros H. apply app_eq_nil in H. destruct H as [_ H]. discriminate.
  - unfold digits. simpl. destruct (pos_digits_head p []) as [r ->].
    intros H. apply app_eq_nil in H. destruct H as [_ H]. discriminate.
Qed.

(** X18. The reader's [int(inputs, 2)] undoes the encoding of
    [minterms_to_binary]: for every index that is not negative and every
    number of variables, the encoding reads back as the index. *)
Theorem int_of_to_binary (n : nat) (z : Z) :
  (0 <= z)%Z -> py_int2 (to_binary n z) = Ok z.
Proof.
  intros Hz. rewrite py_int2_binary.
  - rewrite bin_value_to_binary by exact Hz. reflexivity.
  - apply to_binary_binary. exact Hz.
  - apply to_binary_nonempty. exact Hz.
Qed.

Lemma int_of_to_binary_witness : py_int2 (to_binary 4 5) = Ok 5%Z.
Proof. apply (int_of_to_binary 4 5). lia. Defined.

Lemma bin_value_bounds (s : str) :
  (0 <= bin_value s < 2 ^ Z.of_nat (length s))%Z.
Proof.
  induction s as [|c s IH] using rev_ind.
  - unfold bin_value. simpl. lia.
  - rewrite bin_value_snoc, length_app. cbn [length].
    rewrite Nat.add_1_r, Nat2Z.inj_succ, Z.pow_succ_r by lia.
    destruct (Ascii.eqb c one); lia.
Qed.

Lemma bin_value_inj (a b : str) :
  binary a -> binary b -> length a = length b ->
  bin_value a = bin_value b -> a = b.
Proof.
  revert b. induction a as [|x a IH] using rev_ind; intros b Ba Bb Hl Hv.
  - destruct b; [reflexivity | discriminate].
  - destruct b as [|y b _] using rev_ind.
    + rewrite length_app in Hl. simpl in Hl. lia.
    + rewrite !bin_value_snoc in Hv. rewrite !length_app in Hl. simpl in Hl.
      apply Forall_app in Ba. destruct Ba as [Ba Bx].
      apply Forall_app in Bb. destruct Bb as [Bb By].
      inversion Bx as [|? ? Hx _]; subst. inversion By as [|? ? Hy _]; subst.
      assert (Hab : bin_value a = bin_value b /\ x = y).
      { destruct Hx as [-> | ->]; destruct Hy as [-> | ->];
          change (Ascii.eqb zero one) with false in Hv;
          change (Ascii.eqb one one) with true in Hv;
          cbv iota in Hv; split; try reflexivity; lia. }
      destruct Hab as [Hab ->]. f_equal. apply IH; try assumption. lia.
Qed.

Lemma to_binary_bin_value (n : nat) (pattern : str) :
  1 <= n -> binary pattern -> length pattern = n ->
  to_binary n (bin_value pattern) = pattern.
Proof.
  intros Hn Hb Hl.
  pose proof (bin_value_bounds pattern) as Hbd. rewrite Hl in Hbd.
  apply bin_value_inj.
  - apply to_binary_binary. lia.
  - exact Hb.
  - rewrite to_binary_length by exact Hbd. lia.
  - apply bin_value_to_binary. lia.
Qed.

(** X19. A row pattern of full width is the encoding of the minterm read from
    it: for a string of ['0'] and ['1'] of length [num_variables], at least
    1, [int(pattern, 2)] is an index in range whose encoding is the
    pattern. *)
Theorem to_binary_of_int (n : nat) (pattern : str) :
  1 <= n -> binary pattern -> length pattern = n ->
  exists z,
    py_int2 pattern = Ok z /\ (0 <= z < 2 ^ Z.of_nat n)%Z /\
    to_binary n z = pattern.
Proof.
  intros Hn Hb Hl. exists (bin_value pattern).
  pose proof (bin_value_bounds pattern) as Hbd. rewrite Hl in Hbd.
  split; [|split; [exact Hbd|]].
  - apply py_int2_binary; [exact Hb|]. destruct pattern; [simpl in Hl; lia|].
    discriminate.
  - apply to_binary_bin_value; assumption.
Qed.

Lemma to_binary_of_int_witness :
  exists z,
    py_int2 (lit "0110") = Ok z /\ (0 <= z < 2 ^ Z.of_nat 4)%Z /\
    to_binary 4 z = lit "0110".
Proof.
  apply (to_binary_of_int 4 (lit "0110")).
  - lia.
  - repeat (apply Forall_cons;
            [first [left; reflexivity | right; reflexivity] |]).
    apply Forall_nil.
  - reflexivity.
Defined.

(** ** The reader on a well-formed table *)

Lemma word_inputs : word (lit ".inputs").
Proof.
  split; [discriminate|]. unfold spaceless, lit. simpl.
  repeat (apply Forall_cons; [reflexivity|]). apply Forall_nil.
Qed.

Lemma startswith_nil (x : str) : startswith x [] = true.
Proof. destruct x; reflexivity. Qed.

Lemma for_each_app {A S : Type} (body : A -> S -> result S) (l1 l2 : list A)
    (st : S) :
  for_each (l1 ++ l2) body st = bind (for_each l1 body st) (for_each l2 body).
Proof.
  revert st. induction l1 as [|x l1 IH]; intros st; simpl; [reflexivity|].
  destruct (body x st) as [st'| |]; simpl; [apply IH | reflexivity..].
Qed.

Lemma read_inputs_line (names : list str) (st : blif_state) :
  Forall word names ->
  read_blif_line (render_item (Inputs names)) st
  = Ok (item_step st (Inputs names)).
Proof.
  intros Hn. unfold read_blif_line, render_item.
  rewrite app_assoc. fold (fields_line (lit ".inputs") names).
  destruct (fields_line_clean _ _ word_inputs Hn) as [H1 H2].
  rewrite (strip_line _ H1 H2). cbv zeta.
  destruct st as [[v m] d].
  rewrite (split_fields_line _ _ word_inputs Hn).
  unfold fields_line at 1. rewrite startswith_app. reflexivity.
Qed.

Lemma read_directive_line (text : str) (st : blif_state) :
  item_ok (Directive text) ->
  read_blif_line (render_item (Directive text)) st = Ok st.
Proof.
  intros [w [ws [-> [Hw [Hws Hin]]]]]. unfold read_blif_line, render_item.
  fold (fields_line (dot :: w) ws).
  assert (Hd : word (dot :: w)).
  { split; [discriminate|]. apply Forall_cons; [reflexivity | exact Hw]. }
  destruct (fields_line_clean _ _ Hd Hws) as [H1 H2].
  rewrite (strip_line _ H1 H2). cbv zeta.
  destruct st as [[v m] d].
  assert (E1 : startswith (fields_line (dot :: w) ws) (lit ".inputs") = false).
  { unfold fields_line. change (lit ".inputs") with (dot :: lit "inputs").
    cbn [app startswith]. rewrite Ascii.eqb_refl. cbn [andb].
    apply startswith_fields; [|exact Hin].
    unfold spaceless, lit. simpl.
    repeat (apply Forall_cons; [reflexivity|]). apply Forall_nil. }
  assert (E2 : startswith (fields_line (dot :: w) ws) (lit ".") = true).
  { unfold fields_line. change (lit ".") with [dot].
    cbn [app startswith]. rewrite Ascii.eqb_refl, startswith_nil.
    reflexivity. }
  rewrite E1, E2.
  destruct (startswith (fields_line (dot :: w) ws) (lit ".names"));
    [reflexivity|].
  rewrite andb_false_r. reflexivity.
Qed.

Lemma row_fields (pattern output : str) :
  pattern ++ [space] ++ output ++ [newline]
  = fields_line pattern [output] ++ [newline].
Proof.
  unfold fields_line. simpl. rewrite app_nil_r, <- app_assoc. reflexivity.
Qed.

Lemma startswith_other (c a : ascii) (r p : str) :
  Ascii.eqb c a = false -> startswith (c :: r) (a :: p) = false.
Proof. intros H. simpl. rewrite H. reflexivity. Qed.

(** A row whose pattern starts with a character that is not a dot goes to the
    third branch of the loop body. *)
Lemma read_row_split (pattern output : str) (st : blif_state) (c : ascii)
    (r : str) :
  pattern = c :: r -> Ascii.eqb c dot = false ->
  spaceless pattern -> word output ->
  read_blif_line (pattern ++ [space] ++ output ++ [newline]) st
  = let '(variables, minterms, dont_cares) := st in
    if str_eqb output (lit "1") then
      z <- py_int2 pattern ;; Ok (variables, minterms ++ [z], dont_cares)
    else if str_eqb output (lit "-") then
      z <- py_int2 pattern ;; Ok (variables, minterms, dont_cares ++ [z])
    else Ok st.
Proof.
  intros Hp Hc Hs Ho. unfold read_blif_line. rewrite row_fields.
  assert (Hw : word pattern) by (split; [rewrite Hp; discriminate | exact Hs]).
  assert (Hws : Forall word [output]) by (apply Forall_cons; auto).
  destruct (fields_line_clean _ _ Hw Hws) as [H1 H2].
  rewrite (strip_line _ H1 H2). cbv zeta.
  destruct st as [[v m] d].
  rewrite (split_fields_line _ _ Hw Hws).
  unfold fields_line. rewrite Hp. cbn [app].
  change (lit ".inputs") with (dot :: lit "inputs").
  change (lit ".names") with (dot :: lit "names").
  change (lit ".") with [dot].
  rewrite !(startswith_other c dot) by exact Hc.
  reflexivity.
Qed.

Lemma read_row_line (pattern output : str) (st : blif_state) :
  item_ok (Row pattern output) ->
  read_blif_line (render_item (Row pattern output)) st
  = Ok (item_step st (Row pattern output)).
Proof.
  intros [Hb [Hne Ho]]. unfold render_item.
  destruct pattern as [|c r] eqn:Ep; [congruence|]. rewrite <- Ep in *.
  assert (Hc : Ascii.eqb c dot = false).
  { rewrite Ep in Hb. inversion Hb as [|? ? Hc _]; subst.
    destruct Hc as [-> | ->]; reflexivity. }
  rewrite (read_row_split pattern output st c r Ep Hc
             (binary_spaceless _ Hb) Ho).
  destruct st as [[v m] d]. unfold item_step.
  rewrite (py_int2_binary pattern Hb Hne).
  destruct (str_eqb output (lit "1")); [reflexivity|].
  destruct (str_eqb output (lit "-")); reflexivity.
Qed.

Lemma read_item_line (it : blif_item) (st : blif_state) :
  item_ok it ->
  read_blif_line (render_item it) st = Ok (item_step st it).
Proof.
  destruct it as [names|text|pattern output|]; intros H.
  - apply read_inputs_line. exact H.
  - rewrite read_directive_line by exact H. destruct st as [[v m] d].
    reflexivity.
  - apply read_row_line. exact H.
  - destruct st as [[v m] d]. reflexivity.
Qed.

Lemma read_items (items : list blif_item) :
  Forall item_ok items ->
  forall st,
    for_each (map render_item items) read_blif_line st
    = Ok (fold_left item_step items st).
Proof.
  induction 1 as [|it items Hit Hitems IH]; intros st; simpl.
  - reflexivity.
  - rewrite (read_item_line it st Hit). simpl. apply IH.
Qed.

(** X20. The reader reads a well-formed table back: on the lines of any
    sequence of [.inputs] lines, other directives, rows and empty lines it
    returns the names of the last [.inputs] line with their number, the
    values of the patterns of the rows with output [1], in file order, as
    minterms, and those of the rows with output [-] as don't-cares; rows with
    another output are skipped. *)
Theorem read_blif_rendered (items : list blif_item) :
  Forall item_ok items ->
  read_blif_file (map render_item items)
  = Ok (let '(variables, minterms, dont_cares) := items_state items in
        (length variables, minterms, dont_cares, variables)).
Proof.
  intros H. unfold read_blif_file, items_state.
  rewrite (read_items items H). simpl.
  destruct (fold_left item_step items ([], [], [])) as [[v m] d].
  reflexivity.
Qed.

Lemma spaceless_check (s : str) :
  forallb (fun c => negb (is_space c)) s = true -> spaceless s.
Proof.
  intros Hs. apply Forall_forall. intros c Hc.
  rewrite forallb_forall in Hs. apply negb_true_iff. apply Hs. exact Hc.
Qed.

Lemma word_check (s : str) :
  negb (match s with [] => true | _ :: _ => false end)
  && forallb (fun c => negb (is_space c)) s = true -> word s.
Proof.
  intros H. apply andb_true_iff in H. destruct H as [H1 H2].
  split; [destruct s; [discriminate H1 | discriminate]|].
  apply spaceless_check. exact H2.
Qed.

Lemma words_check (ws : list str) :
  forallb
    (fun s => negb (match s with [] => true | _ :: _ => false end)
              && forallb (fun c => negb (is_space c)) s) ws = true ->
  Forall word ws.
Proof.
  intros H. apply Forall_forall. intros w Hw.
  rewrite forallb_forall in H. apply word_check. apply H. exact Hw.
Qed.

Lemma binary_check (s : str) : forallb is_bit s = true -> binary s.
Proof.
  intros Hs. apply Forall_forall. intros c Hc.
  rewrite forallb_forall in Hs. specialize (Hs c Hc). unfold is_bit in Hs.
  apply orb_true_iff in Hs.
  destruct Hs as [Hs|Hs]; apply Ascii.eqb_eq in Hs; auto.
Qed.

Lemma directive_check (w : str) (ws : list str) :
  forallb (fun c => negb (is_space c)) w = true ->
  forallb
    (fun s => negb (match s with [] => true | _ :: _ => false end)
              && forallb (fun c => negb (is_space c)) s) ws = true ->
  startswith w (lit "inputs") = false ->
  item_ok (Directive (fields_line (dot :: w) ws)).
Proof.
  intros H1 H2 H3. exists w, ws. split; [reflexivity|].
  split; [apply spaceless_check; exact H1|].
  split; [apply words_check; exact H2 | exact H3].
Qed.

Lemma row_check (pattern output : str) :
  forallb is_bit pattern = true ->
  negb (match pattern with [] => true | _ :: _ => false end) = true ->
  negb (match output with [] => true | _ :: _ => false end)
  && forallb (fun c => negb (is_space c)) output = true ->
  item_ok (Row pattern output).
Proof.
  intros H1 H2 H3. split; [apply binary_check; exact H1|].
  split; [destruct pattern; [discriminate H2 | discriminate]|].
  apply word_check. exact H3.
Qed.

Lemma read_blif_rendered_witness :
  read_blif_file
    (map render_item
       [Directive (lit ".model m"); Inputs [lit "a"; lit "b"];
        Directive (lit ".names a b f"); Row (lit "01") (lit "1");
        Blank; Row (lit "11") (lit "-"); Row (lit "00") (lit "0")])
  = Ok (2, [1%Z], [3%Z], [lit "a"; lit "b"]).
Proof.
  apply (read_blif_rendered
           [Directive (lit ".model m"); Inputs [lit "a"; lit "b"];
            Directive (lit ".names a b f"); Row (lit "01") (lit "1");
            Blank; Row (lit "11") (lit "-"); Row (lit "00") (lit "0")]).
  apply Forall_cons;
    [apply (directive_check (lit "model") [lit "m"]); reflexivity|].
  apply Forall_cons;
    [apply (words_check [lit "a"; lit "b"]); reflexivity|].
  apply Forall_cons;
    [apply (directive_check (lit "names") [lit "a"; lit "b"; lit "f"]);
     reflexivity|].
  apply Forall_cons; [apply row_check; reflexivity|].
  apply Forall_cons; [exact I|].
  apply Forall_cons; [apply row_check; reflexivity|].
  apply Forall_cons; [apply row_check; reflexivity|].
  apply Forall_nil.
Defined.

(** ** Rows the reader rejects *)







(** ** The lines the writer writes *)

Lemma text_lines_from_line (a rest cur : str) :
  one_line a ->
  text_lines_from (a ++ newline :: rest) cur
  = rev (rev a ++ cur) :: text_lines_from rest [].
Proof.
  intros H. revert cur. induction H as [|c a Hc Ha IH]; intros cur.
  - reflexivity.
  - cbn [app text_lines_from]. rewrite Hc, IH. cbn [rev].
    rewrite <- app_assoc. reflexivity.
Qed.

Lemma text_lines_line (a rest : str) :
  one_line a -> text_lines ((a ++ [newline]) ++ rest) = a :: text_lines rest.
Proof.
  intros H. unfold text_lines. rewrite <- app_assoc. cbn [app].
  rewrite (text_lines_from_line a rest [] H), app_nil_r, rev_involutive.
  reflexivity.
Qed.

Lemma str_of_uint_one_line (d : Decimal.uint) : one_line (str_of_uint d).
Proof.
  induction d; simpl; constructor; try reflexivity; assumption.
Qed.

Lemma one_line_app (a b : str) : one_line a -> one_line b -> one_line (a ++ b).
Proof. intros Ha Hb. apply Forall_app. auto. Qed.

Lemma join_one_line (names : list str) :
  Forall one_line names -> one_line (join [space] names).
Proof.
  induction 1 as [|v names Hv Hn IH]; [constructor|].
  destruct names as [|v2 names]; [exact Hv|].
  change (join [space] (v :: v2 :: names))
    with (v ++ [space] ++ join [space] (v2 :: names)).
  apply one_line_app; [exact Hv|].
  apply one_line_app; [|exact IH].
  constructor; [reflexivity | constructor].
Qed.

Lemma lit_one_line (s : string) :
  forallb (fun c => negb (Ascii.eqb c newline)) (lit s) = true ->
  one_line (lit s).
Proof.
  intros H. apply Forall_forall. intros c Hc.
  rewrite forallb_forall in H. apply negb_true_iff. apply H. exact Hc.
Qed.

Lemma text_lines_terms (terms : list str) (rest : str) :
  Forall one_line terms ->
  text_lines
    (concat (map (fun term => term ++ lit " 1" ++ [newline]) terms) ++ rest)
  = map (fun term => term ++ lit " 1") terms ++ text_lines rest.
Proof.
  induction 1 as [|t terms Ht Hts IH]; [reflexivity|].
  cbn [map concat]. rewrite <- app_assoc.
  replace (t ++ lit " 1" ++ [newline]) with ((t ++ lit " 1") ++ [newline])
    by (rewrite <- app_assoc; reflexivity).
  rewrite text_lines_line.
  - rewrite IH. reflexivity.
  - apply one_line_app; [exact Ht | apply lit_one_line; reflexivity].
Qed.

(** X22. The text [write_pla_file] writes has one line for each term, between
    four header lines and the [.e] line: when no name and no term holds a
    newline, its lines are [.i n], [.o 1], [.ilb] with the names, [.ob F],
    each term followed by [ 1], in the order of the list, and [.e]. *)
Theorem write_pla_lines (n : nat) (names terms : list str) :
  Forall one_line names -> Forall one_line terms ->
  text_lines (write_pla_file n names terms)
  = [lit ".i " ++ str_of_nat n; lit ".o 1";
     lit ".ilb " ++ join [space] names; lit ".ob F"]
    ++ map (fun term => term ++ lit " 1") terms ++ [lit ".e"].
Proof.
  intros Hn Ht. unfold write_pla_file.
  replace (lit ".i " ++ str_of_nat n ++ [newline])
    with ((lit ".i " ++ str_of_nat n) ++ [newline])
    by (rewrite <- app_assoc; reflexivity).
  replace (lit ".ilb " ++ join [space] names ++ [newline])
    with ((lit ".ilb " ++ join [space] names) ++ [newline])
    by (rewrite <- app_assoc; reflexivity).
  rewrite text_lines_line
    by (apply one_line_app;
        [apply lit_one_line; reflexivity | apply str_of_uint_one_line]).
  rewrite text_lines_line by (apply lit_one_line; reflexivity).
  rewrite text_lines_line
    by (apply one_line_app;
        [apply lit_one_line; reflexivity | apply join_one_line; exact Hn]).
  rewrite text_lines_line by (apply lit_one_line; reflexivity).
  rewrite (text_lines_terms terms _ Ht).
  reflexivity.
Qed.

Lemma write_pla_lines_witness :
  text_lines (write_pla_file 3 [lit "a"; lit "b"; lit "c"]
                [lit "-10"; lit "00-"])
  = [lit ".i " ++ str_of_nat 3; lit ".o 1";
     lit ".ilb " ++ join [space] [lit "a"; lit "b"; lit "c"]; lit ".ob F"]
    ++ map (fun term => term ++ lit " 1") [lit "-10"; lit "00-"]
    ++ [lit ".e"].
Proof.
  apply (write_pla_lines 3 [lit "a"; lit "b"; lit "c"] [lit "-10"; lit "00-"]).
  - repeat (apply Forall_cons; [apply lit_one_line; reflexivity|]).
    apply Forall_nil.
  - repeat (apply Forall_cons; [apply lit_one_line; reflexivity|]).
    apply Forall_nil.
Defined.

(** ** The driver, from the table to the terms *)

(** The minterms and the don't-cares of a table are the values of its rows
    with output [1] and with output [-]. *)
Lemma item_fold_values (items : list blif_item) :
  forall v m d v' m' d',
    fold_left item_step items (v, m, d) = (v', m', d') ->
    (forall z, In z m' <->
               In z m \/
               exists p, In (Row p (lit "1")) items /\ z = bin_value p) /\
    (forall z, In z d' <->
               In z d \/
               exists p, In (Row p (lit "-")) items /\ z = bin_value p).
Proof.
  induction items as [|it items IH]; intros v m d v' m' d' H.
  - simpl in H. injection H as _ <- <-.
    split; intros z; (split; [auto | intros [Hz|[p [[] _]]]; exact Hz]).
  - cbn [fold_left] in H.
    assert (Hother : forall v1,
              (forall p o, it <> Row p o) ->
              fold_left item_step items (v1, m, d) = (v', m', d') ->
              (forall z, In z m' <->
                 In z m \/
                 exists p, In (Row p (lit "1")) (it :: items) /\
                           z = bin_value p) /\
              (forall z, In z d' <->
                 In z d \/
                 exists p, In (Row p (lit "-")) (it :: items) /\
                           z = bin_value p)).
    { intros v1 Hno H1. destruct (IH _ _ _ _ _ _ H1) as [Hm Hd].
      split; intros z; [rewrite Hm | rewrite Hd];
        (split; intros [Hz|[p [Hp Hz]]]; [left; exact Hz | | left; exact Hz |];
         right; exists p; (split; [|exact Hz]);
         [right; exact Hp | destruct Hp as [Hp|Hp]; [|exact Hp]];
         exfalso; apply (Hno p _ Hp)). }
    destruct it as [names|text|pattern output|].
    + apply (Hother names); [discriminate | exact H].
    + apply (Hother v); [discriminate | exact H].
    + cbn [item_step] in H.
      destruct (str_eqb output (lit "1")) eqn:E1.
      * apply str_eqb_eq in E1. subst output.
        destruct (IH _ _ _ _ _ _ H) as [Hm Hd]. split; intros z.
        -- rewrite Hm, in_app_iff. simpl. split.
           ++ intros [[Hz|[Hz|[]]]|[p [Hp Hz]]].
              ** left. exact Hz.
              ** right. exists pattern. split; [left; reflexivity|].
                 symmetry. exact Hz.
              ** right. exists p. split; [right; exact Hp | exact Hz].
           ++ intros [Hz|[p [[Hp|Hp] Hz]]].
              ** left. left. exact Hz.
              ** injection Hp as ->. left. right. left. symmetry. exact Hz.
              ** right. exists p. split; assumption.
        -- rewrite Hd. split.
           ++ intros [Hz|[p [Hp Hz]]]; [left; exact Hz|].
              right. exists p. split; [right; exact Hp | exact Hz].
           ++ intros [Hz|[p [[Hp|Hp] Hz]]]; [left; exact Hz | discriminate|].
              right. exists p. split; assumption.
      * destruct (str_eqb output (lit "-")) eqn:E2.
        -- apply str_eqb_eq in E2. subst output.
           destruct (IH _ _ _ _ _ _ H) as [Hm Hd]. split; intros z.
           ++ rewrite Hm. split.
              ** intros [Hz|[p [Hp Hz]]]; [left; exact Hz|].
                 right. exists p. split; [right; exact Hp | exact Hz].
              ** intros [Hz|[p [[Hp|Hp] Hz]]];
                   [left; exact Hz | discriminate|].
                 right. exists p. split; assumption.
           ++ rewrite Hd, in_app_iff. simpl. split.
              ** intros [[Hz|[Hz|[]]]|[p [Hp Hz]]].
                 --- left. exact Hz.
                 --- right. exists pattern. split; [left; reflexivity|].
                     symmetry. exact Hz.
                 --- right. exists p. split; [right; exact Hp | exact Hz].
              ** intros [Hz|[p [[Hp|Hp] Hz]]].
                 --- left. left. exact Hz.
                 --- injection Hp as ->. left. right. left. symmetry.
                     exact Hz.
                 --- right. exists p. split; assumption.
        -- apply (proj1 (str_eqb_neq _ _)) in E1.
           apply (proj1 (str_eqb_neq _ _)) in E2.
           destruct (IH _ _ _ _ _ _ H) as [Hm Hd]. split; intros z.
           ++ rewrite Hm. split.
              ** intros [Hz|[p [Hp Hz]]]; [left; exact Hz|].
                 right. exists p. split; [right; exact Hp | exact Hz].
              ** intros [Hz|[p [[Hp|Hp] Hz]]]; [left; exact Hz | |].
                 --- exfalso. apply E1. injection Hp as _ Ho. exact Ho.
                 --- right. exists p. split; assumption.
           ++ rewrite Hd. split.
              ** intros [Hz|[p [Hp Hz]]]; [left; exact Hz|].
                 right. exists p. split; [right; exact Hp | exact Hz].
              ** intros [Hz|[p [[Hp|Hp] Hz]]]; [left; exact Hz | |].
                 --- exfalso. apply E2. injection Hp as _ Ho. exact Ho.
                 --- right. exists p. split; assumption.
    + apply (Hother v); [discriminate | exact H].
Qed.

(** X23. The driver on a well-formed truth table.  When every row of the
    table is as wide as the list of input names, and the merging and covering
    loops are given enough passes, the driver returns the text that
    [write_pla_file] writes for the table's names and some list of terms; each
    row with output [1] is covered by one of these terms, and a term covers no
    pattern of that width other than those of rows with output [1] or [-]. *)
Theorem driver_on_table (enum : pyset -> list str) (items : list blif_item)
    (names : list str) (ms dcs : list Z) (fuel : nat) :
  (forall s, Permutation (enum s) s) ->
  Forall item_ok items ->
  items_state items = (names, ms, dcs) ->
  1 <= length names ->
  (forall p o, In (Row p o) items -> length p = length names) ->
  length names + 1 + length ms <= fuel ->
  exists out,
    quine_mccluskey_simplify enum fuel (map render_item items)
    = Ok (write_pla_file (length names) names out) /\
    (forall p, In (Row p (lit "1")) items ->
       exists t, In t out /\ covers t p = Ok true) /\
    (forall t m, In t out -> binary m -> length m = length names ->
       covers t m = Ok true ->
       In (Row m (lit "1")) items \/ In (Row m (lit "-")) items).
Proof.
  intros Hperm Hok Hst Hn Hrows Hf.
  unfold items_state in Hst.
  assert (Hread : read_blif_file (map render_item items)
                  = Ok (length names, ms, dcs, names)).
  { unfold read_blif_file. rewrite (read_items items Hok), Hst.
    reflexivity. }
  destruct (item_fold_values items _ _ _ _ _ _ Hst) as [Hm Hd].
  set (n := length names) in *.
  assert (Hpat : forall p o, In (Row p o) items ->
                             to_binary n (bin_value p) = p).
  { intros p o Hin. apply to_binary_bin_value.
    - exact Hn.
    - rewrite Forall_forall in Hok. apply (Hok _ Hin).
    - apply (Hrows p o Hin). }
  assert (Hval : forall z, In z (ms ++ dcs) ->
            exists p, (In (Row p (lit "1")) items \/
                       In (Row p (lit "-")) items) /\ z = bin_value p).
  { intros z Hz. apply in_app_or in Hz. destruct Hz as [Hz|Hz].
    - apply (proj1 (Hm z)) in Hz. destruct Hz as [[]|[p [Hp Hz]]].
      exists p. split; [left; exact Hp | exact Hz].
    - apply (proj1 (Hd z)) in Hz. destruct Hz as [[]|[p [Hp Hz]]].
      exists p. split; [right; exact Hp | exact Hz]. }
  assert (Hr : in_range n (ms ++ dcs) = true).
  { unfold in_range. apply forallb_forall. intros z Hz.
    destruct (Hval z Hz) as [p [Hp ->]].
    pose proof (bin_value_bounds p) as Hb.
    assert (Hl : length p = n) by (destruct Hp as [Hp|Hp]; apply (Hrows _ _ Hp)).
    rewrite Hl in Hb. unfold index_ok.
    apply andb_true_iff. split; [apply Z.leb_le | apply Z.ltb_lt]; lia. }
  destruct (run_spec enum Hperm n fuel ms dcs Hr Hf)
    as [pis [chosen [_ [_ [E [[_ [Up Himp]] [_ [Hsub [_ Hcov]]]]]]]]].
  assert (UL : Nat.max n 1 = n) by lia. rewrite UL in *.
  exists (sorted (enum chosen)). split; [|split].
  - unfold minimize in E. apply bind_Ok in E. destruct E as [self [Es Eo]].
    injection Eo as Eo.
    unfold quine_mccluskey_simplify. rewrite Hread. cbn [bind].
    rewrite Es. cbn [bind]. rewrite Eo. reflexivity.
  - intros p Hp.
    assert (Hz : In (bin_value p) ms).
    { apply (proj2 (Hm _)). right. exists p. split; [exact Hp | reflexivity]. }
    destruct (Hcov _ Hz) as [e [He Hme]]. rewrite (Hpat _ _ Hp) in Hme.
    exists e. split.
    + apply (proj2 (sorted_In _ _)).
      apply (proj2 (enum_In enum Hperm _ _)). exact He.
    + rewrite covers_matches; [rewrite Hme; reflexivity|].
      rewrite (Up e (Hsub e He)). symmetry. apply (Hrows _ _ Hp).
  - intros t m Ht Hb Hl Hc.
    apply (proj1 (sorted_In _ _)) in Ht.
    apply (proj1 (enum_In enum Hperm _ _)) in Ht.
    apply Hsub in Ht. destruct (Himp t Ht) as [Lt [_ Hexp]].
    rewrite covers_matches in Hc by congruence. injection Hc as Hc.
    specialize (Hexp m Hl Hb Hc).
    apply in_map_iff in Hexp. destruct Hexp as [z [Heq Hz]].
    destruct (Hval z Hz) as [p [Hp ->]].
    assert (Hpm : p = m).
    { rewrite <- Heq. symmetry.
      destruct Hp as [Hp|Hp]; apply (Hpat _ _ Hp). }
    subst p. exact Hp.
Qed.

Lemma driver_on_table_witness :
  exists out,
    quine_mccluskey_simplify enum_fwd 5
      (map render_item
         [Directive (lit ".model m"); Inputs [lit "a"; lit "b"];
          Directive (lit ".names a b f"); Row (lit "01") (lit "1");
          Blank; Row (lit "11") (lit "-"); Row (lit "00") (lit "0")])
    = Ok (write_pla_file 2 [lit "a"; lit "b"] out) /\
    (forall p,
       In (Row p (lit "1"))
         [Directive (lit ".model m"); Inputs [lit "a"; lit "b"];
          Directive (lit ".names a b f"); Row (lit "01") (lit "1");
          Blank; Row (lit "11") (lit "-"); Row (lit "00") (lit "0")] ->
       exists t, In t out /\ covers t p = Ok true) /\
    (forall t m, In t out -> binary m -> length m = 2 ->
       covers t m = Ok true ->
       In (Row m (lit "1"))
         [Directive (lit ".model m"); Inputs [lit "a"; lit "b"];
          Directive (lit ".names a b f"); Row (lit "01") (lit "1");
          Blank; Row (lit "11") (lit "-"); Row (lit "00") (lit "0")] \/
       In (Row m (lit "-"))
         [Directive (lit ".model m"); Inputs [lit "a"; lit "b"];
          Directive (lit ".names a b f"); Row (lit "01") (lit "1");
          Blank; Row (lit "11") (lit "-"); Row (lit "00") (lit "0")]).
Proof.
  apply (driver_on_table enum_fwd
           [Directive (lit ".model m"); Inputs [lit "a"; lit "b"];
            Directive (lit ".names a b f"); Row (lit "01") (lit "1");
            Blank; Row (lit "11") (lit "-"); Row (lit "00") (lit "0")]
           [lit "a"; lit "b"] [1%Z] [3%Z] 5 enum_fwd_perm).
  - apply Forall_cons;
      [apply (directive_check (lit "model") [lit "m"]); reflexivity|].
    apply Forall_cons;
      [apply (words_check [lit "a"; lit "b"]); reflexivity|].
    apply Forall_cons;
      [apply (directive_check (lit "names") [lit "a"; lit "b"; lit "f"]);
       reflexivity|].
    apply Forall_cons; [apply row_check; reflexivity|].
    apply Forall_cons; [exact I|].
    apply Forall_cons; [apply row_check; reflexivity|].
    apply Forall_cons; [apply row_check; reflexivity|].
    apply Forall_nil.
  - reflexivity.
  - simpl. lia.
  - intros p o H. simpl in H.
    destruct H as [H|[H|[H|[H|[H|[H|[H|[]]]]]]]]; try discriminate;
      injection H as <- _; reflexivity.
  - simpl. lia.
Defined.

(** ** Rows with a wrong number of fields *)

Lemma read_fields_line (c : ascii) (r : str) (ws : list str)
    (st : blif_state) :
  Ascii.eqb c dot = false -> word (c :: r) -> Forall word ws ->
  length ws <> 1 ->
  read_blif_line (fields_line (c :: r) ws ++ [newline]) st = Raise ValueError.
Proof.
  intros Hc Hw Hws Hl. unfold read_blif_line.
  destruct (fields_line_clean _ _ Hw Hws) as [H1 H2].
  rewrite (strip_line _ H1 H2). cbv zeta.
  destruct st as [[v m] d].
  rewrite (split_fields_line _ _ Hw Hws).
  unfold fields_line. cbn [app].
  change (lit ".inputs") with (dot :: lit "inputs").
  change (lit ".names") with (dot :: lit "names").
  change (lit ".") with [dot].
  rewrite !(startswith_other c dot) by exact Hc.
  cbn [negb andb].
  destruct ws as [|w1 [|w2 ws]]; [reflexivity | | reflexivity].
  exfalso. apply Hl. reflexivity.
Qed.

(** X24. The reader unpacks two fields: after any well-formed lines, a line
    that does not begin with a dot and holds one field, or three fields or
    more, ends the reading with [ValueError], whatever follows. *)
Theorem wrong_field_count_rejected (items : list blif_item) (c : ascii)
    (r : str) (ws : list str) (rest : list str) :
  Forall item_ok items ->
  Ascii.eqb c dot = false -> word (c :: r) -> Forall word ws ->
  length ws <> 1 ->
  read_blif_file
    (map render_item items ++ (fields_line (c :: r) ws ++ [newline]) :: rest)
  = Raise ValueError.
Proof.
  intros Hitems Hc Hw Hws Hl. unfold read_blif_file.
  rewrite for_each_app, (read_items items Hitems). cbn [bind for_each].
  rewrite (read_fields_line c r ws _ Hc Hw Hws Hl). reflexivity.
Qed.

Lemma wrong_field_count_rejected_witness :
  read_blif_file
    (map render_item [Inputs [lit "a"; lit "b"]; Row (lit "01") (lit "1")]
       ++ (fields_line (lit "1") [] ++ [newline]) :: [lit "11 1"])
  = Raise ValueError.
Proof.
  apply (wrong_field_count_rejected
           [Inputs [lit "a"; lit "b"]; Row (lit "01") (lit "1")]
           "1"%char [] [] [lit "11 1"]).
  - apply Forall_cons;
      [apply (words_check [lit "a"; lit "b"]); reflexivity|].
    apply Forall_cons; [apply row_check; reflexivity|].
    apply Forall_nil.
  - reflexivity.
  - apply word_check. reflexivity.
  - apply Forall_nil.
  - simpl. lia.
Defined.
